(** * npm-downloader: the dependency walker of [src/index.js]

    A shallow embedding of the resolution engine of [src/index.js] and the
    properties of its specification.

    The JavaScript program is single threaded: an [async] function runs
    without interruption up to its next [await], and is resumed later by the
    event loop.  The embedding keeps that structure.  The process-wide
    accumulators ([downloadedPackages], [packageList], [dependencyTree],
    [licenseWarnings]) are fields of one [state]; every invocation of
    [downloadPackageAndDependencies] is a promise of the pool, whose [phase]
    says at which [await] it is suspended; [step] resumes one promise and runs
    it up to its next [await].  What the network answers is given by an
    [environment]; in which order suspended invocations are resumed is given
    by a schedule, a list of promise indices. *)

From Stdlib Require Import Ascii String NArith.
From stdpp Require Import base gmap sets list strings.

Set Warnings "-clear-no-such-hyp".

(** ** Characters and strings

    JavaScript strings are modelled by [string]; a character is an [ascii],
    so the line separators U+2028 and U+2029 are out of the model. *)

Module Str.

Definition chars (s : string) : list ascii := String.list_ascii_of_string s.
Definition of_chars (l : list ascii) : string := String.string_of_list_ascii l.

(** [xs.join(sep)] *)
Fixpoint join (sep : string) (xs : list string) : string :=
  match xs with
  | [] => ""
  | [x] => x
  | x :: rest => x +:+ sep +:+ join sep rest
  end.

(** [s.repeat(n)] *)
Fixpoint repeat (s : string) (n : nat) : string :=
  match n with
  | 0 => ""
  | S k => s +:+ repeat s k
  end.

(** [s.replace(/c/g, d)] for single characters [c] and [d]. *)
Definition replace_all (c d : ascii) (s : string) : string :=
  of_chars (map (fun x => if Ascii.eqb x c then d else x) (chars s)).

(** The text before the first occurrence of [c], and the text after it
    when [c] occurs. *)
Fixpoint cut (c : ascii) (l : list ascii) : list ascii * option (list ascii) :=
  match l with
  | [] => ([], None)
  | x :: r =>
      if Ascii.eqb x c then ([], Some r)
      else let '(a, b) := cut c r in (x :: a, b)
  end.

(** The longest prefix whose characters satisfy [f], and what follows. *)
Fixpoint span (f : ascii -> bool) (l : list ascii) : list ascii * list ascii :=
  match l with
  | [] => ([], [])
  | x :: r =>
      if f x then let '(a, b) := span f r in (x :: a, b)
      else ([], l)
  end.

Definition is_digit (c : ascii) : bool :=
  (48 <=? nat_of_ascii c)%nat && (nat_of_ascii c <=? 57)%nat.

(** Line terminators, which [.] of a regular expression does not match. *)
Definition is_line_terminator (c : ascii) : bool :=
  (nat_of_ascii c =? 10)%nat || (nat_of_ascii c =? 13)%nat.

End Str.

(** ** Constants of [src/index.js] *)

Definition REGISTRY_URL : string := "https://registry.npmmirror.com".
Definition CONCURRENCY : nat := 5.
Definition COMMERCIAL_FRIENDLY_LICENSES : list string :=
  ["MIT"; "Apache-2.0"; "BSD-2-Clause"; "BSD-3-Clause"; "ISC"].

(** ** [parsePackageString]

    [scoped_match] is the match of
    [/^(@[^\/]+\/[^@]+)(?:@(.+))?$/]: an [@], a scope without [/], a [/], a
    name without [@], and either the end of the input or an [@] followed by
    one or more characters up to the end, none of them a line terminator.
    Every part is delimited by the first character it cannot contain, so the
    match is unique when there is one.  The result is the pair of the two
    capture groups. *)
Definition scoped_match (packageString : string) : option (string * option string) :=
  match Str.chars packageString with
  | "@"%char :: r =>
      match Str.cut "/" r with
      | (scope, Some r1) =>
          match scope, Str.cut "@" r1 with
          | [], _ => None
          | _, ([], _) => None
          | _, (pkg, None) =>
              Some (Str.of_chars ("@"%char :: scope ++ "/"%char :: pkg), None)
          | _, (pkg, Some ver) =>
              match ver with
              | [] => None
              | _ =>
                  if forallb (fun c => negb (Str.is_line_terminator c)) ver
                  then Some (Str.of_chars ("@"%char :: scope ++ "/"%char :: pkg),
                             Some (Str.of_chars ver))
                  else None
              end
          end
      | (_, None) => None
      end
  | _ => None
  end.

(** [const [name, version] = packageString.split('@')]: the first two pieces
    of the split; the second is [undefined] when there is no [@]. *)
Definition split_at_first_two (packageString : string) : string * option string :=
  match Str.cut "@" (Str.chars packageString) with
  | (name, None) => (Str.of_chars name, None)
  | (name, Some r) => (Str.of_chars name, Some (Str.of_chars (fst (Str.cut "@" r))))
  end.

(** [version || 'latest']: [undefined] and the empty string are falsy. *)
Definition version_or_latest (version : option string) : string :=
  match version with
  | None => "latest"
  | Some v => if String.eqb v "" then "latest" else v
  end.

(** [None] stands for the thrown [Error("Invalid package string: ...")]. *)
Definition parsePackageString (packageString : string) : option (string * string) :=
  match scoped_match packageString with
  | None =>
      let '(name, version) := split_at_first_two packageString in
      if String.eqb name "" then None
      else Some (name, version_or_latest version)
  | Some (name, version) => Some (name, version_or_latest version)
  end.

(** ** Version normalization: [semver.valid(semver.coerce(versionRange))]

    The two functions come from the [semver] package, which is not part of
    [src/]; [Semver] holds their model. *)

Module Semver.

Definition MAX_SAFE_COMPONENT_LENGTH : nat := 16.
Definition MAX_SAFE_INTEGER : N := 9007199254740991%N.

Definition digit_value (c : ascii) : N := N.of_nat (nat_of_ascii c - 48).

Definition numeral_value (ds : list ascii) : N :=
  fold_left (fun acc c => (10 * acc + digit_value c)%N) ds 0%N.

(** Modelled from the spec: the start of the first version-shaped token.
    This is the leftmost place where [(^|[^\d])(\d{1,16})] matches with a
    non-digit or the end after it: the first maximal run of digits that
    has at most 16 of them.  A longer run matches nowhere, since each of
    its digits is preceded or followed by another digit.  [prev_digit]
    says whether the character before [l] is a digit. *)
Fixpoint find_major (prev_digit : bool) (l : list ascii)
  : option (list ascii * list ascii) :=
  match l with
  | [] => None
  | c :: r =>
      if Str.is_digit c then
        if prev_digit then find_major true r
        else
          let '(run, rest) := Str.span Str.is_digit l in
          if (length run <=? MAX_SAFE_COMPONENT_LENGTH)%nat then Some (run, rest)
          else find_major true r
      else find_major false r
  end.

(** Modelled from the spec: the next component of the token, which is the
    optional group [(?:\.(\d{1,16}))?] in front of [l]. *)
Definition component (l : list ascii) : option (list ascii * list ascii) :=
  match l with
  | "."%char :: r =>
      let '(run, rest) := Str.span Str.is_digit r in
      if (1 <=? length run)%nat && (length run <=? MAX_SAFE_COMPONENT_LENGTH)%nat
      then Some (run, rest) else None
  | _ => None
  end.

(** Modelled from the spec: the [major.minor.patch] token that
    [semver.coerce] extracts, as its three captured components, the missing
    ones replaced by ["0"]. *)
Definition coerce_match (l : list ascii)
  : option (list ascii * list ascii * list ascii) :=
  match find_major false l with
  | None => None
  | Some (major, r1) =>
      match component r1 with
      | None => Some (major, ["0"%char], ["0"%char])
      | Some (minor, r2) =>
          match component r2 with
          | None => Some (major, minor, ["0"%char])
          | Some (patch, _) => Some (major, minor, patch)
          end
      end
  end.

(** Modelled from the spec: what the strict parse of [semver] accepts as a
    component, a numeric identifier [0|[1-9]\d*] whose value is a safe
    integer. *)
Definition numeric_identifier (ds : list ascii) : bool :=
  match ds with
  | [] => false
  | c :: r =>
      (if Ascii.eqb c "0" then match r with [] => true | _ => false end else true)
      && forallb Str.is_digit ds
      && (numeral_value ds <=? MAX_SAFE_INTEGER)%N
  end.

(** Modelled from the spec: [semver.coerce] and [semver.valid] belong to
    the [semver] package, which is not under [src/].  The specification
    describes them as extracting the first [major.minor.patch]-shaped token
    of the input, dropping pre-release and build metadata, and failing when
    no version can be coerced.  This definition follows the package's
    coercion pattern
    [(^|[^\d])(\d{1,16})(?:\.(\d{1,16}))?(?:\.(\d{1,16}))?(?:$|[^\d])]
    and its strict parse of the resulting [major.minor.patch].  [None]
    stands for [null]. *)
Definition normalize (versionRange : string) : option string :=
  match coerce_match (Str.chars versionRange) with
  | None => None
  | Some (major, minor, patch) =>
      if numeric_identifier major && numeric_identifier minor
         && numeric_identifier patch
      then Some (Str.of_chars major +:+ "." +:+ Str.of_chars minor
                 +:+ "." +:+ Str.of_chars patch)
      else None
  end.

End Semver.

(** ** Things the program does to the outside world

    The requests it sends and the lines it prints, in order. *)
Inductive event :=
  | EvMetadataRequest (packageName version : string)
      (** [axios.get(url)] in [getPackageMetadata] *)
  | EvTarballRequest (packageName version tarballUrl : string)
      (** the [axios] call of [downloadTarball] *)
  | EvSkipTarball (fileName : string)
      (** ["Skipping ... (already downloaded)"] *)
  | EvInvalidRange (name versionRange : string)
      (** ["Skipping invalid version range: ..."] *)
  | EvLicenseWarning (warning : string)
  | EvError (packageKey message : string)
      (** ["Error downloading ...:"] of the [catch] block *).

Global Instance event_eq_dec : EqDecision event.
Proof. solve_decision. Defined.

(** ** [isCommercialFriendly] and the warning text *)

(** [license] is [None] when the metadata has no [license] field. *)
Definition isCommercialFriendly (license : option string) : bool :=
  match license with
  | None => false
  | Some l =>
      if String.eqb l "" then false
      else bool_decide (l ∈ COMMERCIAL_FRIENDLY_LICENSES)
  end.

(** [license || 'Unknown'] *)
Definition license_or_unknown (license : option string) : string :=
  match license with
  | None => "Unknown"
  | Some l => if String.eqb l "" then "Unknown" else l
  end.

Definition license_warning (packageKey : string) (license : option string) : string :=
  "WARNING: " +:+ packageKey +:+ " uses a non-commercial-friendly license: "
  +:+ license_or_unknown license.

(** ** [getAllDependencies]

    A JavaScript object used as a map from names to versions is the list of
    its entries in the order [Object.entries] enumerates them. *)

(** [o[k] = v] on an object literal: an existing property keeps its place,
    a new one goes last; an assignment to [__proto__] creates no property. *)
Fixpoint assign (o : list (string * string)) (k v : string) : list (string * string) :=
  match o with
  | [] => [(k, v)]
  | (k', v') :: r => if decide (k' = k) then (k, v) :: r else (k', v') :: assign r k v
  end.

Definition obj_set (o : list (string * string)) (k v : string) : list (string * string) :=
  if decide (k = "__proto__") then o else assign o k v.

(** The result object and the warnings printed on the way. *)
Definition getAllDependencies (dependencies : list (string * string))
  : list (string * string) * list event :=
  fold_left
    (fun '(allDependencies, out) '(name, versionRange) =>
       match Semver.normalize versionRange with
       | Some normalizedVersion => (obj_set allDependencies name normalizedVersion, out)
       | None => (allDependencies, out ++ [EvInvalidRange name versionRange])
       end)
    dependencies ([], []).

(** ** Registry answers *)

(** The body of a metadata response.  [dependencies] is [None] when the field
    is missing, and otherwise lists the entries of the object in enumeration
    order; [dist] is the [tarball] url of the [dist] field, [None] when the
    response has no [dist] object, so that reading [metadata.dist.tarball]
    throws. *)
Record metadata := Metadata {
  dependencies : option (list (string * string));
  license : option string;
  dist : option string;
}.

(** How [await getPackageMetadata(...)] ends: with the response body, or by
    throwing (network failure, status outside 2xx, or a body that is [null],
    on which reading [.dependencies] throws).  An error is its message. *)
Inductive metadata_result :=
  | MetadataOk (m : metadata)
  | MetadataFail (message : string).

(** How the download of [downloadTarball] ends: the request itself fails, or
    the response arrives and its stream then emits [end] or [error]. *)
Inductive tarball_result :=
  | TarballReject (message : string)
  | StreamEnd
  | StreamError (message : string).

(** Every pair of a name and a version is requested at most once in a run,
    so two functions describe everything the network can do in a run. *)
Record environment := Environment {
  registry : string -> string -> metadata_result;
  archive : string -> string -> tarball_result;
}.

(** [`${REGISTRY_URL}/${packageName}/${version}`] *)
Definition metadata_url (packageName version : string) : string :=
  REGISTRY_URL +:+ "/" +:+ packageName +:+ "/" +:+ version.

(** [getPackageMetadata]: the request goes to [metadata_url packageName
    version]; how it ends is the registry's part. *)
Definition getPackageMetadata (env : environment) (packageName version : string)
  : metadata_result :=
  registry env packageName version.

(** ** Promises

    One promise per invocation of [downloadPackageAndDependencies].  A
    pending promise is suspended at one of the [await]s of the function;
    the phase holds the local variables the rest of the body reads. *)
Inductive phase :=
  | AwaitMetadata (packageName version : string)
      (** [await getPackageMetadata(packageName, version)] *)
  | AwaitTarball (packageName version : string) (deps : list (string * string))
      (** [await axios(...)] inside [downloadTarball] *)
  | AwaitStream (packageName version : string) (deps : list (string * string))
      (** the promise on the [end] and [error] events of the stream *)
  | AwaitSkip (packageName version : string) (deps : list (string * string))
      (** [await] of a [downloadTarball] that returned at once *)
  | AwaitBatch (packageKey : string) (downloadPromises : list nat) (i : nat)
      (** [await Promise.all(downloadPromises.slice(i, i + batchSize))] *)
  | Resolved
  | Rejected (message : string).

Global Instance phase_eq_dec : EqDecision phase.
Proof. solve_decision. Defined.

Definition settled (ph : phase) : bool :=
  match ph with
  | Resolved | Rejected _ => true
  | _ => false
  end.

(** ** The state of a run

    The four global accumulators of the program, the names of the files in
    the download directory, what has been sent and printed so far, and the
    pool of promises; a promise is named by its index in the pool. *)
Record state := State {
  downloadedPackages : gset string;
  packageList : list string;
  dependencyTree : gmap string (list string);
  licenseWarnings : list string;
  files : gset string;
  trace : list event;
  promises : list phase;
}.

Definition initial (files0 : gset string) : state :=
  State ∅ [] ∅ [] files0 [] [].

Definition emit (e : event) (s : state) : state :=
  State (downloadedPackages s) (packageList s) (dependencyTree s)
        (licenseWarnings s) (files s) (trace s ++ [e]) (promises s).

Definition emit_all (es : list event) (s : state) : state :=
  State (downloadedPackages s) (packageList s) (dependencyTree s)
        (licenseWarnings s) (files s) (trace s ++ es) (promises s).

Definition set_promise (p : nat) (ph : phase) (s : state) : state :=
  State (downloadedPackages s) (packageList s) (dependencyTree s)
        (licenseWarnings s) (files s) (trace s) (<[p := ph]> (promises s)).

(** [response.data.pipe(fs.createWriteStream(filePath))] creates the file. *)
Definition add_file (fileName : string) (s : state) : state :=
  State (downloadedPackages s) (packageList s) (dependencyTree s)
        (licenseWarnings s) ({[fileName]} ∪ files s) (trace s) (promises s).

Definition new_promise (ph : phase) (s : state) : state * nat :=
  (State (downloadedPackages s) (packageList s) (dependencyTree s)
         (licenseWarnings s) (files s) (trace s) (promises s ++ [ph]),
   length (promises s)).

(** [`${packageName}@${version}`] *)
Definition packageKey_of (packageName version : string) : string :=
  packageName +:+ "@" +:+ version.

(** [if (parent) { if (!dependencyTree[parent]) dependencyTree[parent] = [];
    dependencyTree[parent].push(packageKey) }].  A parent is [null] or a
    package key; a package key contains [@], so it never names a property
    that an object inherits, and [dependencyTree[parent]] is a lookup among
    the entries the program has stored. *)
Definition record_edge (parent : option string) (packageKey : string)
    (tree : gmap string (list string)) : gmap string (list string) :=
  match parent with
  | None => tree
  | Some p =>
      if String.eqb p "" then tree
      else <[p := default [] (tree !! p) ++ [packageKey]]> tree
  end.

(** ** [downloadPackageAndDependencies], up to its first [await]

    A call runs at once the part of the body that precedes
    [await getPackageMetadata(...)] and returns its promise: an already
    resolved one when the key is in [downloadedPackages], and otherwise one
    that waits for the metadata, after the key has been claimed and the
    request sent. *)
Definition downloadPackageAndDependencies
    (packageName version : string) (parent : option string) (s : state)
  : state * nat :=
  let packageKey := packageKey_of packageName version in
  if decide (packageKey ∈ downloadedPackages s) then new_promise Resolved s
  else
    new_promise (AwaitMetadata packageName version)
      (State ({[packageKey]} ∪ downloadedPackages s)
             (packageList s ++ [packageKey])
             (record_edge parent packageKey (dependencyTree s))
             (licenseWarnings s) (files s)
             (trace s ++ [EvMetadataRequest packageName version])
             (promises s)).

(** ** The rest of the body, one [await] at a time

    Each piece runs inside the [try] block and ends at the next [await], at
    the end of the block, or by throwing. *)
Inductive completion :=
  | Suspend (ph : phase)
  | Finish
  | Throw (message : string).

(** [`${packageName}-${version}.tgz`.replace(/\//g, '-')] *)
Definition fileName_of (packageName version : string) : string :=
  Str.replace_all "/" "-" (packageName +:+ "-" +:+ version +:+ ".tgz").

(** [downloadTarball] up to its first [await]. *)
Definition downloadTarball (packageName version tarballUrl : string)
    (deps : list (string * string)) (s : state) : state * completion :=
  let fileName := fileName_of packageName version in
  if decide (fileName ∈ files s)
  then (emit (EvSkipTarball fileName) s, Suspend (AwaitSkip packageName version deps))
  else (emit (EvTarballRequest packageName version tarballUrl) s,
        Suspend (AwaitTarball packageName version deps)).

(** [if (!isCommercialFriendly(license)) { licenseWarnings.push(warning);
    console.log(chalk.red(warning)) }] *)
Definition audit_license (packageKey : string) (license : option string) (s : state)
  : state :=
  if isCommercialFriendly license then s
  else
    let warning := license_warning packageKey license in
    emit (EvLicenseWarning warning)
      (State (downloadedPackages s) (packageList s) (dependencyTree s)
             (licenseWarnings s ++ [warning]) (files s) (trace s) (promises s)).

(** The message of the [TypeError] that reading [metadata.dist.tarball]
    throws when the metadata has no [dist]. *)
Definition tarball_error : string :=
  "Cannot read properties of undefined (reading 'tarball')".

(** From the arrival of the metadata to [await downloadTarball(...)]. *)
Definition after_metadata (packageName version : string) (m : metadata) (s : state)
  : state * completion :=
  let packageKey := packageKey_of packageName version in
  let deps := default [] (dependencies m) in
  let s1 := audit_license packageKey (license m) s in
  match dist m with
  | None => (s1, Throw tarball_error)
  | Some tarballUrl => downloadTarball packageName version tarballUrl deps s1
  end.

(** [Object.entries(allDependencies).map(([name, version]) =>
    downloadPackageAndDependencies(name, version, packageKey))]: every call
    is made, in order, before anything is awaited. *)
Fixpoint call_all (entries : list (string * string)) (parent : string) (s : state)
  : state * list nat :=
  match entries with
  | [] => (s, [])
  | (name, version) :: rest =>
      let '(s1, p) := downloadPackageAndDependencies name version (Some parent) s in
      let '(s2, ps) := call_all rest parent s1 in
      (s2, p :: ps)
  end.

(** From the end of the download to the first [await Promise.all(batch)]. *)
Definition after_download (packageName version : string)
    (deps : list (string * string)) (s : state) : state * completion :=
  let packageKey := packageKey_of packageName version in
  let '(allDependencies, warnings) := getAllDependencies deps in
  let '(s1, downloadPromises) := call_all allDependencies packageKey (emit_all warnings s) in
  if (0 <? length downloadPromises)%nat
  then (s1, Suspend (AwaitBatch packageKey downloadPromises 0))
  else (s1, Finish).

(** [Promise.all(batch)] rejects as soon as one member has rejected, and
    resolves when all have resolved. *)
Inductive all_status :=
  | AllPending
  | AllResolved
  | AllRejected (message : string).

Fixpoint promise_all (pool : list phase) (batch : list nat) : all_status :=
  match batch with
  | [] => AllResolved
  | p :: rest =>
      match pool !! p with
      | Some (Rejected e) => AllRejected e
      | Some Resolved => promise_all pool rest
      | _ =>
          match promise_all pool rest with
          | AllRejected e => AllRejected e
          | _ => AllPending
          end
      end
  end.

(** [downloadPromises.slice(i, i + batchSize)] *)
Definition slice (i n : nat) (l : list nat) : list nat := take n (drop i l).

(** The [catch] block and the return of the function. *)
Definition finish (p : nat) (packageKey : string) (r : state * completion) : state :=
  match r with
  | (s, Suspend ph) => set_promise p ph s
  | (s, Finish) => set_promise p Resolved s
  | (s, Throw message) => set_promise p Resolved (emit (EvError packageKey message) s)
  end.

(** [step env s p] resumes promise [p]: what it awaits has happened, and the
    body runs to its next [await].  [None] when [p] is not a pending promise
    or what it awaits has not happened yet. *)
Definition step (env : environment) (s : state) (p : nat) : option state :=
  match promises s !! p with
  | Some (AwaitMetadata packageName version) =>
      Some (finish p (packageKey_of packageName version)
        match getPackageMetadata env packageName version with
        | MetadataOk m => after_metadata packageName version m s
        | MetadataFail message => (s, Throw message)
        end)
  | Some (AwaitTarball packageName version deps) =>
      Some (finish p (packageKey_of packageName version)
        match archive env packageName version with
        | TarballReject message => (s, Throw message)
        | _ =>
            (add_file (fileName_of packageName version) s,
             Suspend (AwaitStream packageName version deps))
        end)
  | Some (AwaitStream packageName version deps) =>
      Some (finish p (packageKey_of packageName version)
        match archive env packageName version with
        | StreamError message => (s, Throw message)
        | _ => after_download packageName version deps s
        end)
  | Some (AwaitSkip packageName version deps) =>
      Some (finish p (packageKey_of packageName version)
              (after_download packageName version deps s))
  | Some (AwaitBatch packageKey downloadPromises i) =>
      match promise_all (promises s) (slice i CONCURRENCY downloadPromises) with
      | AllPending => None
      | AllRejected message => Some (finish p packageKey (s, Throw message))
      | AllResolved =>
          Some (finish p packageKey
            (s, if (i + CONCURRENCY <? length downloadPromises)%nat
                then Suspend (AwaitBatch packageKey downloadPromises (i + CONCURRENCY))
                else Finish))
      end
  | _ => None
  end.

(** A schedule is the order in which promises are resumed. *)
Fixpoint run (env : environment) (schedule : list nat) (s : state) : option state :=
  match schedule with
  | [] => Some s
  | p :: rest =>
      match step env s p with
      | Some s' => run env rest s'
      | None => None
      end
  end.

(** ** [main]

    [parsedPackages.map(({ name, version }) =>
    downloadPackageAndDependencies(name, version))]: the roots are called
    one after the other, without a parent, before anything is awaited. *)
Definition launch (roots : list (string * string)) (s : state) : state :=
  fold_left (fun s '(name, version) =>
               fst (downloadPackageAndDependencies name version None s)) roots s.

(** [packages.map(parsePackageString)]; [None] when one of them throws. *)
Definition parse_all (packages : list string) : option (list (string * string)) :=
  mapM parsePackageString packages.

(** The state in which [main] reaches [await Promise.all(downloadPromises)]. *)
Definition main (files0 : gset string) (packages : list string) : option state :=
  roots ← parse_all packages;
  Some (launch roots (initial files0)).

(** ** The download directory before the run

    The directory is [None] when it does not exist, and otherwise the set
    of the names of its files.  What the two functions print is a list of
    notices. *)
Inductive notice :=
  | Clearing   (** ["Clearing download directory: ..."] *)
  | Creating.  (** ["Creating download directory: ..."] *)

(** [clearDownloadDirectory]: [if (fs.existsSync(DOWNLOAD_DIR)) { ...;
    fs.rmSync(DOWNLOAD_DIR, { recursive: true, force: true }) }] *)
Definition clearDownloadDirectory (dir : option (gset string))
  : option (gset string) * list notice :=
  match dir with
  | Some _ => (None, [Clearing])
  | None => (None, [])
  end.

(** [createDownloadDirectory]: [if (!fs.existsSync(DOWNLOAD_DIR)) { ...;
    fs.mkdirSync(DOWNLOAD_DIR) }] *)
Definition createDownloadDirectory (dir : option (gset string))
  : option (gset string) * list notice :=
  match dir with
  | Some existing => (Some existing, [])
  | None => (Some ∅, [Creating])
  end.

(** The action of [main] up to [await Promise.all(downloadPromises)]:
    [if (program.opts().clear) clearDownloadDirectory();
    createDownloadDirectory();] and then the parsing of the packages and the
    calls for the roots.  The result is the directory, what has been printed
    about it, and the state of the run, [None] when a package string is
    rejected. *)
Definition action (clear : bool) (dir : option (gset string)) (packages : list string)
  : option (gset string) * list notice * option state :=
  let '(dir1, notices1) := if clear then clearDownloadDirectory dir else (dir, []) in
  let '(dir2, notices2) := createDownloadDirectory dir1 in
  (dir2, notices1 ++ notices2, main (default ∅ dir2) packages).

(** The states a run can be in. *)
Definition reachable (env : environment) (files0 : gset string)
    (roots : list (string * string)) (s : state) : Prop :=
  ∃ schedule, run env schedule (launch roots (initial files0)) = Some s.

(** The run is over when no promise is pending. *)
Definition quiescent (s : state) : Prop :=
  Forall (fun ph => settled ph = true) (promises s).

Definition newline : string := String "010" "".

(** ** [buildDependencyTree]

    The recursion of the source follows the recorded edges and need not end
    on an arbitrary object; the embedding counts calls down from [fuel] and
    answers [None] when that is not enough. *)
Fixpoint buildDependencyTree (fuel : nat) (tree : gmap string (list string))
    (packageKey : string) (depth : nat) : option string :=
  match fuel with
  | 0 => None
  | S fuel' =>
      let line := Str.repeat "  " depth +:+ "- " +:+ packageKey +:+ newline in
      match tree !! packageKey with
      | None => Some line
      | Some children =>
          fold_left
            (fun acc child =>
               match acc, buildDependencyTree fuel' tree child (S depth) with
               | Some t, Some sub => Some (t +:+ sub)
               | _, _ => None
               end)
            children (Some line)
      end
  end.

(** The text written to the log file. *)
Definition logContent (fuel : nat) (roots : list (string * string)) (s : state)
  : option string :=
  trees ← mapM (fun '(name, version) =>
                  buildDependencyTree fuel (dependencyTree s)
                    (packageKey_of name version) 0) roots;
  Some (newline +:+ "=== Downloaded Packages ===" +:+ newline
        +:+ Str.join newline (packageList s)
        +:+ newline +:+ newline
        +:+ "=== Dependency Tree ===" +:+ newline
        +:+ Str.join newline trees
        +:+ newline +:+ newline
        +:+ "=== License Warnings ===" +:+ newline
        +:+ (match licenseWarnings s with
             | [] => "No license warnings."
             | _ => Str.join newline (licenseWarnings s)
             end)
        +:+ newline).

(** ** Vocabulary of the properties *)

Definition count_if {A : Type} (f : A -> bool) (l : list A) : nat :=
  length (List.filter f l).

(** The requests of a trace that concern one package key. *)
Definition is_metadata_request (k : string) (e : event) : bool :=
  match e with
  | EvMetadataRequest n v => bool_decide (packageKey_of n v = k)
  | _ => false
  end.

Definition is_tarball_request (k : string) (e : event) : bool :=
  match e with
  | EvTarballRequest n v _ => bool_decide (packageKey_of n v = k)
  | _ => false
  end.

Definition metadata_fetches (k : string) (s : state) : nat :=
  count_if (is_metadata_request k) (trace s).

Definition archive_fetches (k : string) (s : state) : nat :=
  count_if (is_tarball_request k) (trace s).

Definition occurrences (k : string) (l : list string) : nat :=
  count_if (fun x => bool_decide (x = k)) l.

(** The promises of [ps] that are still pending. *)
Definition in_flight (s : state) (ps : list nat) : nat :=
  count_if (fun p => match promises s !! p with
                     | Some ph => negb (settled ph)
                     | None => false
                     end) ps.

(** A recorded edge of the dependency tree. *)
Definition edge (tree : gmap string (list string)) (parent child : string) : Prop :=
  ∃ children, tree !! parent = Some children ∧ child ∈ children.

(** The place of the first occurrence of [k] in [l]; [length l] when there
    is none. *)
Fixpoint rank (l : list string) (k : string) : nat :=
  match l with
  | [] => 0
  | x :: r => if decide (x = k) then 0 else S (rank r k)
  end.

(** The depth-first pre-order walk over the recorded edges that
    [buildDependencyTree] is specified as: the visited keys with their
    depths. *)
Fixpoint preorder (fuel : nat) (tree : gmap string (list string))
    (packageKey : string) (depth : nat) : option (list (nat * string)) :=
  match fuel with
  | 0 => None
  | S fuel' =>
      match tree !! packageKey with
      | None => Some [(depth, packageKey)]
      | Some children =>
          subtrees ← mapM (fun child => preorder fuel' tree child (S depth)) children;
          Some ((depth, packageKey) :: concat subtrees)
      end
  end.

(** One line per visited key, indented by two spaces per level. *)
Definition render_line (l : nat * string) : string :=
  Str.repeat "  " l.1 +:+ "- " +:+ l.2 +:+ newline.

Definition render (lines : list (nat * string)) : string :=
  foldr (fun l acc => render_line l +:+ acc) "" lines.




Definition skipped_entry (entry : string * string) : option event :=
  match Semver.normalize entry.2 with
  | Some _ => None
  | None => Some (EvInvalidRange entry.1 entry.2)
  end.


(** A package with six dependencies. *)
Definition six_dependencies_env : environment :=
  Environment
    (fun n v =>
       if String.eqb n "app"
       then MetadataOk
              (Metadata
                 (Some [("d1", "^1.0.0"); ("d2", "^1.0.0"); ("d3", "^1.0.0");
                        ("d4", "^1.0.0"); ("d5", "^1.0.0"); ("d6", "^1.0.0")])
                 (Some "MIT") (Some "https://registry.npmmirror.com/app/-/app-1.0.0.tgz"))
       else MetadataOk (Metadata None (Some "MIT") (Some "u")))
    (fun _ _ => StreamEnd).

(** ** The step relation

    [resumes env s ph s1 ph'] says how a promise suspended in phase [ph] is
    resumed in state [s]: the globals become those of [s1] and the promise
    goes to phase [ph'].  It is [step], one rule per way through the body. *)
Definition next_batch (packageKey : string) (downloadPromises : list nat) (i : nat)
  : phase :=
  if (i <? length downloadPromises)%nat
  then AwaitBatch packageKey downloadPromises i
  else Resolved.

Inductive resumes (env : environment) (s : state) : phase -> state -> phase -> Prop :=
  | R_metadata_fail n v message :
      registry env n v = MetadataFail message →
      resumes env s (AwaitMetadata n v)
        (emit (EvError (packageKey_of n v) message) s) Resolved
  | R_no_dist n v m :
      registry env n v = MetadataOk m → dist m = None →
      resumes env s (AwaitMetadata n v)
        (emit (EvError (packageKey_of n v) tarball_error)
           (audit_license (packageKey_of n v) (license m) s)) Resolved
  | R_skip n v m url :
      registry env n v = MetadataOk m → dist m = Some url →
      fileName_of n v ∈ files s →
      resumes env s (AwaitMetadata n v)
        (emit (EvSkipTarball (fileName_of n v))
           (audit_license (packageKey_of n v) (license m) s))
        (AwaitSkip n v (default [] (dependencies m)))
  | R_request n v m url :
      registry env n v = MetadataOk m → dist m = Some url →
      fileName_of n v ∉ files s →
      resumes env s (AwaitMetadata n v)
        (emit (EvTarballRequest n v url)
           (audit_license (packageKey_of n v) (license m) s))
        (AwaitTarball n v (default [] (dependencies m)))
  | R_tarball_reject n v deps message :
      archive env n v = TarballReject message →
      resumes env s (AwaitTarball n v deps)
        (emit (EvError (packageKey_of n v) message) s) Resolved
  | R_tarball_response n v deps :
      (∀ message, archive env n v ≠ TarballReject message) →
      resumes env s (AwaitTarball n v deps)
        (add_file (fileName_of n v) s) (AwaitStream n v deps)
  | R_stream_error n v deps message :
      archive env n v = StreamError message →
      resumes env s (AwaitStream n v deps)
        (emit (EvError (packageKey_of n v) message) s) Resolved
  | R_stream_end n v deps :
      (∀ message, archive env n v ≠ StreamError message) →
      resumes env s (AwaitStream n v deps)
        (after_download n v deps s).1
        (next_batch (packageKey_of n v) (call_all (getAllDependencies deps).1
           (packageKey_of n v) (emit_all (getAllDependencies deps).2 s)).2 0)
  | R_skipped n v deps :
      resumes env s (AwaitSkip n v deps)
        (after_download n v deps s).1
        (next_batch (packageKey_of n v) (call_all (getAllDependencies deps).1
           (packageKey_of n v) (emit_all (getAllDependencies deps).2 s)).2 0)
  | R_batch_rejected k ps i message :
      promise_all (promises s) (slice i CONCURRENCY ps) = AllRejected message →
      resumes env s (AwaitBatch k ps i) (emit (EvError k message) s) Resolved
  | R_batch_resolved k ps i :
      promise_all (promises s) (slice i CONCURRENCY ps) = AllResolved →
      resumes env s (AwaitBatch k ps i) s (next_batch k ps (i + CONCURRENCY)).

(** The phase in which a piece of the body that does not throw leaves the
    promise. *)
Definition finish_phase (c : completion) : option phase :=
  match c with
  | Suspend ph => Some ph
  | Finish => Some Resolved
  | Throw _ => None
  end.

(** The package a pending promise is working on. *)
Definition phase_package (ph : phase) : option (string * string) :=
  match ph with
  | AwaitMetadata n v | AwaitTarball n v _ | AwaitStream n v _ | AwaitSkip n v _ =>
      Some (n, v)
  | _ => None
  end.

(** ** The graph part of the state

    The set of claimed keys, the package list and the recorded edges change
    only when a call claims a key. *)
Definition graph : Type := gset string * list string * gmap string (list string).

Definition graph_of (s : state) : graph :=
  (downloadedPackages s, packageList s, dependencyTree s).

Definition claim (parent : option string) (g : graph) (k : string) : graph :=
  if decide (k ∈ g.1.1) then g
  else ({[k]} ∪ g.1.1, g.1.2 ++ [k], record_edge parent k g.2).

Definition claim_all (parent : option string) (keys : list string) (g : graph) : graph :=
  fold_left (claim parent) keys g.

Definition entry_key (e : string * string) : string := packageKey_of e.1 e.2.

Definition phase_key (ph : phase) : option string :=
  entry_key <$> phase_package ph.

(** What holds of the graph part in every state of a run: the package list
    has no duplicates and lists the claimed keys; the two ends of an edge are
    in the list, the parent before the child; a key is the child of one
    parent at most, once. *)
Record forest (g : graph) : Prop := Forest {
  forest_nodup : NoDup g.1.2;
  forest_list : ∀ k, k ∈ g.1.2 ↔ k ∈ g.1.1;
  forest_rank : ∀ p c, edge g.2 p c →
                       p ∈ g.1.2 ∧ c ∈ g.1.2 ∧ rank g.1.2 p < rank g.1.2 c;
  forest_parent : ∀ p1 p2 c, edge g.2 p1 c → edge g.2 p2 c → p1 = p2;
  forest_children : ∀ p l, g.2 !! p = Some l → NoDup l;
}.

(** The key a pending promise works on has been claimed. *)
Definition active_claimed (s : state) : Prop :=
  ∀ p ph k, promises s !! p = Some ph → phase_key ph = Some k →
            k ∈ downloadedPackages s.

(** The promises a batch waits for were created after the one that waits. *)
Definition pool_order (s : state) : Prop :=
  ∀ p k ps i, promises s !! p = Some (AwaitBatch k ps i) →
              ∀ q, q ∈ ps → p < q < length (promises s).

Definition no_rejected (s : state) : Prop :=
  ∀ p ph, promises s !! p = Some ph → ∀ message, ph ≠ Rejected message.

(** What holds in every state of a run. *)
Record wf (s : state) : Prop := Wf {
  wf_forest : forest (graph_of s);
  wf_active : active_claimed s;
  wf_no_rejected : no_rejected s;
  wf_order : pool_order s;
}.

(** What promise [p] awaits fails: the metadata request is rejected or its
    answer has no [dist], the archive request is rejected, or the stream
    emits [error]. *)
Definition fails (env : environment) (s : state) (p : nat) : bool :=
  match promises s !! p with
  | Some (AwaitMetadata n v) =>
      match registry env n v with
      | MetadataFail _ => true
      | MetadataOk m => match dist m with None => true | Some _ => false end
      end
  | Some (AwaitTarball n v _) =>
      match archive env n v with TarballReject _ => true | _ => false end
  | Some (AwaitStream n v _) =>
      match archive env n v with StreamError _ => true | _ => false end
  | _ => false
  end.

(** The scenario of a failing dependency: [bar@2.0.0] depends on [foo] and
    [baz]; the registry rejects the request for [foo@1.0.0]. *)
Definition foo_fails_env : environment :=
  Environment
    (fun n v =>
       if String.eqb (packageKey_of n v) "foo@1.0.0"
       then MetadataFail "Request failed with status code 404"
       else if String.eqb n "bar"
       then MetadataOk (Metadata (Some [("foo", "1.0.0"); ("baz", "^1.0.0")])
                          (Some "MIT") (Some "https://r/bar-2.0.0.tgz"))
       else MetadataOk (Metadata None (Some "MIT") (Some "https://r/baz-1.0.0.tgz")))
    (fun _ _ => StreamEnd).

Definition foo_fails_state : state :=
  default (initial ∅)
    (run foo_fails_env [0; 0; 0; 1; 2; 2; 2; 0] (launch [("bar", "2.0.0")] (initial ∅))).

(** The promises that wait for the metadata of key [k]. *)
Definition awaiting_metadata (k : string) (ph : phase) : bool :=
  match ph with
  | AwaitMetadata n v => bool_decide (packageKey_of n v = k)
  | _ => false
  end.

Definition pending_metadata (k : string) (s : state) : nat :=
  count_if (awaiting_metadata k) (promises s).

(** The requests of a run, counted per key. *)
Record counted (s : state) : Prop := Counted {
  counted_claimed : ∀ k, k ∈ downloadedPackages s → metadata_fetches k s = 1;
  counted_fresh : ∀ k, k ∉ downloadedPackages s →
                       metadata_fetches k s = 0 ∧ archive_fetches k s = 0
                       ∧ pending_metadata k s = 0;
  counted_archive : ∀ k, archive_fetches k s + pending_metadata k s ≤ 1;
}.

Definition indicator (b : bool) : nat := if b then 1 else 0.

(** What [audit_license] prints. *)
Definition audit_events (packageKey : string) (license : option string) : list event :=
  if isCommercialFriendly license then []
  else [EvLicenseWarning (license_warning packageKey license)].

(** The scenario of section 8 of the specification: [lodash@4.17.21], MIT,
    without dependencies; here it is asked for twice. *)
Definition lodash_env : environment :=
  Environment
    (fun _ _ => MetadataOk (Metadata (Some []) (Some "MIT")
                              (Some "http://registry/lodash-4.17.21.tgz")))
    (fun _ _ => StreamEnd).

Definition lodash_state : state :=
  default (initial ∅)
    (run lodash_env [0; 0; 0]
       (launch [("lodash", "4.17.21"); ("lodash", "4.17.21")] (initial ∅))).

(** A registry with a cycle: [a@1.0.0] depends on [b], and [b@1.0.0] on [a]. *)
Definition cycle_env : environment :=
  Environment
    (fun n v =>
       if String.eqb n "a"
       then MetadataOk (Metadata (Some [("b", "^1.0.0")]) (Some "MIT")
                          (Some "https://r/a-1.0.0.tgz"))
       else if String.eqb n "b"
       then MetadataOk (Metadata (Some [("a", "~1.0.0")]) (Some "ISC")
                          (Some "https://r/b-1.0.0.tgz"))
       else MetadataFail "Request failed with status code 404")
    (fun _ _ => StreamEnd).

Definition cycle_state : state :=
  default (initial ∅)
    (run cycle_env [0; 0; 0; 1; 1; 1; 1; 0] (launch [("a", "1.0.0")] (initial ∅))).

(** ** Finite registries and the length of runs *)

(** The dependencies that the metadata [m] leads to, coerced. *)
Definition coerced_dependencies (m : metadata) : list (string * string) :=
  (getAllDependencies (default [] (dependencies m))).1.




(** The dependencies a promise holds after the metadata has arrived. *)
Definition phase_deps (ph : phase) : option (list (string * string)) :=
  match ph with
  | AwaitTarball _ _ deps | AwaitStream _ _ deps | AwaitSkip _ _ deps => Some deps
  | _ => None
  end.

(** What the registry has answered is what the state holds: the
    dependencies of a promise are those of its metadata, an archive is
    requested and children are recorded only for a package whose metadata
    request succeeded. *)
Record consistent (env : environment) (s : state) : Prop := Consistent {
  consistent_deps : ∀ p ph n v deps,
    promises s !! p = Some ph → phase_package ph = Some (n, v) →
    phase_deps ph = Some deps →
    ∃ m, registry env n v = MetadataOk m ∧ deps = default [] (dependencies m);
  consistent_archive : ∀ n v url,
    EvTarballRequest n v url ∈ trace s → ∃ m, registry env n v = MetadataOk m;
  consistent_parent : ∀ k,
    is_Some (dependencyTree s !! k) →
    ∃ n v m, packageKey_of n v = k ∧ registry env n v = MetadataOk m;
}.

(** How far the first root has come, when its metadata is [m] with the
    archive at [url]: before its dependencies are called, its promise still
    holds them; afterwards every one of them is claimed, and its archive has
    been requested, or skipped because the file was there. *)
Definition root_stage (n v : string) (m : metadata) (url : string) (s : state) : Prop :=
  match promises s !! 0 with
  | Some (AwaitMetadata n' v') => n' = n ∧ v' = v
  | Some (AwaitTarball n' v' deps) =>
      n' = n ∧ v' = v ∧ deps = default [] (dependencies m)
      ∧ EvTarballRequest n v url ∈ trace s
  | Some (AwaitStream n' v' deps) =>
      n' = n ∧ v' = v ∧ deps = default [] (dependencies m)
      ∧ EvTarballRequest n v url ∈ trace s
  | Some (AwaitSkip n' v' deps) =>
      n' = n ∧ v' = v ∧ deps = default [] (dependencies m)
      ∧ EvSkipTarball (fileName_of n v) ∈ trace s
  | Some (AwaitBatch _ _ _) | Some Resolved =>
      (∀ e, e ∈ coerced_dependencies m → entry_key e ∈ downloadedPackages s)
      ∧ (EvTarballRequest n v url ∈ trace s
         ∨ EvSkipTarball (fileName_of n v) ∈ trace s)
  | _ => False
  end.

(** ** Vocabulary of the further properties *)

(** The download directory during a run that started with the files
    [files0]: nothing is removed from it; a file in it was there at the start
    or belongs to an archive request of the run; an archive is requested only
    when its file is not there, and skipped only when it is; a promise that
    waits for an archive has requested it, and one that waits for the end of
    the stream has its file. *)
Record directory (files0 : gset string) (s : state) : Prop := Directory {
  directory_kept : files0 ⊆ files s;
  directory_origin : ∀ f, f ∈ files s →
    f ∈ files0 ∨ ∃ n v url, EvTarballRequest n v url ∈ trace s ∧ fileName_of n v = f;
  directory_requested : ∀ n v url,
    EvTarballRequest n v url ∈ trace s → fileName_of n v ∉ files0;
  directory_skipped : ∀ f, EvSkipTarball f ∈ trace s → f ∈ files s;
  directory_tarball : ∀ p n v deps,
    promises s !! p = Some (AwaitTarball n v deps) →
    ∃ url, EvTarballRequest n v url ∈ trace s;
  directory_stream : ∀ p n v deps,
    promises s !! p = Some (AwaitStream n v deps) → fileName_of n v ∈ files s;
}.

(** A registry whose archive streams break off: the response arrives, the
    stream then emits [error]. *)
Definition broken_stream_env : environment :=
  Environment
    (fun _ _ => MetadataOk (Metadata (Some []) (Some "MIT")
                              (Some "http://registry/lodash-4.17.21.tgz")))
    (fun _ _ => StreamError "aborted").

(** The key of a metadata request, and the text of a printed license
    warning. *)
Definition requested_key (e : event) : option string :=
  match e with
  | EvMetadataRequest n v => Some (packageKey_of n v)
  | _ => None
  end.

Definition printed_warning (e : event) : option string :=
  match e with
  | EvLicenseWarning warning => Some warning
  | _ => None
  end.

(** The two lists of the report are logs of the trace. *)
Definition logs (s : state) : Prop :=
  packageList s = omap requested_key (trace s)
  ∧ licenseWarnings s = omap printed_warning (trace s).

(** The license audit of a run: a warning is about a package whose metadata
    was requested and whose license, as the registry gives it, is not on the
    list; a requested package is still waited for, or has its warning if its
    license calls for one. *)
Record audited (env : environment) (s : state) : Prop := Audited {
  audited_sound : ∀ w, w ∈ licenseWarnings s →
    ∃ n v m, EvMetadataRequest n v ∈ trace s ∧ registry env n v = MetadataOk m
             ∧ isCommercialFriendly (license m) = false
             ∧ w = license_warning (packageKey_of n v) (license m);
  audited_complete : ∀ n v, EvMetadataRequest n v ∈ trace s →
    (∃ p, promises s !! p = Some (AwaitMetadata n v))
    ∨ ∀ m, registry env n v = MetadataOk m → isCommercialFriendly (license m) = false →
           license_warning (packageKey_of n v) (license m) ∈ licenseWarnings s;
  audited_pending : ∀ p n v, promises s !! p = Some (AwaitMetadata n v) →
    EvMetadataRequest n v ∈ trace s;
}.

(** A registry whose packages all carry a license that is not on the list,
    and the state at the end of the run for [x@1.0.0]. *)
Definition gpl_env : environment :=
  Environment
    (fun _ _ => MetadataOk (Metadata None (Some "GPL-3.0") (Some "http://registry/x.tgz")))
    (fun _ _ => StreamEnd).

Definition gpl_state : state :=
  default (initial ∅) (run gpl_env [0; 0; 0] (launch [("x", "1.0.0")] (initial ∅))).

(** One object extends another when every list of children it holds is
    extended at its end. *)
Definition tree_extends (t t' : gmap string (list string)) : Prop :=
  ∀ k l, t !! k = Some l → ∃ l', t' !! k = Some l' ∧ l `prefix_of` l'.

(** What a run does to a state: it appends to the lists, adds to the sets,
    and leaves resolved promises resolved. *)
Record grows (s s' : state) : Prop := Grows {
  grows_packageList : packageList s `prefix_of` packageList s';
  grows_licenseWarnings : licenseWarnings s `prefix_of` licenseWarnings s';
  grows_trace : trace s `prefix_of` trace s';
  grows_downloaded : downloadedPackages s ⊆ downloadedPackages s';
  grows_files : files s ⊆ files s';
  grows_tree : tree_extends (dependencyTree s) (dependencyTree s');
  grows_pool : length (promises s) ≤ length (promises s');
  grows_resolved : ∀ q, promises s !! q = Some Resolved → promises s' !! q = Some Resolved;
}.

(** Every claimed key hangs, by recorded edges, under the key of a root. *)
Definition rooted (roots : list (string * string)) (g : graph) : Prop :=
  ∀ k, k ∈ g.1.1 → ∃ e, e ∈ roots ∧ rtc (edge g.2) (entry_key e) k.

(** A promise that waits for a batch is at the start of a slice of
    [CONCURRENCY] promises of its list, and the promises of the slices
    before have resolved. *)
Definition batches (s : state) : Prop :=
  ∀ p k ps i, promises s !! p = Some (AwaitBatch k ps i) →
    i < length ps ∧ (∃ j, i = j * CONCURRENCY)
    ∧ ∀ q, q ∈ take i ps → promises s !! q = Some Resolved.

Definition pending (ph : phase) : bool := negb (settled ph).

(** The package with six dependencies, after its archive has arrived and
    after the resumption that follows. *)
Definition six_dependencies : list (string * string) :=
  [("d1", "^1.0.0"); ("d2", "^1.0.0"); ("d3", "^1.0.0");
   ("d4", "^1.0.0"); ("d5", "^1.0.0"); ("d6", "^1.0.0")].

Definition six_dependencies_downloaded : state :=
  default (initial ∅)
    (run six_dependencies_env [0; 0] (launch [("app", "1.0.0")] (initial ∅))).

Definition six_dependencies_called : state :=
  default (initial ∅)
    (run six_dependencies_env [0; 0; 0] (launch [("app", "1.0.0")] (initial ∅))).

(** An object in which [a] is its own child. *)
Definition looping_tree : gmap string (list string) := {["a@1.0.0" := ["a@1.0.0"]]}.

(** * Properties *)

Example parse_plain : parsePackageString "lodash@4.17.21" = Some ("lodash", "4.17.21").
Proof. reflexivity. Qed.
Example parse_scoped :
  parsePackageString "@element-plus/icons-vue@2.3.0" = Some ("@element-plus/icons-vue", "2.3.0").
Proof. reflexivity. Qed.
Example parse_scoped_bare :
  parsePackageString "@element-plus/icons-vue" = Some ("@element-plus/icons-vue", "latest").
Proof. reflexivity. Qed.
Example parse_empty : parsePackageString "@1.0.0" = None.
Proof. reflexivity. Qed.
Example normalize_caret : Semver.normalize "^1.2.3-beta.1+build" = Some "1.2.3".
Proof. reflexivity. Qed.
Example normalize_partial : Semver.normalize "~2" = Some "2.0.0".
Proof. reflexivity. Qed.
Example normalize_long : Semver.normalize "11111111111111111.2.3" = Some "2.3.0".
Proof. reflexivity. Qed.
Example normalize_star : Semver.normalize "*" = None.
Proof. reflexivity. Qed.


(** ** Strings and counting *)

Lemma string_app_cons (c : ascii) (a b : string) :
  String c a +:+ b = String c (a +:+ b).
Proof. reflexivity. Qed.

Lemma string_app_nil_r (s : string) : s +:+ "" = s.
Proof. induction s as [|c s IH]; [reflexivity|]. by rewrite string_app_cons, IH. Qed.

Lemma string_app_assoc (a b c : string) : (a +:+ b) +:+ c = a +:+ b +:+ c.
Proof. induction a as [|x a IH]; [reflexivity|]. by rewrite !string_app_cons, IH. Qed.

Lemma count_if_app {A : Type} (f : A -> bool) (l1 l2 : list A) :
  count_if f (l1 ++ l2) = count_if f l1 + count_if f l2.
Proof. unfold count_if. by rewrite List.filter_app, length_app. Qed.

Lemma count_if_zero {A : Type} (f : A -> bool) (l : list A) :
  (∀ x, x ∈ l → f x = false) → count_if f l = 0.
Proof.
  induction l as [|x l IH]; intros H; [reflexivity|].
  unfold count_if in *. cbn. rewrite (H x) by left.
  apply IH. intros y Hy. apply H. by right.
Qed.

(** ** The license audit *)

Lemma isCommercialFriendly_true (lic : option string) :
  isCommercialFriendly lic = true ↔
  ∃ l, lic = Some l ∧ l ∈ COMMERCIAL_FRIENDLY_LICENSES.
Proof.
  unfold isCommercialFriendly. destruct lic as [l|].
  - destruct (String.eqb_spec l "") as [->|Hne].
    + split; [discriminate|]. intros (l & [= <-] & Hin).
      unfold COMMERCIAL_FRIENDLY_LICENSES in Hin.
      repeat (apply elem_of_cons in Hin as [Hin|Hin]; [discriminate|]).
      by apply elem_of_nil in Hin.
    + rewrite bool_decide_eq_true. split; [eauto|].
      by intros (l' & [= <-] & Hin).
  - split; [discriminate|]. by intros (l & ? & _).
Qed.

Lemma downloadTarball_licenseWarnings n v url deps s :
  licenseWarnings (downloadTarball n v url deps s).1 = licenseWarnings s.
Proof. unfold downloadTarball. by case_decide. Qed.

Lemma after_metadata_licenseWarnings n v m s :
  licenseWarnings (after_metadata n v m s).1 =
  if isCommercialFriendly (license m) then licenseWarnings s
  else licenseWarnings s ++ [license_warning (packageKey_of n v) (license m)].
Proof.
  unfold after_metadata, audit_license.
  destruct (dist m) as [url|]; [rewrite downloadTarball_licenseWarnings|];
    by destruct (isCommercialFriendly (license m)).
Qed.

(** C8. When the metadata arrives, a license on the allow-list (MIT,
    Apache-2.0, BSD-2-Clause, BSD-3-Clause, ISC) appends no warning; an
    absent license appends exactly one warning for the package key, whose
    text ends in "Unknown"; a license that is not on the allow-list appends
    exactly one warning for the package key, whose text ends in the declared
    license (in "Unknown" when the declared license is the empty string). *)
Theorem license_audit (packageName version : string) (m : metadata) (s : state) :
  (∀ l, license m = Some l → l ∈ COMMERCIAL_FRIENDLY_LICENSES →
        licenseWarnings (after_metadata packageName version m s).1 = licenseWarnings s)
  ∧ (license m = None →
     licenseWarnings (after_metadata packageName version m s).1 =
     licenseWarnings s
       ++ ["WARNING: " +:+ packageKey_of packageName version
           +:+ " uses a non-commercial-friendly license: Unknown"])
  ∧ (∀ l, license m = Some l → l ∉ COMMERCIAL_FRIENDLY_LICENSES →
        licenseWarnings (after_metadata packageName version m s).1 =
        licenseWarnings s
          ++ ["WARNING: " +:+ packageKey_of packageName version
              +:+ " uses a non-commercial-friendly license: "
              +:+ (if String.eqb l "" then "Unknown" else l)]).
Proof.
  rewrite after_metadata_licenseWarnings. split; [|split].
  - intros l Hl Hin.
    assert (isCommercialFriendly (license m) = true) as ->; [|done].
    apply isCommercialFriendly_true. eauto.
  - intros ->. reflexivity.
  - intros l Hl Hnin.
    destruct (isCommercialFriendly (license m)) eqn:Hf.
    + apply isCommercialFriendly_true in Hf as (l' & Hl' & Hin). congruence.
    + rewrite Hl. reflexivity.
Qed.

Lemma license_audit_witness :
  licenseWarnings
    (after_metadata "lodash" "4.17.21"
       (Metadata None (Some "MIT") (Some "u")) (initial ∅)).1 = []
  ∧ licenseWarnings
      (after_metadata "lodash" "4.17.21"
         (Metadata None None (Some "u")) (initial ∅)).1
    = ["WARNING: lodash@4.17.21 uses a non-commercial-friendly license: Unknown"]
  ∧ licenseWarnings
      (after_metadata "lodash" "4.17.21"
         (Metadata None (Some "GPL-3.0") (Some "u")) (initial ∅)).1
    = ["WARNING: lodash@4.17.21 uses a non-commercial-friendly license: GPL-3.0"].
Proof.
  pose proof (license_audit "lodash" "4.17.21"
                (Metadata None (Some "MIT") (Some "u")) (initial ∅)) as (Hmit & _ & _).
  pose proof (license_audit "lodash" "4.17.21"
                (Metadata None None (Some "u")) (initial ∅)) as (_ & Hnone & _).
  pose proof (license_audit "lodash" "4.17.21"
                (Metadata None (Some "GPL-3.0") (Some "u")) (initial ∅)) as (_ & _ & Hgpl).
  split; [|split].
  - apply (Hmit "MIT"); [reflexivity|left].
  - apply Hnone. reflexivity.
  - apply (Hgpl "GPL-3.0"); [reflexivity|].
    intros Hin. unfold COMMERCIAL_FRIENDLY_LICENSES in Hin.
    repeat (apply elem_of_cons in Hin as [Hin|Hin]; [discriminate|]).
    by apply elem_of_nil in Hin.
Defined.

(** ** Rendering of the tree *)

Lemma render_cons (x : nat * string) (l : list (nat * string)) :
  render (x :: l) = render_line x +:+ render l.
Proof. reflexivity. Qed.

Lemma render_app (l1 l2 : list (nat * string)) :
  render (l1 ++ l2) = render l1 +:+ render l2.
Proof.
  induction l1 as [|x l1 IH]; [reflexivity|].
  by rewrite <- app_comm_cons, !render_cons, IH, string_app_assoc.
Qed.

Lemma fold_left_none {A B : Type} (f : option A -> B -> option A) (l : list B) :
  (∀ b, f None b = None) → fold_left f l None = None.
Proof. intros H. induction l as [|b l IH]; [reflexivity|]. cbn. by rewrite H. Qed.

(** [buildDependencyTree] prints the pre-order walk. *)
Lemma buildDependencyTree_preorder fuel tree k d :
  buildDependencyTree fuel tree k d = render <$> preorder fuel tree k d.
Proof.
  revert k d. induction fuel as [|fuel IH]; intros k d; [reflexivity|].
  cbn [buildDependencyTree preorder].
  destruct (tree !! k) as [children|]; cbn.
  2:{ unfold render_line. cbn. by rewrite !string_app_assoc, string_app_nil_r. }
  set (line := Str.repeat "  " d +:+ "- " +:+ k +:+ newline).
  assert (∀ acc,
    fold_left
      (fun acc child =>
         match acc, buildDependencyTree fuel tree child (S d) with
         | Some t, Some sub => Some (t +:+ sub)
         | _, _ => None
         end) children (Some acc)
    = (fun subs => acc +:+ render (concat subs))
        <$> mapM (fun child => preorder fuel tree child (S d)) children) as Hfold.
  { induction children as [|c cs IHc]; intros acc.
    - cbn. by rewrite string_app_nil_r.
    - cbn [fold_left mapM]. rewrite IH.
      destruct (preorder fuel tree c (S d)) as [lines|]; cbn.
      + rewrite IHc.
        destruct (mapM (fun child => preorder fuel tree child (S d)) cs); cbn; [|done].
        by rewrite render_app, string_app_assoc.
      + apply fold_left_none. by intros b. }
  rewrite Hfold.
  destruct (mapM (fun child => preorder fuel tree child (S d)) children); cbn; [|done].
  unfold render_line, line. cbn. by rewrite !string_app_assoc.
Qed.

(** C9. [buildDependencyTree] prints the depth-first pre-order walk over the
    recorded edges, every key indented by its depth; when the recorded edges
    are A->B, A->C and B->D, the rendering from A is the line of A, then B
    at indent 1, then D at indent 2, then C at indent 1. *)
Theorem tree_rendering (tree : gmap string (list string)) :
  (∀ fuel k d,
     buildDependencyTree fuel tree k d = render <$> preorder fuel tree k d)
  ∧ (∀ A B C D : string,
       tree !! A = Some [B; C] → tree !! B = Some [D] →
       tree !! C = None → tree !! D = None →
       ∀ fuel, 3 ≤ fuel →
         preorder fuel tree A 0 = Some [(0, A); (1, B); (2, D); (1, C)]
         ∧ buildDependencyTree fuel tree A 0 =
           Some ("- " +:+ A +:+ newline
                 +:+ "  - " +:+ B +:+ newline
                 +:+ "    - " +:+ D +:+ newline
                 +:+ "  - " +:+ C +:+ newline)).
Proof.
  split; [intros; apply buildDependencyTree_preorder|].
  intros A B C D HA HB HC HD fuel Hfuel.
  assert (preorder fuel tree A 0 = Some [(0, A); (1, B); (2, D); (1, C)]) as Hpre.
  { destruct fuel as [|[|[|fuel]]]; [lia..|].
    cbn. rewrite HA. cbn. rewrite HB, HC. cbn. rewrite HD. reflexivity. }
  split; [exact Hpre|].
  rewrite buildDependencyTree_preorder, Hpre. cbn.
  unfold render_line. cbn.
  by rewrite !string_app_assoc, string_app_nil_r.
Qed.

Lemma tree_rendering_witness :
  buildDependencyTree 3
    (<["A@1.0.0" := ["B@1.0.0"; "C@1.0.0"]]> (<["B@1.0.0" := ["D@1.0.0"]]> ∅))
    "A@1.0.0" 0
  = Some ("- A@1.0.0" +:+ newline +:+ "  - B@1.0.0" +:+ newline
          +:+ "    - D@1.0.0" +:+ newline +:+ "  - C@1.0.0" +:+ newline).
Proof.
  apply (proj2 (tree_rendering
     (<["A@1.0.0" := ["B@1.0.0"; "C@1.0.0"]]> (<["B@1.0.0" := ["D@1.0.0"]]> ∅)))
     "A@1.0.0" "B@1.0.0" "C@1.0.0" "D@1.0.0");
    [reflexivity | reflexivity | reflexivity | reflexivity | lia].
Defined.

(** ** Calls *)

Lemma chars_of_chars (l : list ascii) : Str.chars (Str.of_chars l) = l.
Proof. apply String.list_ascii_of_string_of_list_ascii. Qed.

Lemma of_chars_chars (s : string) : Str.of_chars (Str.chars s) = s.
Proof. apply String.string_of_list_ascii_of_string. Qed.


Lemma cut_absent (c : ascii) (l : list ascii) : c ∉ l → Str.cut c l = (l, None).
Proof.
  induction l as [|x l IH]; intros Hc; [reflexivity|].
  apply not_elem_of_cons in Hc as [Hx Hl]. cbn.
  destruct (Ascii.eqb_spec x c) as [->|_]; [done|].
  by rewrite (IH Hl).
Qed.

Lemma parsePackageString_bare (name : string) :
  name ≠ "" → "@"%char ∉ Str.chars name →
  parsePackageString name = Some (name, "latest").
Proof.
  intros Hne Hat. unfold parsePackageString, scoped_match, split_at_first_two.
  destruct (Str.chars name) as [|c r] eqn:Hc.
  { exfalso. apply Hne. by rewrite <- (of_chars_chars name), Hc. }
  assert (c ≠ "@"%char) as Hc'. { intros ->. apply Hat. left. }
  assert (match c with
          | "@"%char => None
          | _ => @None (string * option string)
          end = None) as Hnone.
  { by destruct c as [[] [] [] [] [] [] [] []]. }
  assert (match c :: r with
          | "@"%char :: r0 =>
              match Str.cut "/" r0 with
              | (scope, Some r1) =>
                  match scope, Str.cut "@" r1 with
                  | [], _ => None
                  | _, ([], _) => None
                  | _, (pkg, None) =>
                      Some (Str.of_chars ("@"%char :: scope ++ "/"%char :: pkg), None)
                  | _, (pkg, Some ver) =>
                      match ver with
                      | [] => None
                      | _ =>
                          if forallb (fun c => negb (Str.is_line_terminator c)) ver
                          then Some (Str.of_chars ("@"%char :: scope ++ "/"%char :: pkg),
                                     Some (Str.of_chars ver))
                          else None
                      end
                  end
              | (_, None) => None
              end
          | _ => @None (string * option string)
          end = None) as ->.
  { destruct c as [[] [] [] [] [] [] [] []]; try reflexivity. by destruct Hc'. }
  rewrite (cut_absent _ _ Hat), <- Hc, of_chars_chars.
  by destruct (String.eqb_spec name "").
Qed.

Lemma call_claimed n v parent s :
  packageKey_of n v ∈ downloadedPackages s →
  downloadPackageAndDependencies n v parent s = new_promise Resolved s.
Proof. intros H. unfold downloadPackageAndDependencies. by rewrite decide_True. Qed.

Lemma call_fresh n v parent s :
  packageKey_of n v ∉ downloadedPackages s →
  downloadPackageAndDependencies n v parent s =
  new_promise (AwaitMetadata n v)
    (State ({[packageKey_of n v]} ∪ downloadedPackages s)
           (packageList s ++ [packageKey_of n v])
           (record_edge parent (packageKey_of n v) (dependencyTree s))
           (licenseWarnings s) (files s)
           (trace s ++ [EvMetadataRequest n v]) (promises s)).
Proof. intros H. unfold downloadPackageAndDependencies. by rewrite decide_False. Qed.

Lemma call_downloaded n v parent s :
  downloadedPackages (downloadPackageAndDependencies n v parent s).1 =
  {[packageKey_of n v]} ∪ downloadedPackages s.
Proof.
  destruct (decide (packageKey_of n v ∈ downloadedPackages s)) as [Hin|Hin].
  - rewrite call_claimed by done. cbn. set_solver.
  - by rewrite call_fresh.
Qed.

Lemma call_all_fst_snd entries parent s :
  call_all entries parent s = ((call_all entries parent s).1, (call_all entries parent s).2).
Proof. by destruct (call_all entries parent s). Qed.

Lemma call_all_cons n v rest parent s :
  call_all ((n, v) :: rest) parent s =
  ((call_all rest parent (downloadPackageAndDependencies n v (Some parent) s).1).1,
   (downloadPackageAndDependencies n v (Some parent) s).2
   :: (call_all rest parent (downloadPackageAndDependencies n v (Some parent) s).1).2).
Proof.
  cbn [call_all].
  destruct (downloadPackageAndDependencies n v (Some parent) s) as [s1 p].
  cbn [fst snd]. by destruct (call_all rest parent s1).
Qed.

Lemma call_all_downloaded entries parent s :
  downloadedPackages (call_all entries parent s).1 =
  list_to_set ((fun e => packageKey_of e.1 e.2) <$> entries) ∪ downloadedPackages s.
Proof.
  revert s. induction entries as [|[n v] rest IH]; intros s.
  - cbn. set_solver.
  - rewrite call_all_cons. cbn [fst]. rewrite IH, call_downloaded. cbn. set_solver.
Qed.

(** ** The package key *)

(** The claim C4 fails on a root given without a version: its key is
    [lodash@latest]. *)
Lemma root_key_with_latest_tag :
  ∃ s, main ∅ ["lodash"] = Some s
       ∧ packageList s = ["lodash@latest"]
       ∧ "lodash@latest" ∈ downloadedPackages s
       ∧ trace s = [EvMetadataRequest "lodash" "latest"].
Proof.
  eexists. split; [reflexivity|]. split; [reflexivity|]. split; [|reflexivity].
  cbn. set_solver.
Qed.

(** C4, amended. The key that is tested against [downloadedPackages] and
    added to it is the name, an [@] and the version exactly as the call
    receives it; nothing is resolved before the test.  For a dependency the
    version received is the one [getAllDependencies] has coerced; for a root
    it is the version text of the specifier, and a root given as a bare name
    is keyed [name@latest] and requested under the tag [latest]. *)
Theorem package_key_is_name_at_version :
  (∀ name version parent s,
     downloadedPackages (downloadPackageAndDependencies name version parent s).1
     = {[name +:+ "@" +:+ version]} ∪ downloadedPackages s
     ∧ (name +:+ "@" +:+ version ∉ downloadedPackages s →
        packageList (downloadPackageAndDependencies name version parent s).1
        = packageList s ++ [name +:+ "@" +:+ version])
     ∧ (name +:+ "@" +:+ version ∈ downloadedPackages s →
        packageList (downloadPackageAndDependencies name version parent s).1
        = packageList s))
  ∧ (∀ name version deps s,
       downloadedPackages (after_download name version deps s).1
       = list_to_set ((fun e => e.1 +:+ "@" +:+ e.2) <$> (getAllDependencies deps).1)
         ∪ downloadedPackages s)
  ∧ (∀ name files0,
       name ≠ "" → "@"%char ∉ Str.chars name →
       ∃ s, main files0 [name] = Some s
            ∧ packageList s = [name +:+ "@latest"]
            ∧ trace s = [EvMetadataRequest name "latest"]).
Proof.
  split; [|split].
  - intros name version parent s. split; [apply call_downloaded|]. split; intros Hk.
    + by rewrite call_fresh.
    + by rewrite call_claimed.
  - intros name version deps s. unfold after_download.
    destruct (getAllDependencies deps) as [allDependencies warnings]. cbn [fst].
    rewrite (call_all_fst_snd allDependencies).
    destruct (0 <? length _)%nat; cbn [fst]; by rewrite call_all_downloaded.
  - intros name files0 Hne Hat. unfold main, parse_all. cbn.
    rewrite (parsePackageString_bare name Hne Hat). cbn.
    eexists. split; [reflexivity|].
    rewrite call_fresh by (cbn; set_solver). done.
Qed.

Lemma package_key_is_name_at_version_witness :
  (packageList
     (downloadPackageAndDependencies "lodash" "^4.17.0" None (initial ∅)).1
   = ["lodash@^4.17.0"])
  ∧ (∃ s, main ∅ ["express"] = Some s
          ∧ packageList s = ["express@latest"]
          ∧ trace s = [EvMetadataRequest "express" "latest"]).
Proof.
  pose proof package_key_is_name_at_version as (Hcall & _ & Hroot).
  split.
  - apply (Hcall "lodash" "^4.17.0" None (initial ∅)). cbn. apply not_elem_of_empty.
  - apply (Hroot "express" ∅); [discriminate|].
    cbn. intros Hin.
    repeat (apply elem_of_cons in Hin as [Hin|Hin]; [discriminate|]).
    by apply elem_of_nil in Hin.
Defined.

(** ** Version normalization *)

Ltac not_in_list :=
  let Hin := fresh "Hin" in
  intros Hin;
  repeat (apply elem_of_cons in Hin as [Hin|Hin]; [discriminate|]);
  by apply elem_of_nil in Hin.









(** ** [getAllDependencies] *)





Lemma call_trace n v parent s :
  trace s `prefix_of` trace (downloadPackageAndDependencies n v parent s).1.
Proof.
  unfold downloadPackageAndDependencies. case_decide; cbn; [done|].
  by apply prefix_app_r.
Qed.

Lemma call_all_trace entries parent s :
  trace s `prefix_of` trace (call_all entries parent s).1.
Proof.
  revert s. induction entries as [|[n v] rest IH]; intros s; [done|].
  rewrite call_all_cons. cbn [fst]. etrans; [apply call_trace|apply IH].
Qed.

Lemma after_download_state n v deps s :
  (after_download n v deps s).1
  = (call_all (getAllDependencies deps).1 (packageKey_of n v)
       (emit_all (getAllDependencies deps).2 s)).1.
Proof.
  unfold after_download. destruct (getAllDependencies deps) as [a w]. cbn [fst snd].
  destruct (call_all a (packageKey_of n v) (emit_all w s)) as [s1 ps].
  by destruct (0 <? length ps)%nat.
Qed.




(** ** Concurrency *)

(** C2 (evaluation of the code at a package with six dependencies). When
    the archive of [app@1.0.0] has been written, one resumption of its
    promise calls [downloadPackageAndDependencies] for all six dependencies:
    the six metadata requests are sent and the six promises are pending
    together, before the first batch is awaited, which is more than
    [CONCURRENCY]. *)
Theorem six_dependencies_in_flight :
  ∃ s ps,
    run six_dependencies_env [0; 0; 0]
      (launch [("app", "1.0.0")] (initial ∅)) = Some s
    ∧ promises s !! 0 = Some (AwaitBatch "app@1.0.0" ps 0)
    ∧ ps = [1; 2; 3; 4; 5; 6]
    ∧ in_flight s ps = 6
    ∧ CONCURRENCY < in_flight s ps
    ∧ (∀ p, p ∈ ps → ∃ n v, promises s !! p = Some (AwaitMetadata n v))
    ∧ trace s = [EvMetadataRequest "app" "1.0.0";
                 EvTarballRequest "app" "1.0.0"
                   "https://registry.npmmirror.com/app/-/app-1.0.0.tgz";
                 EvMetadataRequest "d1" "1.0.0"; EvMetadataRequest "d2" "1.0.0";
                 EvMetadataRequest "d3" "1.0.0"; EvMetadataRequest "d4" "1.0.0";
                 EvMetadataRequest "d5" "1.0.0"; EvMetadataRequest "d6" "1.0.0"].
Proof.
  eexists _, _. split; [vm_compute; reflexivity|].
  split; [reflexivity|]. split; [reflexivity|].
  split; [reflexivity|]. split; [apply Nat.ltb_lt; reflexivity|]. split; [|reflexivity].
  intros p Hp.
  repeat (apply elem_of_cons in Hp as [->|Hp]; [by eexists _, _|]).
  by apply elem_of_nil in Hp.
Qed.

(** ** [step] and the step relation *)

Lemma after_download_completion n v deps s :
  finish_phase (after_download n v deps s).2
  = Some (next_batch (packageKey_of n v)
            (call_all (getAllDependencies deps).1 (packageKey_of n v)
               (emit_all (getAllDependencies deps).2 s)).2 0).
Proof.
  unfold after_download, next_batch. destruct (getAllDependencies deps) as [a w].
  cbn [fst snd].
  destruct (call_all a (packageKey_of n v) (emit_all w s)) as [s1 ps]. cbn [snd].
  by destruct (0 <? length ps)%nat.
Qed.

Lemma finish_normal p k s c ph :
  finish_phase c = Some ph → finish p k (s, c) = set_promise p ph s.
Proof. destruct c; cbn; intros; by simplify_eq. Qed.

Lemma files_audit_license k l s : files (audit_license k l s) = files s.
Proof. unfold audit_license. by destruct (isCommercialFriendly l). Qed.

Lemma step_resumes env s p s' :
  step env s p = Some s' ↔
  ∃ ph s1 ph', promises s !! p = Some ph ∧ resumes env s ph s1 ph'
               ∧ s' = set_promise p ph' s1.
Proof.
  split.
  - unfold step, getPackageMetadata. intros Hs.
    destruct (promises s !! p) as [ph|] eqn:Hp; [|done]. exists ph.
    destruct ph as [n v|n v deps|n v deps|n v deps|k ps i| |]; try done.
    + destruct (registry env n v) as [m|message] eqn:Hreg.
      * unfold after_metadata in Hs. destruct (dist m) as [url|] eqn:Hdist.
        -- unfold downloadTarball in Hs. rewrite files_audit_license in Hs.
           case_decide; simplify_eq; eexists _, _; split_and!;
             eauto using resumes.
        -- simplify_eq. eexists _, _; split_and!; eauto using resumes.
      * simplify_eq. eexists _, _; split_and!; eauto using resumes.
    + destruct (archive env n v) as [message| |message] eqn:Harch; simplify_eq;
        eexists _, _; split_and!; eauto; constructor; congruence.
    + destruct (archive env n v) as [message| |message] eqn:Harch; simplify_eq.
      * eexists _, _. split_and!; [done|apply R_stream_end; congruence|].
        rewrite (surjective_pairing (after_download n v deps s)).
        apply finish_normal, after_download_completion.
      * eexists _, _. split_and!; [done|apply R_stream_end; congruence|].
        rewrite (surjective_pairing (after_download n v deps s)).
        apply finish_normal, after_download_completion.
      * eexists _, _; split_and!; eauto using resumes.
    + simplify_eq. eexists _, _. split_and!; [done|apply R_skipped|].
      rewrite (surjective_pairing (after_download n v deps s)).
      apply finish_normal, after_download_completion.
    + destruct (promise_all (promises s) (slice i CONCURRENCY ps)) eqn:Hall;
        simplify_eq.
      * eexists _, _. split_and!; [done|by apply R_batch_resolved|].
        unfold next_batch. by destruct (i + CONCURRENCY <? length ps)%nat.
      * eexists _, _; split_and!; eauto using resumes.
  - intros (ph & s1 & ph' & Hp & Hr & ->). unfold step, getPackageMetadata.
    rewrite Hp.
    destruct Hr as [n v message Hreg|n v m Hreg Hdist|n v m url Hreg Hdist Hf
                   |n v m url Hreg Hdist Hf|n v deps message Harch|n v deps Harch
                   |n v deps message Harch|n v deps Harch|n v deps
                   |k ps i message Hall|k ps i Hall].
    + by rewrite Hreg.
    + rewrite Hreg. unfold after_metadata. by rewrite Hdist.
    + rewrite Hreg. unfold after_metadata, downloadTarball.
      rewrite Hdist, files_audit_license. by rewrite decide_True.
    + rewrite Hreg. unfold after_metadata, downloadTarball.
      rewrite Hdist, files_audit_license. by rewrite decide_False.
    + by rewrite Harch.
    + destruct (archive env n v) eqn:E; [by destruct (Harch message)|done..].
    + by rewrite Harch.
    + f_equal. rewrite (surjective_pairing (after_download n v deps s)).
      destruct (archive env n v) eqn:E;
        [|apply finish_normal, after_download_completion
         |by destruct (Harch message)].
      apply finish_normal, after_download_completion.
    + f_equal. rewrite (surjective_pairing (after_download n v deps s)).
      apply finish_normal, after_download_completion.
    + by rewrite Hall.
    + rewrite Hall. unfold next_batch.
      by destruct (i + CONCURRENCY <? length ps)%nat.
Qed.

(** ** Runs *)

Lemma run_invariant env (P : state -> Prop) :
  (∀ s p s', P s → step env s p = Some s' → P s') →
  ∀ schedule s s', P s → run env schedule s = Some s' → P s'.
Proof.
  intros Hstep schedule. induction schedule as [|p rest IH]; intros s s' Hs Hrun.
  - cbn in Hrun. by simplify_eq.
  - cbn in Hrun. destruct (step env s p) as [s1|] eqn:H1; [|done].
    eapply IH; [|done]. eauto.
Qed.

Lemma launch_invariant (P : state -> Prop) roots s0 :
  P s0 →
  (∀ s n v, P s → P (downloadPackageAndDependencies n v None s).1) →
  P (launch roots s0).
Proof.
  intros H0 Hcall. unfold launch. revert s0 H0.
  induction roots as [|[n v] roots IH]; intros s0 H0; [done|].
  cbn. apply IH. by apply Hcall.
Qed.

Lemma reachable_invariant env files0 roots (P : state -> Prop) :
  P (launch roots (initial files0)) →
  (∀ s p s', P s → step env s p = Some s' → P s') →
  ∀ s, reachable env files0 roots s → P s.
Proof. intros H0 Hstep s [schedule Hrun]. by eapply run_invariant. Qed.


(** ** The graph part *)

Lemma graph_of_call n v parent s :
  graph_of (downloadPackageAndDependencies n v parent s).1
  = claim parent (graph_of s) (packageKey_of n v).
Proof.
  unfold downloadPackageAndDependencies, claim. cbn. by case_decide.
Qed.

Lemma graph_of_call_all entries parent s :
  graph_of (call_all entries parent s).1
  = claim_all (Some parent) (entry_key <$> entries) (graph_of s).
Proof.
  revert s. induction entries as [|[n v] rest IH]; intros s; [done|].
  rewrite call_all_cons. cbn [fst]. by rewrite IH, graph_of_call.
Qed.


Lemma downloaded_audit_license k l s :
  downloadedPackages (audit_license k l s) = downloadedPackages s.
Proof. unfold audit_license. by destruct (isCommercialFriendly l). Qed.

Lemma packageList_audit_license k l s :
  packageList (audit_license k l s) = packageList s.
Proof. unfold audit_license. by destruct (isCommercialFriendly l). Qed.

Lemma dependencyTree_audit_license k l s :
  dependencyTree (audit_license k l s) = dependencyTree s.
Proof. unfold audit_license. by destruct (isCommercialFriendly l). Qed.

Lemma promises_audit_license k l s :
  promises (audit_license k l s) = promises s.
Proof. unfold audit_license. by destruct (isCommercialFriendly l). Qed.

Create Rewrite HintDb fields.
#[global] Hint Rewrite downloaded_audit_license packageList_audit_license
  dependencyTree_audit_license promises_audit_license files_audit_license : fields.

Lemma graph_of_after_download n v deps s :
  graph_of (after_download n v deps s).1
  = claim_all (Some (packageKey_of n v)) (entry_key <$> (getAllDependencies deps).1)
      (graph_of s).
Proof. by rewrite after_download_state, graph_of_call_all. Qed.

Lemma resumes_graph env s ph s1 ph' :
  resumes env s ph s1 ph' →
  ∃ keys, graph_of s1 = claim_all (phase_key ph) keys (graph_of s).
Proof.
  intros Hr. destruct Hr;
    try (exists []; unfold graph_of; cbn; by autorewrite with fields);
    eexists; by rewrite graph_of_after_download.
Qed.

Lemma step_graph env s p s' :
  step env s p = Some s' →
  ∃ ph keys, promises s !! p = Some ph
             ∧ graph_of s' = claim_all (phase_key ph) keys (graph_of s).
Proof.
  intros (ph & s1 & ph' & Hp & Hr & ->)%step_resumes.
  destruct (resumes_graph _ _ _ _ _ Hr) as [keys Hg]. by exists ph, keys.
Qed.

Lemma claim_downloaded parent g k : (claim parent g k).1.1 = {[k]} ∪ g.1.1.
Proof. unfold claim. case_decide; cbn; [set_solver|done]. Qed.

Lemma claim_all_downloaded parent keys g :
  (claim_all parent keys g).1.1 = list_to_set keys ∪ g.1.1.
Proof.
  revert g. induction keys as [|k keys IH]; intros g; cbn.
  - set_solver.
  - unfold claim_all in IH. rewrite IH, claim_downloaded. set_solver.
Qed.

(** ** Ranks *)

Lemma rank_lt (l : list string) (k : string) : k ∈ l → rank l k < length l.
Proof.
  induction l as [|x l IH]; intros Hk; [by apply elem_of_nil in Hk|].
  cbn. case_decide; [lia|].
  apply elem_of_cons in Hk as [->|Hk]; [done|]. specialize (IH Hk). lia.
Qed.

Lemma rank_app_l (l l' : list string) (k : string) :
  k ∈ l → rank (l ++ l') k = rank l k.
Proof.
  induction l as [|x l IH]; intros Hk; [by apply elem_of_nil in Hk|].
  cbn. case_decide; [done|].
  apply elem_of_cons in Hk as [->|Hk]; [done|]. by rewrite IH.
Qed.

Lemma rank_app_r (l : list string) (k : string) :
  k ∉ l → rank (l ++ [k]) k = length l.
Proof.
  induction l as [|x l IH]; intros Hk; cbn.
  - by rewrite decide_True.
  - apply not_elem_of_cons in Hk as [Hne Hk].
    rewrite decide_False by done. by rewrite IH.
Qed.

(** ** Edges *)


Lemma edge_record parent k tree p c :
  parent ≠ "" →
  edge (record_edge (Some parent) k tree) p c ↔
  edge tree p c ∨ (p = parent ∧ c = k).
Proof.
  intros Hne. unfold record_edge.
  destruct (String.eqb_spec parent "") as [->|_]; [done|].
  unfold edge. split.
  - intros (l & Hl & Hc). destruct (decide (p = parent)) as [->|Hp].
    + rewrite lookup_insert_eq in Hl. simplify_eq.
      apply elem_of_app in Hc as [Hc|Hc].
      * left. destruct (tree !! parent) as [l|]; [eauto|by apply elem_of_nil in Hc].
      * right. apply list_elem_of_singleton in Hc. done.
    + rewrite lookup_insert_ne in Hl by done. eauto.
  - intros [(l & Hl & Hc)|[-> ->]].
    + destruct (decide (p = parent)) as [->|Hp].
      * rewrite lookup_insert_eq. eexists. split; [done|].
        rewrite Hl. cbn. apply elem_of_app. by left.
      * rewrite lookup_insert_ne by done. eauto.
    + rewrite lookup_insert_eq. eexists. split; [done|].
      apply elem_of_app. right. by apply list_elem_of_singleton.
Qed.

Lemma edge_record_some parent k tree p c :
  edge (record_edge parent k tree) p c →
  edge tree p c ∨ (parent = Some p ∧ c = k).
Proof.
  destruct parent as [q|]; [|by left].
  destruct (decide (q = "")) as [->|Hq]; [by left|].
  rewrite edge_record by done. naive_solver.
Qed.


(** ** The forest is preserved *)

Lemma forest_claim parent g k :
  forest g → (∀ p, parent = Some p → p ∈ g.1.1) → forest (claim parent g k).
Proof.
  intros [Hnd Hlist Hrank Hpar Hch] Hparent. unfold claim.
  destruct (decide (k ∈ g.1.1)) as [Hk|Hk]; [by constructor|].
  destruct g as [[D pl] tree]. cbn in *.
  assert (k ∉ pl) as Hkpl by (by rewrite Hlist).
  constructor; cbn.
  - apply NoDup_app. split; [done|]. split; [|apply NoDup_singleton].
    by intros x Hx ->%list_elem_of_singleton.
  - intros x.
    rewrite elem_of_app, list_elem_of_singleton, elem_of_union, elem_of_singleton, Hlist.
    tauto.
  - intros p c [He|[-> ->]]%edge_record_some.
    + destruct (Hrank p c He) as (Hp & Hc & Hlt).
      rewrite !elem_of_app, !rank_app_l by done. auto.
    + specialize (Hparent p eq_refl). apply Hlist in Hparent.
      rewrite (rank_app_l pl [k] p Hparent), (rank_app_r pl k Hkpl).
      split; [apply elem_of_app; by left|].
      split; [apply elem_of_app; right; by apply list_elem_of_singleton|].
      by apply rank_lt.
  - intros p1 p2 c [H1|[E1 Hc1]]%edge_record_some [H2|[E2 Hc2]]%edge_record_some;
      subst.
    + eauto.
    + by destruct (Hrank _ _ H1) as (_ & Hc & _).
    + by destruct (Hrank _ _ H2) as (_ & Hc & _).
    + congruence.
  - intros p l Hl. destruct parent as [q|]; [|eauto]. cbn in Hl.
    destruct (String.eqb_spec q ""); [eauto|].
    destruct (decide (p = q)) as [->|Hne].
    + rewrite lookup_insert_eq in Hl. simplify_eq. apply NoDup_app. split.
      * destruct (tree !! q) eqn:E; cbn; [eauto|apply NoDup_nil_2].
      * split; [|apply NoDup_singleton]. intros x Hx ->%list_elem_of_singleton.
        destruct (tree !! q) as [l|] eqn:E; cbn in Hx; [|by apply elem_of_nil in Hx].
        destruct (Hrank q k) as (_ & Hc & _); [by exists l|done].
    + rewrite lookup_insert_ne in Hl by done. eauto.
Qed.


(** ** The pool of promises *)

Lemma call_promises n v parent s :
  promises (downloadPackageAndDependencies n v parent s).1
  = promises s ++ [if decide (packageKey_of n v ∈ downloadedPackages s)
                   then Resolved else AwaitMetadata n v]
  ∧ (downloadPackageAndDependencies n v parent s).2 = length (promises s).
Proof. unfold downloadPackageAndDependencies. by case_decide. Qed.

Lemma call_all_invariant (P : state -> Prop) entries parent s :
  P s →
  (∀ s' n v, P s' → (n, v) ∈ entries →
             P (downloadPackageAndDependencies n v (Some parent) s').1) →
  P (call_all entries parent s).1.
Proof.
  revert s. induction entries as [|[n v] rest IH]; intros s Hs Hcall; [done|].
  rewrite call_all_cons. cbn [fst]. apply IH.
  - apply Hcall; [done|left].
  - intros s' n' v' Hs' Hin. apply Hcall; [done|by right].
Qed.

Lemma call_all_length entries parent s :
  length (promises (call_all entries parent s).1)
  = length (promises s) + length entries
  ∧ (call_all entries parent s).2 = seq (length (promises s)) (length entries).
Proof.
  revert s. induction entries as [|[n v] rest IH]; intros s.
  - cbn. split; [lia|done].
  - rewrite call_all_cons. cbn [fst snd].
    destruct (IH (downloadPackageAndDependencies n v (Some parent) s).1) as [-> ->].
    destruct (call_promises n v (Some parent) s) as [-> ->].
    rewrite length_app. cbn. split; [lia|]. do 2 f_equal. lia.
Qed.

Lemma call_all_prefix entries parent s :
  promises s `prefix_of` promises (call_all entries parent s).1.
Proof.
  apply (call_all_invariant (fun s' => promises s `prefix_of` promises s')); [done|].
  intros s' n v Hs' _. destruct (call_promises n v (Some parent) s') as [-> _].
  by apply prefix_app_r.
Qed.

Lemma call_downloaded_mono n v parent s :
  downloadedPackages s ⊆ downloadedPackages (downloadPackageAndDependencies n v parent s).1.
Proof. rewrite call_downloaded. set_solver. Qed.

Lemma wf_call n v parent s :
  wf s → (∀ p, parent = Some p → p ∈ downloadedPackages s) →
  wf (downloadPackageAndDependencies n v parent s).1.
Proof.
  intros [Hf Ha Hr Ho] Hparent.
  destruct (call_promises n v parent s) as [Hpool _].
  constructor.
  - rewrite graph_of_call. by apply forest_claim.
  - intros p ph k Hp Hk. rewrite call_downloaded. rewrite Hpool in Hp.
    apply lookup_app_Some in Hp as [Hp|[_ Hp]].
    + apply elem_of_union. right. eauto.
    + apply list_lookup_singleton_Some in Hp as [_ <-].
      case_decide; [done|]. cbn in Hk. simplify_eq. set_solver.
  - intros p ph Hp message ->. rewrite Hpool in Hp.
    apply lookup_app_Some in Hp as [Hp|[_ Hp]].
    + by eapply Hr.
    + apply list_lookup_singleton_Some in Hp as [_ Hp]. by case_decide.
  - intros p k ps i Hp q Hq. rewrite Hpool in *. rewrite length_app. cbn.
    apply lookup_app_Some in Hp as [Hp|[_ Hp]].
    + specialize (Ho _ _ _ _ Hp q Hq). lia.
    + apply list_lookup_singleton_Some in Hp as [_ Hp]. by case_decide.
Qed.

Lemma wf_call_all entries parent s :
  wf s → parent ∈ downloadedPackages s → wf (call_all entries parent s).1.
Proof.
  intros Hwf Hparent.
  apply (call_all_invariant
           (fun s' => wf s' ∧ parent ∈ downloadedPackages s')); [done|].
  intros s' n v [Hwf' Hp'] _. split.
  - apply wf_call; [done|]. intros p [= <-]. done.
  - by apply call_downloaded_mono.
Qed.

Lemma wf_same_core s s1 :
  graph_of s1 = graph_of s → promises s1 = promises s → wf s → wf s1.
Proof.
  intros Hg Hp [Hf Ha Hr Ho].
  assert (downloadedPackages s1 = downloadedPackages s) as HD.
  { unfold graph_of in Hg. by simplify_eq. }
  constructor.
  - by rewrite Hg.
  - intros p ph k. rewrite Hp, HD. apply Ha.
  - intros p ph. rewrite Hp. apply Hr.
  - intros p k ps i. rewrite Hp. apply Ho.
Qed.

Lemma wf_set_promise p ph' s1 :
  wf s1 → p < length (promises s1) →
  (∀ k, phase_key ph' = Some k → k ∈ downloadedPackages s1) →
  (∀ message, ph' ≠ Rejected message) →
  (∀ k ps i, ph' = AwaitBatch k ps i →
             ∀ q, q ∈ ps → p < q < length (promises s1)) →
  wf (set_promise p ph' s1).
Proof.
  intros [Hf Ha Hr Ho] Hp Hkey Hrej Hbatch. constructor.
  - done.
  - intros q ph k Hq Hk. cbn in *.
    destruct (decide (q = p)) as [->|Hne].
    + rewrite list_lookup_insert_eq in Hq by done. simplify_eq. auto.
    + rewrite list_lookup_insert_ne in Hq by done. eauto.
  - intros q ph Hq. cbn in Hq.
    destruct (decide (q = p)) as [->|Hne].
    + rewrite list_lookup_insert_eq in Hq by done. by simplify_eq.
    + rewrite list_lookup_insert_ne in Hq by done. eauto.
  - intros q k ps i Hq r Hr'. cbn in *. rewrite length_insert.
    destruct (decide (q = p)) as [->|Hne].
    + rewrite list_lookup_insert_eq in Hq by done. simplify_eq. eauto.
    + rewrite list_lookup_insert_ne in Hq by done. eauto.
Qed.

Lemma wf_after_download n v deps s :
  wf s → packageKey_of n v ∈ downloadedPackages s →
  wf (after_download n v deps s).1.
Proof.
  intros Hwf Hk. rewrite after_download_state.
  apply wf_call_all; [|done]. by apply (wf_same_core s).
Qed.

Lemma after_download_promises n v deps s :
  length (promises (after_download n v deps s).1)
  = length (promises s) + length (getAllDependencies deps).1
  ∧ (call_all (getAllDependencies deps).1 (packageKey_of n v)
       (emit_all (getAllDependencies deps).2 s)).2
    = seq (length (promises s)) (length (getAllDependencies deps).1)
  ∧ promises s `prefix_of` promises (after_download n v deps s).1.
Proof.
  rewrite after_download_state.
  destruct (call_all_length (getAllDependencies deps).1 (packageKey_of n v)
              (emit_all (getAllDependencies deps).2 s)) as [Hlen Hseq].
  split; [done|]. split; [done|].
  apply (call_all_prefix _ _ (emit_all (getAllDependencies deps).2 s)).
Qed.

Lemma next_batch_cases k ps i :
  next_batch k ps i = Resolved ∨ next_batch k ps i = AwaitBatch k ps i.
Proof. unfold next_batch. destruct (i <? length ps)%nat; auto. Qed.

Lemma wf_step env s p s' : wf s → step env s p = Some s' → wf s'.
Proof.
  intros Hwf (ph & s1 & ph' & Hp & Hr & ->)%step_resumes.
  pose proof (lookup_lt_Some _ _ _ Hp) as Hlt.
  pose proof (wf_active s Hwf p ph) as Hact.
  destruct Hr as [n v message Hreg|n v m Hreg Hdist|n v m url Hreg Hdist Hf
                 |n v m url Hreg Hdist Hf|n v deps message Harch|n v deps Harch
                 |n v deps message Harch|n v deps Harch|n v deps
                 |k ps i message Hall|k ps i Hall].
  1-7,10: apply wf_set_promise;
    [apply (wf_same_core s);
       [unfold graph_of; cbn; by autorewrite with fields
       |cbn; by autorewrite with fields|done]
    |cbn; by autorewrite with fields
    |cbn; autorewrite with fields; intros k' [= <-]; by apply (Hact _ Hp)
    |done|done].
  - destruct (after_download_promises n v deps s) as (Hlen & Hseq & Hpre).
    apply wf_set_promise.
    + apply wf_after_download; [done|]. by apply (Hact _ Hp).
    + lia.
    + intros k' Hk'. by destruct (next_batch_cases (packageKey_of n v)
        (call_all (getAllDependencies deps).1 (packageKey_of n v)
           (emit_all (getAllDependencies deps).2 s)).2 0) as [E|E];
        rewrite E in Hk'.
    + intros message. by destruct (next_batch_cases (packageKey_of n v)
        (call_all (getAllDependencies deps).1 (packageKey_of n v)
           (emit_all (getAllDependencies deps).2 s)).2 0) as [E|E]; rewrite E.
    + intros k' ps' i' E q Hq.
      destruct (next_batch_cases (packageKey_of n v)
        (call_all (getAllDependencies deps).1 (packageKey_of n v)
           (emit_all (getAllDependencies deps).2 s)).2 0) as [E'|E'];
        rewrite E' in E; [done|]. simplify_eq.
      rewrite Hseq in Hq. apply elem_of_seq in Hq. lia.
  - destruct (after_download_promises n v deps s) as (Hlen & Hseq & Hpre).
    apply wf_set_promise.
    + apply wf_after_download; [done|]. by apply (Hact _ Hp).
    + lia.
    + intros k' Hk'. by destruct (next_batch_cases (packageKey_of n v)
        (call_all (getAllDependencies deps).1 (packageKey_of n v)
           (emit_all (getAllDependencies deps).2 s)).2 0) as [E|E];
        rewrite E in Hk'.
    + intros message. by destruct (next_batch_cases (packageKey_of n v)
        (call_all (getAllDependencies deps).1 (packageKey_of n v)
           (emit_all (getAllDependencies deps).2 s)).2 0) as [E|E]; rewrite E.
    + intros k' ps' i' E q Hq.
      destruct (next_batch_cases (packageKey_of n v)
        (call_all (getAllDependencies deps).1 (packageKey_of n v)
           (emit_all (getAllDependencies deps).2 s)).2 0) as [E'|E'];
        rewrite E' in E; [done|]. simplify_eq.
      rewrite Hseq in Hq. apply elem_of_seq in Hq. lia.
  - apply wf_set_promise; [done|done| | |].
    + intros k' Hk'.
      by destruct (next_batch_cases k ps (i + CONCURRENCY)) as [E|E]; rewrite E in Hk'.
    + intros message.
      by destruct (next_batch_cases k ps (i + CONCURRENCY)) as [E|E]; rewrite E.
    + intros k' ps' i' E q Hq.
      destruct (next_batch_cases k ps (i + CONCURRENCY)) as [E'|E'];
        rewrite E' in E; [done|]. simplify_eq.
      eapply (wf_order s Hwf); eauto.
Qed.

Lemma wf_initial files0 : wf (initial files0).
Proof.
  constructor.
  - constructor; cbn.
    + apply NoDup_nil_2.
    + intros k. split; [by intros ?%elem_of_nil|by intros ?%elem_of_empty].
    + intros p c (l & Hl & _). by rewrite lookup_empty in Hl.
    + intros p1 p2 c (l & Hl & _). by rewrite lookup_empty in Hl.
    + intros p l Hl. by rewrite lookup_empty in Hl.
  - intros p ph k Hp. cbn in Hp. by rewrite lookup_nil in Hp.
  - intros p ph Hp. cbn in Hp. by rewrite lookup_nil in Hp.
  - intros p k ps i Hp. cbn in Hp. by rewrite lookup_nil in Hp.
Qed.

Lemma wf_launch roots files0 : wf (launch roots (initial files0)).
Proof.
  apply launch_invariant; [apply wf_initial|].
  intros s n v Hs. by apply wf_call.
Qed.

Lemma reachable_wf env files0 roots s : reachable env files0 roots s → wf s.
Proof.
  apply reachable_invariant; [apply wf_launch|].
  intros s0 p s' Hs Hstep. by eapply wf_step.
Qed.

(** ** Failures stay inside the promise *)

Lemma resumes_prefix env s ph s1 ph' :
  resumes env s ph s1 ph' → promises s `prefix_of` promises s1.
Proof.
  intros Hr. destruct Hr; cbn; autorewrite with fields; try done;
    apply after_download_promises.
Qed.

Lemma step_other_promises env s p s' q :
  step env s p = Some s' → q ≠ p → q < length (promises s) →
  promises s' !! q = promises s !! q.
Proof.
  intros (ph & s1 & ph' & Hp & Hr & ->)%step_resumes Hne Hlt. cbn.
  rewrite list_lookup_insert_ne by done.
  destruct (resumes_prefix _ _ _ _ _ Hr) as [new ->].
  by rewrite lookup_app_l.
Qed.




(** ** Counting requests *)

Lemma count_if_cons {A : Type} (f : A -> bool) (x : A) (l : list A) :
  count_if f (x :: l) = indicator (f x) + count_if f l.
Proof. unfold count_if. cbn. by destruct (f x). Qed.

Lemma count_if_snoc {A : Type} (f : A -> bool) (l : list A) (x : A) :
  count_if f (l ++ [x]) = count_if f l + indicator (f x).
Proof. rewrite count_if_app, count_if_cons. unfold count_if. cbn. lia. Qed.

Lemma count_if_insert {A : Type} (f : A -> bool) (l : list A) (p : nat) (x y : A) :
  l !! p = Some x →
  count_if f (<[p := y]> l) + indicator (f x) = count_if f l + indicator (f y).
Proof.
  revert p. induction l as [|z l IH]; intros p Hp; [done|].
  destruct p as [|p]; cbn in Hp.
  - simplify_eq. change (<[0:=y]> (x :: l)) with (y :: l).
    rewrite !count_if_cons. lia.
  - change (<[S p:=y]> (z :: l)) with (z :: <[p:=y]> l).
    rewrite !count_if_cons. specialize (IH p Hp). lia.
Qed.

Lemma count_if_lookup {A : Type} (f : A -> bool) (l : list A) (p : nat) (x : A) :
  l !! p = Some x → indicator (f x) ≤ count_if f l.
Proof.
  revert p. induction l as [|z l IH]; intros p Hp; [done|].
  rewrite count_if_cons. destruct p as [|p]; cbn in Hp.
  - simplify_eq. lia.
  - specialize (IH p Hp). lia.
Qed.

(** A resumption that claims nothing: the promises of [s1] are those of
    [s], the trace grows by [es], and promise [p] goes from [ph] to [ph']. *)
Lemma counted_transfer s s1 p ph ph' es :
  counted s →
  downloadedPackages s1 = downloadedPackages s →
  promises s1 = promises s →
  trace s1 = trace s ++ es →
  promises s !! p = Some ph →
  (∀ k, count_if (is_metadata_request k) es = 0) →
  (∀ k, count_if (is_tarball_request k) es + indicator (awaiting_metadata k ph')
        ≤ indicator (awaiting_metadata k ph)) →
  counted (set_promise p ph' s1).
Proof.
  intros [Hc Hf Ha] HD Hpool Htrace Hp Hmeta Htar.
  assert (∀ k, metadata_fetches k (set_promise p ph' s1) = metadata_fetches k s) as Em.
  { intros k. unfold metadata_fetches. cbn [trace set_promise].
    rewrite Htrace, count_if_app, Hmeta. lia. }
  assert (∀ k, archive_fetches k (set_promise p ph' s1)
               = archive_fetches k s + count_if (is_tarball_request k) es) as Ea.
  { intros k. unfold archive_fetches. cbn [trace set_promise].
    by rewrite Htrace, count_if_app. }
  assert (∀ k, pending_metadata k (set_promise p ph' s1)
               + indicator (awaiting_metadata k ph)
               = pending_metadata k s + indicator (awaiting_metadata k ph')) as Ep.
  { intros k. unfold pending_metadata. cbn [promises set_promise]. rewrite Hpool.
    by apply count_if_insert. }
  assert (∀ k, indicator (awaiting_metadata k ph) ≤ pending_metadata k s) as Hle.
  { intros k. by eapply count_if_lookup. }
  constructor; cbn [downloadedPackages set_promise].
  - intros k Hk. rewrite Em. apply Hc. by rewrite <- HD.
  - intros k Hk. rewrite HD in Hk. destruct (Hf k Hk) as (H1 & H2 & H3).
    specialize (Ep k). specialize (Hle k). specialize (Htar k).
    rewrite Em, Ea. lia.
  - intros k. specialize (Ep k). specialize (Hle k). specialize (Htar k).
    specialize (Ha k). rewrite Ea. lia.
Qed.

Lemma counted_call n v parent s :
  counted s → counted (downloadPackageAndDependencies n v parent s).1.
Proof.
  intros [Hc Hf Ha]. unfold downloadPackageAndDependencies.
  case_decide as Hk.
  - constructor; unfold metadata_fetches, archive_fetches, pending_metadata in *;
      cbn [fst new_promise downloadedPackages trace promises]; intros k;
      rewrite ?count_if_snoc; cbn [awaiting_metadata indicator];
      rewrite ?Nat.add_0_r; auto.
  - destruct (Hf _ Hk) as (Hm0 & Ha0 & Hp0).
    constructor; unfold metadata_fetches, archive_fetches, pending_metadata in *;
      cbn [fst new_promise downloadedPackages trace promises]; intros k;
      rewrite ?count_if_snoc;
      cbn [awaiting_metadata is_metadata_request is_tarball_request indicator].
    + intros [->%elem_of_singleton|Hin]%elem_of_union.
      * rewrite Hm0, bool_decide_eq_true_2 by done. done.
      * rewrite (Hc k Hin). rewrite bool_decide_eq_false_2; [done|].
        intros E. by subst.
    + intros Hnin. apply not_elem_of_union in Hnin as [Hne%not_elem_of_singleton Hnin].
      destruct (Hf k Hnin) as (-> & -> & ->).
      by rewrite bool_decide_eq_false_2 by done.
    + rewrite Nat.add_0_r. destruct (decide (packageKey_of n v = k)) as [<-|Hne].
      * rewrite Ha0, Hp0, bool_decide_eq_true_2 by done. cbn. lia.
      * rewrite bool_decide_eq_false_2 by done. cbn. specialize (Ha k). lia.
Qed.

Lemma getAllDependencies_events deps e :
  e ∈ (getAllDependencies deps).2 → ∃ n r, e = EvInvalidRange n r.
Proof.
  unfold getAllDependencies.
  assert (∀ acc out,
    (∀ e, e ∈ out → ∃ n r, e = EvInvalidRange n r) →
    ∀ e, e ∈ (fold_left
      (fun '(allDependencies, out) '(name, versionRange) =>
         match Semver.normalize versionRange with
         | Some normalizedVersion =>
             (obj_set allDependencies name normalizedVersion, out)
         | None => (allDependencies, out ++ [EvInvalidRange name versionRange])
         end) deps (acc, out)).2 → ∃ n r, e = EvInvalidRange n r) as Hgo.
  { induction deps as [|[n r] deps IH]; intros acc out Hout; [done|].
    cbn [fold_left]. destruct (Semver.normalize r); apply IH; [done|].
    intros e' [He'|He']%elem_of_app; [auto|].
    apply list_elem_of_singleton in He'. eauto. }
  apply Hgo. by intros e' ?%elem_of_nil.
Qed.

Lemma counted_quiet s s1 es :
  counted s →
  downloadedPackages s1 = downloadedPackages s →
  promises s1 = promises s →
  trace s1 = trace s ++ es →
  (∀ k, count_if (is_metadata_request k) es = 0) →
  (∀ k, count_if (is_tarball_request k) es = 0) →
  counted s1.
Proof.
  intros [Hc Hf Ha] HD Hpool Htrace Hm Ht.
  constructor; unfold metadata_fetches, archive_fetches, pending_metadata in *;
    intros k; rewrite ?HD, ?Hpool, ?Htrace, ?count_if_app, ?Hm, ?Ht, ?Nat.add_0_r; auto.
Qed.

Lemma counted_after_download n v deps s :
  counted s → counted (after_download n v deps s).1.
Proof.
  intros Hc. rewrite after_download_state.
  apply (call_all_invariant counted).
  - apply (counted_quiet s _ (getAllDependencies deps).2); try done.
    + intros k. apply count_if_zero. intros e He.
      by destruct (getAllDependencies_events _ _ He) as (n' & r & ->).
    + intros k. apply count_if_zero. intros e He.
      by destruct (getAllDependencies_events _ _ He) as (n' & r & ->).
  - intros s' n' v' Hs' _. by apply counted_call.
Qed.

Lemma trace_audit_license k l s :
  trace (audit_license k l s) = trace s ++ audit_events k l.
Proof.
  unfold audit_license, audit_events.
  destruct (isCommercialFriendly l); cbn; by rewrite ?app_nil_r.
Qed.

Lemma audit_events_requests k l :
  (∀ k', count_if (is_metadata_request k') (audit_events k l) = 0)
  ∧ (∀ k', count_if (is_tarball_request k') (audit_events k l) = 0).
Proof. unfold audit_events. by destruct (isCommercialFriendly l). Qed.

Ltac count_requests :=
  intros;
  rewrite ?count_if_app, ?count_if_cons, ?(proj1 (audit_events_requests _ _)),
    ?(proj2 (audit_events_requests _ _));
  cbn [is_metadata_request is_tarball_request awaiting_metadata indicator count_if
         List.filter length];
  try lia.

Lemma counted_step env s p s' : counted s → step env s p = Some s' → counted s'.
Proof.
  intros Hc (ph & s1 & ph' & Hp & Hr & ->)%step_resumes.
  destruct Hr as [n v message Hreg|n v m Hreg Hdist|n v m url Hreg Hdist Hf
                 |n v m url Hreg Hdist Hf|n v deps message Harch|n v deps Harch
                 |n v deps message Harch|n v deps Harch|n v deps
                 |k ps i message Hall|k ps i Hall].
  - eapply (counted_transfer s _ p _ _ [_]); try done; count_requests.
  - eapply (counted_transfer s _ p _ _ (audit_events _ _ ++ [_])); try done;
      cbn; autorewrite with fields; try done;
      [by rewrite trace_audit_license, <- app_assoc|..]; count_requests.
  - eapply (counted_transfer s _ p _ _ (audit_events _ _ ++ [_])); try done;
      cbn; autorewrite with fields; try done;
      [by rewrite trace_audit_license, <- app_assoc|..]; count_requests.
  - eapply (counted_transfer s _ p _ _ (audit_events _ _ ++ [_])); try done;
      cbn; autorewrite with fields; try done;
      [by rewrite trace_audit_license, <- app_assoc|..]; count_requests.
  - eapply (counted_transfer s _ p _ _ [_]); try done; count_requests.
  - eapply (counted_transfer s _ p _ _ []); try done;
      [by cbn; rewrite app_nil_r|..]; count_requests.
  - eapply (counted_transfer s _ p _ _ [_]); try done; count_requests.
  - destruct (after_download_promises n v deps s) as (_ & _ & [new Hnew]).
    eapply (counted_transfer _ _ p (AwaitStream n v deps) _ []);
      [by apply counted_after_download|done|done|by rewrite app_nil_r
      |rewrite Hnew; by apply lookup_app_l_Some|..]; count_requests.
    by destruct (next_batch_cases (packageKey_of n v)
        (call_all (getAllDependencies deps).1 (packageKey_of n v)
           (emit_all (getAllDependencies deps).2 s)).2 0) as [->| ->].
  - destruct (after_download_promises n v deps s) as (_ & _ & [new Hnew]).
    eapply (counted_transfer _ _ p (AwaitSkip n v deps) _ []);
      [by apply counted_after_download|done|done|by rewrite app_nil_r
      |rewrite Hnew; by apply lookup_app_l_Some|..]; count_requests.
    by destruct (next_batch_cases (packageKey_of n v)
        (call_all (getAllDependencies deps).1 (packageKey_of n v)
           (emit_all (getAllDependencies deps).2 s)).2 0) as [->| ->].
  - eapply (counted_transfer s _ p _ _ [_]); try done; count_requests.
  - eapply (counted_transfer s _ p _ _ []); try done;
      [by rewrite app_nil_r|..]; count_requests.
    by destruct (next_batch_cases k ps (i + CONCURRENCY)) as [->| ->].
Qed.

Lemma counted_initial files0 : counted (initial files0).
Proof.
  constructor; intros k; unfold metadata_fetches, archive_fetches, pending_metadata;
    cbn; [by intros ?%elem_of_empty|done|lia].
Qed.

Lemma reachable_counted env files0 roots s :
  reachable env files0 roots s → counted s.
Proof.
  apply reachable_invariant.
  - apply launch_invariant; [apply counted_initial|].
    intros s0 n v Hs0. by apply counted_call.
  - intros s0 p s' Hs0 Hstep. by eapply counted_step.
Qed.

Lemma occurrences_NoDup (l : list string) (k : string) :
  NoDup l → k ∈ l → occurrences k l = 1.
Proof.
  unfold occurrences.
  induction l as [|x l IH]; intros Hnd Hk; [by apply elem_of_nil in Hk|].
  rewrite count_if_cons. apply NoDup_cons in Hnd as [Hx Hnd].
  apply elem_of_cons in Hk as [<-|Hk].
  - rewrite bool_decide_eq_true_2 by done. rewrite count_if_zero; [done|].
    intros y Hy. apply bool_decide_eq_false_2. by intros ->.
  - rewrite bool_decide_eq_false_2; [by rewrite IH|]. by intros ->.
Qed.

(** The scenario itself: one metadata request, one archive request, one
    file, no warning, and [lodash@4.17.21] once in the package list. *)
Example lodash_scenario :
  packageList lodash_state = ["lodash@4.17.21"]
  ∧ licenseWarnings lodash_state = []
  ∧ trace lodash_state
    = [EvMetadataRequest "lodash" "4.17.21";
       EvTarballRequest "lodash" "4.17.21" "http://registry/lodash-4.17.21.tgz"]
  ∧ promises lodash_state = [Resolved; Resolved]
  ∧ "lodash-4.17.21.tgz" ∈ files lodash_state.
Proof. by vm_compute. Qed.

(** ** Forests *)

Lemma rank_le (l : list string) (k : string) : rank l k ≤ length l.
Proof. induction l as [|x l IH]; cbn; [lia|]. case_decide; lia. Qed.

Section Forest.
Context (D : gset string) (pl : list string) (tree : gmap string (list string)).
Hypothesis Hforest : forest (D, pl, tree).

Lemma edge_rank p c : edge tree p c → rank pl p < rank pl c.
Proof. intros He. by destruct (forest_rank _ Hforest p c He) as (_ & _ & ?). Qed.

Lemma rtc_rank a b : rtc (edge tree) a b → rank pl a ≤ rank pl b.
Proof.
  induction 1 as [|a y b He _ IH]; [lia|].
  pose proof (edge_rank _ _ He). lia.
Qed.

Lemma tc_rank a b : tc (edge tree) a b → rank pl a < rank pl b.
Proof.
  induction 1 as [a b He|a y b He _ IH]; [by apply edge_rank|].
  pose proof (edge_rank _ _ He). lia.
Qed.

Lemma common_descendant a b x :
  rtc (edge tree) a x → rtc (edge tree) b x →
  rtc (edge tree) a b ∨ rtc (edge tree) b a.
Proof.
  intros Ha. revert b. pattern x. revert x Ha. apply rtc_ind_r.
  - intros b Hb. by right.
  - intros w x Haw Hwx IH b Hb.
    apply rtc_inv_r in Hb as [->|(w' & Hbw' & Hw'x)].
    + left. by eapply rtc_r.
    + assert (w = w') as <- by (by eapply (forest_parent _ Hforest)).
      by apply IH.
Qed.

Lemma siblings_disjoint k c1 c2 x :
  edge tree k c1 → edge tree k c2 → c1 ≠ c2 →
  rtc (edge tree) c1 x → rtc (edge tree) c2 x → False.
Proof.
  assert (∀ a b, edge tree k a → edge tree k b → a ≠ b →
                 rtc (edge tree) a b → False) as Hno.
  { intros a b Hka Hkb Hne Hab.
    apply rtc_inv_r in Hab as [->|(w & Haw & Hwb)]; [done|].
    assert (w = k) as -> by (by eapply (forest_parent _ Hforest)).
    pose proof (rtc_rank _ _ Haw). pose proof (edge_rank _ _ Hka). lia. }
  intros H1 H2 Hne Hx1 Hx2.
  destruct (common_descendant _ _ _ Hx1 Hx2); eauto.
Qed.

Lemma preorder_total fuel k d :
  length pl < fuel + rank pl k →
  ∃ lines, preorder fuel tree k d = Some lines
           ∧ NoDup lines.*2
           ∧ ∀ x, x ∈ lines.*2 ↔ rtc (edge tree) k x.
Proof.
  revert k d. induction fuel as [|fuel IH]; intros k d Hfuel.
  { pose proof (rank_le pl k). lia. }
  cbn [preorder]. destruct (tree !! k) as [children|] eqn:Hk.
  2:{ exists [(d, k)]. split; [done|]. split; [apply NoDup_singleton|].
      intros x. cbn. rewrite list_elem_of_singleton. split; [by intros ->|].
      intros [->|(y & (l & Hl & _) & _)]%rtc_inv; [done|congruence]. }
  assert (∀ cs, (∀ c, c ∈ cs → c ∈ children) → NoDup cs →
            ∃ subs, mapM (fun child => preorder fuel tree child (S d)) cs = Some subs
                    ∧ NoDup (concat subs).*2
                    ∧ ∀ x, x ∈ (concat subs).*2 ↔
                           ∃ c, c ∈ cs ∧ rtc (edge tree) c x) as Hsubs.
  { induction cs as [|c cs IHcs]; intros Hcs Hnd.
    - exists []. split; [done|]. split; [apply NoDup_nil_2|].
      intros x. cbn. split; [by intros ?%elem_of_nil|].
      by intros (c & ?%elem_of_nil & _).
    - apply NoDup_cons in Hnd as [Hc Hnd].
      assert (edge tree k c) as Hkc. { exists children. split; [done|]. apply Hcs. left. }
      destruct (IH c (S d)) as (lines & Hlines & Hnd1 & Hx1).
      { pose proof (edge_rank _ _ Hkc). lia. }
      destruct IHcs as (subs & Hsubs & Hnd2 & Hx2); [|done|].
      { intros c' Hc'. apply Hcs. by right. }
      exists (lines :: subs). cbn [mapM]. rewrite Hlines, Hsubs. split; [done|].
      cbn [concat]. rewrite fmap_app. split.
      + apply NoDup_app. split; [done|]. split; [|done].
        intros x Hxl Hxs. apply Hx1 in Hxl. apply Hx2 in Hxs as (c' & Hc' & Hc'x).
        apply (siblings_disjoint k c c' x); try done.
        * exists children. split; [done|]. apply Hcs. by right.
        * by intros ->.
      + intros x. rewrite elem_of_app, Hx1, Hx2. split.
        * intros [Hx|(c' & Hc' & Hx)]; [exists c; split; [left|done]|].
          exists c'. split; [by right|done].
        * intros (c' & [->|Hc']%elem_of_cons & Hx); [by left|]. right. eauto. }
  destruct (Hsubs children) as (subs & -> & Hnd & Hx); [done| |].
  { by eapply (forest_children _ Hforest). }
  eexists. split; [done|]. cbn [fmap list_fmap snd]. split.
  - apply NoDup_cons. split; [|done].
    intros (c & Hc & Hck)%Hx.
    assert (edge tree k c) as Hkc by (by exists children).
    pose proof (rtc_rank _ _ Hck). pose proof (edge_rank _ _ Hkc). lia.
  - intros x. rewrite elem_of_cons, Hx. split.
    + intros [->|(c & Hc & Hcx)]; [done|].
      eapply rtc_l; [|done]. by exists children.
    + intros [->|(y & (l & Hl & Hy) & Hyx)]%rtc_inv; [by left|].
      right. exists y. split; [congruence|done].
Qed.

End Forest.

Lemma preorder_mono tree fuel k d lines :
  preorder fuel tree k d = Some lines →
  ∀ fuel', fuel ≤ fuel' → preorder fuel' tree k d = Some lines.
Proof.
  revert k d lines. induction fuel as [|fuel IH]; intros k d lines Hpre fuel' Hle;
    [done|].
  destruct fuel' as [|fuel']; [lia|]. cbn [preorder] in *.
  destruct (tree !! k) as [children|]; [|done].
  destruct (mapM (fun child => preorder fuel tree child (S d)) children)
    as [subs|] eqn:Hsubs; [|done].
  assert (mapM (fun child => preorder fuel' tree child (S d)) children = Some subs)
    as ->; [|done].
  clear Hpre. revert subs Hsubs.
  induction children as [|c cs IHcs]; intros subs Hsubs; [done|].
  cbn [mapM] in *.
  destruct (preorder fuel tree c (S d)) as [l|] eqn:Hc; [|done].
  rewrite (IH _ _ _ Hc fuel') by lia. cbn in *.
  destruct (mapM (fun child => preorder fuel tree child (S d)) cs) as [subs'|]; [|done].
  by rewrite (IHcs subs').
Qed.

(** C10. In every state of a run, whatever the registry answers, the
    recorded edges form a forest: a key is the child of one parent at most,
    and once; the parent of an edge was claimed before its child; no key is
    its own ancestor.  So [buildDependencyTree] returns for every key, with
    any fuel above the length of the package list, and prints that key and
    the keys below it exactly once each. *)
Theorem recorded_edges_form_forest (env : environment) (files0 : gset string)
    (roots : list (string * string)) (s : state) :
  reachable env files0 roots s →
  (∀ p1 p2 c, edge (dependencyTree s) p1 c → edge (dependencyTree s) p2 c → p1 = p2)
  ∧ (∀ p l, dependencyTree s !! p = Some l → NoDup l)
  ∧ (∀ p c, edge (dependencyTree s) p c →
            rank (packageList s) p < rank (packageList s) c)
  ∧ (∀ k, ¬ tc (edge (dependencyTree s)) k k)
  ∧ (∀ k d, ∃ lines,
       (∀ fuel, length (packageList s) < fuel →
                buildDependencyTree fuel (dependencyTree s) k d = Some (render lines))
       ∧ NoDup lines.*2
       ∧ ∀ x, x ∈ lines.*2 ↔ rtc (edge (dependencyTree s)) k x).
Proof.
  intros Hreach. pose proof (wf_forest s (reachable_wf _ _ _ _ Hreach)) as Hf.
  unfold graph_of in Hf.
  split; [apply (forest_parent _ Hf)|]. split; [apply (forest_children _ Hf)|].
  split; [apply (edge_rank _ _ _ Hf)|]. split.
  - intros k Hk. pose proof (tc_rank _ _ _ Hf _ _ Hk). lia.
  - intros k d.
    destruct (preorder_total _ _ _ Hf (S (length (packageList s))) k d)
      as (lines & Hlines & Hnd & Hx); [lia|].
    exists lines. split; [|done]. intros fuel Hfuel.
    rewrite buildDependencyTree_preorder.
    rewrite (preorder_mono _ _ _ _ _ Hlines fuel) by lia. done.
Qed.

Lemma recorded_edges_form_forest_witness :
  (∀ k, ¬ tc (edge (dependencyTree cycle_state)) k k)
  ∧ buildDependencyTree 3 (dependencyTree cycle_state) "a@1.0.0" 0
    = Some ("- a@1.0.0" +:+ newline +:+ "  - b@1.0.0" +:+ newline).
Proof.
  split; [|by vm_compute].
  apply (recorded_edges_form_forest cycle_env ∅ [("a", "1.0.0")] cycle_state).
  exists [0; 0; 0; 1; 1; 1; 1; 0]. by vm_compute.
Defined.

(** ** What only grows *)

Lemma resumes_mono env s ph s1 ph' :
  resumes env s ph s1 ph' →
  downloadedPackages s ⊆ downloadedPackages s1 ∧ trace s `prefix_of` trace s1.
Proof.
  intros Hr. split.
  - destruct (resumes_graph _ _ _ _ _ Hr) as [keys Hg].
    assert (downloadedPackages s1 = (claim_all (phase_key ph) keys (graph_of s)).1.1)
      as -> by (by rewrite <- Hg).
    rewrite claim_all_downloaded. cbn. set_solver.
  - destruct Hr; cbn; rewrite ?trace_audit_license, <- ?app_assoc;
      try (by apply prefix_app_r); try done;
      rewrite after_download_state;
      (etrans; [|apply call_all_trace]); by apply prefix_app_r.
Qed.

Lemma step_mono env s p s' :
  step env s p = Some s' →
  downloadedPackages s ⊆ downloadedPackages s' ∧ trace s `prefix_of` trace s'.
Proof.
  intros (ph & s1 & ph' & Hp & Hr & ->)%step_resumes.
  by apply (resumes_mono _ _ _ _ _ Hr).
Qed.

(** ** What the state holds is what the registry answered *)

Lemma consistent_frame env s s1 es :
  consistent env s →
  promises s1 = promises s → dependencyTree s1 = dependencyTree s →
  trace s1 = trace s ++ es →
  (∀ n v url, EvTarballRequest n v url ∈ es → ∃ m, registry env n v = MetadataOk m) →
  consistent env s1.
Proof.
  intros [Hd Ha Hp] Hpool Htree Htrace Hes. constructor.
  - intros p ph n v deps. rewrite Hpool. apply Hd.
  - intros n v url. rewrite Htrace. intros [Hin|Hin]%elem_of_app; eauto.
  - intros k. rewrite Htree. apply Hp.
Qed.

Lemma consistent_set_promise env p ph' s1 :
  consistent env s1 →
  (∀ n v deps, phase_package ph' = Some (n, v) → phase_deps ph' = Some deps →
               ∃ m, registry env n v = MetadataOk m ∧ deps = default [] (dependencies m)) →
  consistent env (set_promise p ph' s1).
Proof.
  intros [Hd Ha Hp] Hph. constructor; [|done..].
  intros q ph n v deps Hq Hpk Hpd. cbn in Hq.
  destruct (decide (q = p)) as [->|Hne].
  - pose proof (lookup_lt_Some _ _ _ Hq) as Hlt. rewrite length_insert in Hlt.
    rewrite list_lookup_insert_eq in Hq by done. simplify_eq. eauto.
  - rewrite list_lookup_insert_ne in Hq by done. eauto.
Qed.

Lemma consistent_call env n v parent s :
  consistent env s →
  (∀ k, parent = Some k →
        ∃ n' v' m, packageKey_of n' v' = k ∧ registry env n' v' = MetadataOk m) →
  consistent env (downloadPackageAndDependencies n v parent s).1.
Proof.
  intros [Hd Ha Hp] Hparent. unfold downloadPackageAndDependencies.
  case_decide; constructor; cbn.
  - intros p ph n' v' deps [Hq|[_ Hq]]%lookup_app_Some; [eauto|].
    by apply list_lookup_singleton_Some in Hq as [_ <-].
  - done.
  - done.
  - intros p ph n' v' deps [Hq|[_ Hq]]%lookup_app_Some; [eauto|].
    by apply list_lookup_singleton_Some in Hq as [_ <-].
  - intros n' v' url [Hin|Hin]%elem_of_app; [eauto|].
    by apply list_elem_of_singleton in Hin.
  - intros k Hk. destruct parent as [q|]; [|eauto]. cbn in Hk.
    destruct (String.eqb_spec q ""); [eauto|].
    destruct (decide (k = q)) as [->|Hne]; [eauto|].
    rewrite lookup_insert_ne in Hk by done. eauto.
Qed.

Lemma consistent_after_download env n v deps m s :
  consistent env s → registry env n v = MetadataOk m →
  consistent env (after_download n v deps s).1.
Proof.
  intros Hc Hreg. rewrite after_download_state.
  apply (call_all_invariant (consistent env)).
  - apply (consistent_frame env s _ (getAllDependencies deps).2); try done.
    intros n' v' url Hin.
    by destruct (getAllDependencies_events _ _ Hin) as (? & ? & ?).
  - intros s' n' v' Hs' _. apply consistent_call; [done|].
    intros k [= <-]. eauto.
Qed.

Lemma consistent_step env s p s' :
  consistent env s → step env s p = Some s' → consistent env s'.
Proof.
  intros Hc (ph & s1 & ph' & Hp & Hr & ->)%step_resumes.
  pose proof (consistent_deps env s Hc p ph) as Hdeps.
  destruct Hr as [n v message Hreg|n v m Hreg Hdist|n v m url Hreg Hdist Hf
                 |n v m url Hreg Hdist Hf|n v deps message Harch|n v deps Harch
                 |n v deps message Harch|n v deps Harch|n v deps
                 |k ps i message Hall|k ps i Hall].
  - apply consistent_set_promise; [|done].
    apply (consistent_frame env s _ [EvError (packageKey_of n v) message]); try done.
    by intros n' v' url ?%list_elem_of_singleton.
  - apply consistent_set_promise; [|done].
    apply (consistent_frame env s _
             (audit_events (packageKey_of n v) (license m)
              ++ [EvError (packageKey_of n v) tarball_error]));
      cbn; autorewrite with fields; try done.
    + by rewrite trace_audit_license, <- app_assoc.
    + intros n' v' url [Hin|Hin%list_elem_of_singleton]%elem_of_app; [|done].
      unfold audit_events in Hin. destruct (isCommercialFriendly (license m));
        [by apply elem_of_nil in Hin|by apply list_elem_of_singleton in Hin].
  - apply consistent_set_promise.
    + apply (consistent_frame env s _
               (audit_events (packageKey_of n v) (license m)
                ++ [EvSkipTarball (fileName_of n v)]));
        cbn; autorewrite with fields; try done.
      * by rewrite trace_audit_license, <- app_assoc.
      * intros n' v' url' [Hin|Hin%list_elem_of_singleton]%elem_of_app; [|done].
        unfold audit_events in Hin. destruct (isCommercialFriendly (license m));
          [by apply elem_of_nil in Hin|by apply list_elem_of_singleton in Hin].
    + intros n' v' deps [= <- <-] [= <-]. eauto.
  - apply consistent_set_promise.
    + apply (consistent_frame env s _
               (audit_events (packageKey_of n v) (license m)
                ++ [EvTarballRequest n v url]));
        cbn; autorewrite with fields; try done.
      * by rewrite trace_audit_license, <- app_assoc.
      * intros n' v' url' [Hin|Hin%list_elem_of_singleton]%elem_of_app.
        -- unfold audit_events in Hin. destruct (isCommercialFriendly (license m));
             [by apply elem_of_nil in Hin|by apply list_elem_of_singleton in Hin].
        -- simplify_eq. eauto.
    + intros n' v' deps [= <- <-] [= <-]. eauto.
  - apply consistent_set_promise; [|done].
    apply (consistent_frame env s _ [EvError (packageKey_of n v) message]); try done.
    by intros n' v' url ?%list_elem_of_singleton.
  - apply consistent_set_promise.
    + apply (consistent_frame env s _ []); try done. by rewrite app_nil_r.
      by intros n' v' url ?%elem_of_nil.
    + intros n' v' deps' [= <- <-] [= <-]. by eapply Hdeps.
  - apply consistent_set_promise; [|done].
    apply (consistent_frame env s _ [EvError (packageKey_of n v) message]); try done.
    by intros n' v' url ?%list_elem_of_singleton.
  - destruct (Hdeps n v deps Hp eq_refl eq_refl) as (m & Hreg & _).
    apply consistent_set_promise; [by eapply consistent_after_download|].
    intros n' v' deps' Hpk.
    by destruct (next_batch_cases (packageKey_of n v)
        (call_all (getAllDependencies deps).1 (packageKey_of n v)
           (emit_all (getAllDependencies deps).2 s)).2 0) as [E|E]; rewrite E in Hpk.
  - destruct (Hdeps n v deps Hp eq_refl eq_refl) as (m & Hreg & _).
    apply consistent_set_promise; [by eapply consistent_after_download|].
    intros n' v' deps' Hpk.
    by destruct (next_batch_cases (packageKey_of n v)
        (call_all (getAllDependencies deps).1 (packageKey_of n v)
           (emit_all (getAllDependencies deps).2 s)).2 0) as [E|E]; rewrite E in Hpk.
  - apply consistent_set_promise; [|done].
    apply (consistent_frame env s _ [EvError k message]); try done.
    by intros n' v' url ?%list_elem_of_singleton.
  - apply consistent_set_promise; [done|].
    intros n' v' deps' Hpk.
    by destruct (next_batch_cases k ps (i + CONCURRENCY)) as [E|E]; rewrite E in Hpk.
Qed.

Lemma consistent_initial env files0 : consistent env (initial files0).
Proof.
  constructor; cbn.
  - intros p ph n v deps Hp. by rewrite lookup_nil in Hp.
  - by intros n v url ?%elem_of_nil.
  - intros k [l Hl]. by rewrite lookup_empty in Hl.
Qed.

Lemma reachable_consistent env files0 roots s :
  reachable env files0 roots s → consistent env s.
Proof.
  apply reachable_invariant.
  - apply launch_invariant; [apply consistent_initial|].
    intros s0 n v Hs0. by apply consistent_call.
  - intros s0 p s' Hs0 Hstep. by eapply consistent_step.
Qed.

(** ** The first root *)

Lemma launch_prefix roots s0 : promises s0 `prefix_of` promises (launch roots s0).
Proof.
  apply (launch_invariant (fun s => promises s0 `prefix_of` promises s)); [done|].
  intros s n v Hs. destruct (call_promises n v None s) as [-> _].
  by apply prefix_app_r.
Qed.

Lemma launch_first n v roots files0 :
  promises (launch ((n, v) :: roots) (initial files0)) !! 0 = Some (AwaitMetadata n v).
Proof.
  pose proof (launch_prefix roots
    (downloadPackageAndDependencies n v None (initial files0)).1) as [new Hnew].
  change (launch ((n, v) :: roots) (initial files0))
    with (launch roots (downloadPackageAndDependencies n v None (initial files0)).1).
  rewrite Hnew. rewrite call_fresh by (cbn; apply not_elem_of_empty). done.
Qed.

Lemma after_download_downloaded n v deps s e :
  e ∈ (getAllDependencies deps).1 →
  entry_key e ∈ downloadedPackages (after_download n v deps s).1.
Proof.
  intros He. rewrite after_download_state, call_all_downloaded.
  apply elem_of_union. left. apply elem_of_list_to_set.
  apply (list_elem_of_fmap_2 entry_key) in He. done.
Qed.

Lemma root_stage_step env n v m url s p s' :
  registry env n v = MetadataOk m → dist m = Some url →
  archive env n v = StreamEnd →
  root_stage n v m url s → step env s p = Some s' →
  root_stage n v m url s'.
Proof.
  intros Hreg Hdist Harch Hroot Hstep.
  destruct (step_mono _ _ _ _ Hstep) as [HD Htrace].
  destruct (decide (p = 0)) as [->|Hne].
  - apply step_resumes in Hstep as (ph & s1 & ph' & Hp & Hr & ->).
    pose proof (lookup_lt_Some _ _ _ Hp) as Hlt.
    pose proof (prefix_length _ _ (resumes_prefix _ _ _ _ _ Hr)) as Hlen.
    unfold root_stage in *. rewrite Hp in Hroot. cbn [promises set_promise] in *.
    rewrite list_lookup_insert_eq by lia.
    destruct Hr as [n' v' message Hreg'|n' v' m' Hreg' Hdist'|n' v' m' url' Hreg' Hdist' Hf
                   |n' v' m' url' Hreg' Hdist' Hf|n' v' deps message Harch'|n' v' deps Harch'
                   |n' v' deps message Harch'|n' v' deps Harch'|n' v' deps
                   |k ps i message Hall|k ps i Hall].
    + destruct Hroot as [-> ->]. congruence.
    + destruct Hroot as [-> ->]. congruence.
    + destruct Hroot as [-> ->].
      assert (m' = m) as -> by congruence. assert (url' = url) as -> by congruence.
      split_and!; try done.
      cbn. apply elem_of_app. right. by apply list_elem_of_singleton.
    + destruct Hroot as [-> ->].
      assert (m' = m) as -> by congruence. assert (url' = url) as -> by congruence.
      split_and!; try done.
      cbn. apply elem_of_app. right. by apply list_elem_of_singleton.
    + destruct Hroot as (-> & -> & _). congruence.
    + by destruct Hroot as (-> & -> & -> & Hin).
    + destruct Hroot as (-> & -> & _). congruence.
    + destruct Hroot as (-> & -> & -> & Hin).
      assert ((∀ e, e ∈ coerced_dependencies m →
                    entry_key e ∈ downloadedPackages
                      (after_download n v (default [] (dependencies m)) s).1)
              ∧ (EvTarballRequest n v url
                   ∈ trace (after_download n v (default [] (dependencies m)) s).1
                 ∨ EvSkipTarball (fileName_of n v)
                   ∈ trace (after_download n v (default [] (dependencies m)) s).1)) as H.
      { split; [intros e He; by apply after_download_downloaded|].
        left. by eapply elem_of_prefix. }
      by destruct (next_batch_cases (packageKey_of n v)
        (call_all (getAllDependencies (default [] (dependencies m))).1
           (packageKey_of n v)
           (emit_all (getAllDependencies (default [] (dependencies m))).2 s)).2 0)
        as [->| ->].
    + destruct Hroot as (-> & -> & -> & Hin).
      assert ((∀ e, e ∈ coerced_dependencies m →
                    entry_key e ∈ downloadedPackages
                      (after_download n v (default [] (dependencies m)) s).1)
              ∧ (EvTarballRequest n v url
                   ∈ trace (after_download n v (default [] (dependencies m)) s).1
                 ∨ EvSkipTarball (fileName_of n v)
                   ∈ trace (after_download n v (default [] (dependencies m)) s).1)) as H.
      { split; [intros e He; by apply after_download_downloaded|].
        right. by eapply elem_of_prefix. }
      by destruct (next_batch_cases (packageKey_of n v)
        (call_all (getAllDependencies (default [] (dependencies m))).1
           (packageKey_of n v)
           (emit_all (getAllDependencies (default [] (dependencies m))).2 s)).2 0)
        as [->| ->].
    + destruct Hroot as [Hdeps Hfetch]. split; [done|].
      destruct Hfetch as [Hin|Hin]; [left|right]; cbn; apply elem_of_app; by left.
    + by destruct (next_batch_cases k ps (i + CONCURRENCY)) as [->| ->].
  - unfold root_stage in *.
    destruct (promises s !! 0) as [ph|] eqn:H0; [|done].
    pose proof (lookup_lt_Some _ _ _ H0) as Hlt.
    rewrite (step_other_promises _ _ _ _ 0 Hstep) by done. rewrite H0.
    destruct ph; try done.
    + destruct Hroot as (? & ? & ? & Hin). split_and!; try done.
      by eapply elem_of_prefix.
    + destruct Hroot as (? & ? & ? & Hin). split_and!; try done.
      by eapply elem_of_prefix.
    + destruct Hroot as (? & ? & ? & Hin). split_and!; try done.
      by eapply elem_of_prefix.
    + destruct Hroot as [Hdeps Hfetch]. split; [intros e He; apply HD; auto|].
      destruct Hfetch as [Hin|Hin]; [left|right]; by eapply elem_of_prefix.
    + destruct Hroot as [Hdeps Hfetch]. split; [intros e He; apply HD; auto|].
      destruct Hfetch as [Hin|Hin]; [left|right]; by eapply elem_of_prefix.
Qed.

Lemma reachable_root_stage env files0 n v m url roots s :
  registry env n v = MetadataOk m → dist m = Some url →
  archive env n v = StreamEnd →
  reachable env files0 ((n, v) :: roots) s →
  root_stage n v m url s.
Proof.
  intros Hreg Hdist Harch. apply reachable_invariant.
  - unfold root_stage. by rewrite launch_first.
  - intros s0 p s' Hs0 Hstep. by eapply root_stage_step.
Qed.

Lemma quiescent_root env files0 n v m url roots s :
  registry env n v = MetadataOk m → dist m = Some url →
  archive env n v = StreamEnd →
  reachable env files0 ((n, v) :: roots) s → quiescent s →
  (∀ e, e ∈ coerced_dependencies m → entry_key e ∈ downloadedPackages s)
  ∧ (EvTarballRequest n v url ∈ trace s ∨ EvSkipTarball (fileName_of n v) ∈ trace s).
Proof.
  intros Hreg Hdist Harch Hreach Hq.
  pose proof (reachable_root_stage _ _ _ _ _ _ _ _ Hreg Hdist Harch Hreach) as Hroot.
  unfold root_stage in Hroot.
  destruct (promises s !! 0) as [ph|] eqn:H0; [|done].
  pose proof (proj1 (Forall_lookup _ _) Hq 0 ph H0) as Hsettled.
  by destruct ph.
Qed.

(** ** A failing dependency *)

Lemma launch_downloaded roots s0 :
  downloadedPackages (launch roots s0)
  = list_to_set (entry_key <$> roots) ∪ downloadedPackages s0.
Proof.
  revert s0. induction roots as [|[n v] roots IH]; intros s0.
  - cbn. set_solver.
  - change (launch ((n, v) :: roots) s0)
      with (launch roots (downloadPackageAndDependencies n v None s0).1).
    rewrite IH, call_downloaded. cbn. set_solver.
Qed.

Lemma reachable_root_claimed env files0 roots s e :
  e ∈ roots → reachable env files0 roots s → entry_key e ∈ downloadedPackages s.
Proof.
  intros He Hreach.
  apply (reachable_invariant env files0 roots
           (fun s => entry_key e ∈ downloadedPackages s)); [| |done].
  - rewrite launch_downloaded. apply elem_of_union. left.
    apply elem_of_list_to_set. by apply list_elem_of_fmap_2.
  - intros s0 p s' Hs0 Hstep. by apply (step_mono _ _ _ _ Hstep).
Qed.

(** The claim C6 fails on the scenario it describes: when the metadata
    request for [foo@1.0.0] is rejected, [foo@1.0.0] is in the package list
    of the final report, since the key is claimed and listed before the
    request is sent. *)
Lemma failed_dependency_is_listed :
  reachable foo_fails_env ∅ [("bar", "2.0.0")] foo_fails_state
  ∧ quiescent foo_fails_state
  ∧ registry foo_fails_env "foo" "1.0.0"
    = MetadataFail "Request failed with status code 404"
  ∧ EvError "foo@1.0.0" "Request failed with status code 404" ∈ trace foo_fails_state
  ∧ packageList foo_fails_state = ["bar@2.0.0"; "foo@1.0.0"; "baz@1.0.0"]
  ∧ logContent 3 [("bar", "2.0.0")] foo_fails_state
    = Some (Str.join newline
              [""; "=== Downloaded Packages ==="; "bar@2.0.0"; "foo@1.0.0";
               "baz@1.0.0"; ""; "=== Dependency Tree ==="; "- bar@2.0.0";
               "  - foo@1.0.0"; "  - baz@1.0.0"; ""; ""; "=== License Warnings ===";
               "No license warnings."; ""]).
Proof.
  split; [exists [0; 0; 0; 1; 2; 2; 2; 0]; by vm_compute|].
  split.
  { unfold quiescent.
    replace (promises foo_fails_state) with [Resolved; Resolved; Resolved]
      by (by vm_compute).
    by repeat constructor. }
  split; [reflexivity|]. split.
  { replace (trace foo_fails_state)
      with [EvMetadataRequest "bar" "2.0.0";
            EvTarballRequest "bar" "2.0.0" "https://r/bar-2.0.0.tgz";
            EvMetadataRequest "foo" "1.0.0"; EvMetadataRequest "baz" "1.0.0";
            EvError "foo@1.0.0" "Request failed with status code 404";
            EvTarballRequest "baz" "1.0.0" "https://r/baz-1.0.0.tgz"]
      by (by vm_compute).
    do 4 right. left. }
  split; by vm_compute.
Qed.

(** C6, amended. When the metadata request fails for a dependency [foo]
    resolved under the root [bar], whose own metadata and archive are fine,
    then once the run is over: [bar] is in the package list and its archive
    has been requested (or skipped because the file was there); every
    dependency of [bar] is in the package list and has had its one metadata
    request; and [foo] itself is in the package list, exactly once, claimed
    with no children, and no archive was requested for it. *)
Theorem failing_dependency (env : environment) (files0 : gset string)
    (roots : list (string * string)) (bar barVersion : string)
    (m : metadata) (url : string) (foo fooVersion : string) (s : state) :
  registry env bar barVersion = MetadataOk m →
  dist m = Some url →
  archive env bar barVersion = StreamEnd →
  (foo, fooVersion) ∈ coerced_dependencies m →
  (∀ n v, packageKey_of n v = packageKey_of foo fooVersion →
          ∃ message, registry env n v = MetadataFail message) →
  reachable env files0 ((bar, barVersion) :: roots) s →
  quiescent s →
  packageKey_of bar barVersion ∈ packageList s
  ∧ (EvTarballRequest bar barVersion url ∈ trace s
     ∨ EvSkipTarball (fileName_of bar barVersion) ∈ trace s)
  ∧ (∀ e, e ∈ coerced_dependencies m →
          entry_key e ∈ packageList s ∧ metadata_fetches (entry_key e) s = 1)
  ∧ occurrences (packageKey_of foo fooVersion) (packageList s) = 1
  ∧ archive_fetches (packageKey_of foo fooVersion) s = 0
  ∧ dependencyTree s !! packageKey_of foo fooVersion = None.
Proof.
  intros Hreg Hdist Harch Hfoo Hfail Hreach Hq.
  pose proof (reachable_wf _ _ _ _ Hreach) as Hwf.
  pose proof (reachable_counted _ _ _ _ Hreach) as Hcount.
  pose proof (reachable_consistent _ _ _ _ Hreach) as Hcons.
  destruct (wf_forest s Hwf) as [Hnd Hlist _ _ _]. cbn in Hnd, Hlist.
  destruct (quiescent_root _ _ _ _ _ _ _ _ Hreg Hdist Harch Hreach Hq)
    as [Hdeps Hfetch].
  split.
  { apply Hlist.
    apply (reachable_root_claimed env files0 ((bar, barVersion) :: roots) s
             (bar, barVersion)); [left|done]. }
  split; [done|]. split.
  { intros e He. split; [by apply Hlist, Hdeps|].
    by apply (counted_claimed s Hcount), Hdeps. }
  split.
  { apply occurrences_NoDup; [done|]. apply Hlist. by apply (Hdeps (foo, fooVersion)). }
  split.
  { apply count_if_zero. intros e He.
    destruct e as [| n v u | | | |]; try done. cbn.
    apply bool_decide_eq_false_2. intros Hk.
    destruct (consistent_archive env s Hcons n v u He) as [m' Hm'].
    destruct (Hfail n v Hk) as [message Hmsg]. congruence. }
  destruct (dependencyTree s !! packageKey_of foo fooVersion) as [l|] eqn:Hl; [|done].
  destruct (consistent_parent env s Hcons (packageKey_of foo fooVersion))
    as (n & v & m' & Hk & Hm'); [by eexists|].
  destruct (Hfail n v Hk) as [message Hmsg]. congruence.
Qed.

Lemma failing_dependency_witness :
  "bar@2.0.0" ∈ packageList foo_fails_state
  ∧ (EvTarballRequest "bar" "2.0.0" "https://r/bar-2.0.0.tgz" ∈ trace foo_fails_state
     ∨ EvSkipTarball (fileName_of "bar" "2.0.0") ∈ trace foo_fails_state)
  ∧ (∀ e, e ∈ coerced_dependencies
                (Metadata (Some [("foo", "1.0.0"); ("baz", "^1.0.0")])
                   (Some "MIT") (Some "https://r/bar-2.0.0.tgz")) →
          entry_key e ∈ packageList foo_fails_state
          ∧ metadata_fetches (entry_key e) foo_fails_state = 1)
  ∧ occurrences "foo@1.0.0" (packageList foo_fails_state) = 1
  ∧ archive_fetches "foo@1.0.0" foo_fails_state = 0
  ∧ dependencyTree foo_fails_state !! "foo@1.0.0" = None.
Proof.
  apply (failing_dependency foo_fails_env ∅ [] "bar" "2.0.0"
           (Metadata (Some [("foo", "1.0.0"); ("baz", "^1.0.0")])
              (Some "MIT") (Some "https://r/bar-2.0.0.tgz"))
           "https://r/bar-2.0.0.tgz" "foo" "1.0.0" foo_fails_state).
  - reflexivity.
  - reflexivity.
  - reflexivity.
  - left.
  - intros n v Hk. exists "Request failed with status code 404".
    unfold foo_fails_env. cbn [registry].
    change (packageKey_of "foo" "1.0.0") with "foo@1.0.0" in Hk.
    rewrite Hk. reflexivity.
  - exists [0; 0; 0; 1; 2; 2; 2; 0]. by vm_compute.
  - unfold quiescent.
    replace (promises foo_fails_state) with [Resolved; Resolved; Resolved]
      by (by vm_compute).
    by repeat constructor.
Defined.

(** ** Runs are finite *)












(** ** Runs do not get stuck *)




(** ** No edge leads to a root *)

Lemma claim_edge parent g k p c :
  edge (claim parent g k).2 p c → edge g.2 p c ∨ c ∉ g.1.1.
Proof.
  unfold claim. case_decide as Hk; [by left|]. cbn.
  intros [He|[_ ->]]%edge_record_some; [by left|by right].
Qed.

Lemma claim_all_edge parent keys g p c :
  edge (claim_all parent keys g).2 p c → edge g.2 p c ∨ c ∉ g.1.1.
Proof.
  revert g. induction keys as [|k keys IH]; intros g He; [by left|].
  cbn in He. apply IH in He as [He|Hc].
  - by apply claim_edge in He.
  - right. rewrite claim_downloaded in Hc. set_solver.
Qed.

Lemma launch_tree roots s0 : dependencyTree (launch roots s0) = dependencyTree s0.
Proof.
  apply (launch_invariant (fun s => dependencyTree s = dependencyTree s0)); [done|].
  intros s n v Hs. unfold downloadPackageAndDependencies. by case_decide.
Qed.

Lemma reachable_no_edge_to_root env files0 roots s e parent :
  e ∈ roots → reachable env files0 roots s →
  ¬ edge (dependencyTree s) parent (entry_key e).
Proof.
  intros He Hreach.
  assert (entry_key e ∈ downloadedPackages (launch roots (initial files0))) as Hlaunch.
  { apply (reachable_root_claimed env files0 roots); [done|]. by exists []. }
  assert ((∀ p c, edge (dependencyTree s) p c →
                  c ∉ downloadedPackages (launch roots (initial files0)))
          ∧ downloadedPackages (launch roots (initial files0)) ⊆ downloadedPackages s)
    as [Hedges _]; [|by intros Hedge%Hedges].
  apply (reachable_invariant env files0 roots
    (fun s => (∀ p c, edge (dependencyTree s) p c →
                      c ∉ downloadedPackages (launch roots (initial files0)))
              ∧ downloadedPackages (launch roots (initial files0))
                ⊆ downloadedPackages s)); [| |done].
  - split; [|done]. intros p c (l & Hl & _).
    rewrite launch_tree in Hl. cbn in Hl. by rewrite lookup_empty in Hl.
  - intros s0 p s' [Hedges Hsub] Hstep.
    split; [|etrans; [done|by apply (step_mono _ _ _ _ Hstep)]].
    destruct (step_graph _ _ _ _ Hstep) as (ph & keys & _ & Hg).
    intros q c Hedge.
    assert (dependencyTree s' = (claim_all (phase_key ph) keys (graph_of s0)).2)
      as Htree by (by rewrite <- Hg).
    rewrite Htree in Hedge. apply claim_all_edge in Hedge as [Hedge|Hc]; [eauto|].
    cbn in Hc. set_solver.
Qed.

(** ** Runs can be completed *)



(** ** Cycles *)



(** The run that leads to [cycle_state] is over, with [a] and [b] once
    each in the package list. *)
Example cycle_run :
  quiescent cycle_state
  ∧ packageList cycle_state = ["a@1.0.0"; "b@1.0.0"]
  ∧ dependencyTree cycle_state !! "a@1.0.0" = Some ["b@1.0.0"]
  ∧ dependencyTree cycle_state !! "b@1.0.0" = None.
Proof.
  split.
  { unfold quiescent.
    replace (promises cycle_state) with [Resolved; Resolved; Resolved]
      by (by vm_compute).
    by repeat constructor. }
  by vm_compute.
Qed.

(** ** Each key is fetched once *)




(** * Further properties of the code *)

(** ** [parsePackageString] *)

Lemma chars_app (a b : string) : Str.chars (a +:+ b) = Str.chars a ++ Str.chars b.
Proof.
  unfold Str.chars. induction a as [|c a IH]; [reflexivity|].
  rewrite string_app_cons. cbn [String.list_ascii_of_string app]. by rewrite IH.
Qed.

Lemma chars_nil (s : string) : Str.chars s = [] → s = "".
Proof. intros H. by rewrite <- (of_chars_chars s), H. Qed.

Lemma cut_present (c : ascii) (a b : list ascii) :
  c ∉ a → Str.cut c (a ++ c :: b) = (a, Some b).
Proof.
  induction a as [|x a IH]; intros Hc; cbn [app Str.cut].
  - by rewrite Ascii.eqb_refl.
  - apply not_elem_of_cons in Hc as [Hx Ha].
    destruct (Ascii.eqb_spec x c) as [->|_]; [done|]. by rewrite IH.
Qed.

Lemma scoped_match_other_head (s : string) (c : ascii) (r : list ascii) :
  Str.chars s = c :: r → c ≠ "@"%char → scoped_match s = None.
Proof.
  intros Hs Hc. unfold scoped_match. rewrite Hs.
  destruct c as [[] [] [] [] [] [] [] []]; try reflexivity. by destruct Hc.
Qed.

Lemma version_or_latest_nonempty (version : option string) :
  version_or_latest version ≠ "".
Proof.
  unfold version_or_latest. destruct version as [v|]; [|done].
  by destruct (String.eqb_spec v "").
Qed.

(** X1. A plain specifier [name@version], with a non-empty name and no
    further [@], is parsed into its two parts; an empty version part, as in
    [lodash@], gives the tag [latest]. *)
Theorem parse_name_at_version (name version : string) :
  name ≠ "" → "@"%char ∉ Str.chars name → "@"%char ∉ Str.chars version →
  parsePackageString (name +:+ "@" +:+ version)
  = Some (name, if String.eqb version "" then "latest" else version).
Proof.
  intros Hne Hname Hversion.
  destruct (Str.chars name) as [|c r] eqn:Hc; [by apply chars_nil in Hc|].
  assert (c ≠ "@"%char) as Hc'. { intros ->. apply Hname. left. }
  unfold parsePackageString.
  rewrite (scoped_match_other_head _ c (r ++ "@"%char :: Str.chars version)); [|..|done].
  2:{ by rewrite chars_app, Hc. }
  unfold split_at_first_two.
  rewrite chars_app. change (Str.chars ("@" +:+ version)) with ("@"%char :: Str.chars version).
  rewrite Hc, cut_present by done. rewrite cut_absent by done. cbn [fst].
  rewrite <- Hc, !of_chars_chars.
  by destruct (String.eqb_spec name "").
Qed.

Lemma parse_name_at_version_witness :
  parsePackageString ("lodash" +:+ "@" +:+ "4.17.21") = Some ("lodash", "4.17.21")
  ∧ parsePackageString ("lodash" +:+ "@" +:+ "") = Some ("lodash", "latest").
Proof.
  split.
  - apply (parse_name_at_version "lodash" "4.17.21"); [discriminate| |]; cbn; not_in_list.
  - apply (parse_name_at_version "lodash" ""); [discriminate| |]; cbn; not_in_list.
Defined.

(** X2. In a plain specifier everything from a second [@] on is dropped:
    [name@version@rest] is parsed like [name@version]. *)
Theorem parse_drops_after_second_at (name version rest : string) :
  name ≠ "" → "@"%char ∉ Str.chars name → "@"%char ∉ Str.chars version →
  parsePackageString (name +:+ "@" +:+ version +:+ "@" +:+ rest)
  = Some (name, if String.eqb version "" then "latest" else version).
Proof.
  intros Hne Hname Hversion.
  destruct (Str.chars name) as [|c r] eqn:Hc; [by apply chars_nil in Hc|].
  assert (c ≠ "@"%char) as Hc'. { intros ->. apply Hname. left. }
  unfold parsePackageString.
  rewrite (scoped_match_other_head _ c
             (r ++ "@"%char :: Str.chars (version +:+ "@" +:+ rest))); [|..|done].
  2:{ by rewrite chars_app, Hc. }
  unfold split_at_first_two.
  rewrite chars_app.
  change (Str.chars ("@" +:+ version +:+ "@" +:+ rest))
    with ("@"%char :: Str.chars (version +:+ "@" +:+ rest)).
  rewrite Hc, cut_present by done. rewrite chars_app.
  change (Str.chars ("@" +:+ rest)) with ("@"%char :: Str.chars rest).
  rewrite cut_present by done. cbn [fst].
  rewrite <- Hc, !of_chars_chars.
  by destruct (String.eqb_spec name "").
Qed.

Lemma parse_drops_after_second_at_witness :
  parsePackageString ("lodash" +:+ "@" +:+ "4.17.21" +:+ "@" +:+ "beta")
  = Some ("lodash", "4.17.21").
Proof.
  apply (parse_drops_after_second_at "lodash" "4.17.21" "beta");
    [discriminate| |]; cbn; not_in_list.
Defined.

Lemma forallb_no_terminator (l : list ascii) :
  (∀ c, c ∈ l → Str.is_line_terminator c = false) →
  forallb (fun c => negb (Str.is_line_terminator c)) l = true.
Proof.
  intros H. apply forallb_forall. intros c Hc.
  apply list_elem_of_In in Hc. by rewrite (H c Hc).
Qed.

(** X3. A scoped specifier keeps its scope: [@scope/name@version] is parsed
    into the name [@scope/name] and the version, and [@scope/name] alone
    gets the tag [latest].  The version is made of ASCII characters other
    than line terminators, and may itself contain an [@]. *)
Theorem parse_scoped_specifier (scope name version : string) :
  scope ≠ "" → "/"%char ∉ Str.chars scope →
  name ≠ "" → "@"%char ∉ Str.chars name →
  version ≠ "" →
  (∀ c, c ∈ Str.chars version →
        nat_of_ascii c < 128 ∧ Str.is_line_terminator c = false) →
  parsePackageString ("@" +:+ scope +:+ "/" +:+ name +:+ "@" +:+ version)
  = Some ("@" +:+ scope +:+ "/" +:+ name, version)
  ∧ parsePackageString ("@" +:+ scope +:+ "/" +:+ name)
    = Some ("@" +:+ scope +:+ "/" +:+ name, "latest").
Proof.
  intros Hscope Hslash Hname Hat Hversion Hline.
  assert (Str.of_chars ("@"%char :: Str.chars scope ++ "/"%char :: Str.chars name)
          = "@" +:+ scope +:+ "/" +:+ name) as Hjoin.
  { rewrite <- (of_chars_chars ("@" +:+ scope +:+ "/" +:+ name)).
    change (Str.chars ("@" +:+ scope +:+ "/" +:+ name))
      with ("@"%char :: Str.chars (scope +:+ "/" +:+ name)).
    by rewrite chars_app. }
  destruct (Str.chars scope) as [|s0 sr] eqn:Hs; [by apply chars_nil in Hs|].
  destruct (Str.chars name) as [|n0 nr] eqn:Hn; [by apply chars_nil in Hn|].
  destruct (Str.chars version) as [|v0 vr] eqn:Hv; [by apply chars_nil in Hv|].
  split; unfold parsePackageString, scoped_match.
  - change (Str.chars ("@" +:+ scope +:+ "/" +:+ name +:+ "@" +:+ version))
      with ("@"%char :: Str.chars (scope +:+ "/" +:+ name +:+ "@" +:+ version)).
    rewrite chars_app.
    change (Str.chars ("/" +:+ name +:+ "@" +:+ version))
      with ("/"%char :: Str.chars (name +:+ "@" +:+ version)).
    rewrite Hs, cut_present by done.
    rewrite chars_app.
    change (Str.chars ("@" +:+ version)) with ("@"%char :: Str.chars version).
    rewrite Hn, cut_present by done.
    rewrite Hv, forallb_no_terminator by (intros c Hc; by apply Hline).
    rewrite Hjoin. unfold version_or_latest.
    rewrite <- Hv, of_chars_chars. by destruct (String.eqb_spec version "").
  - change (Str.chars ("@" +:+ scope +:+ "/" +:+ name))
      with ("@"%char :: Str.chars (scope +:+ "/" +:+ name)).
    rewrite chars_app.
    change (Str.chars ("/" +:+ name)) with ("/"%char :: Str.chars name).
    rewrite Hs, cut_present by done.
    rewrite Hn, cut_absent by done.
    by rewrite Hjoin.
Qed.

Lemma parse_scoped_specifier_witness :
  parsePackageString ("@" +:+ "element-plus" +:+ "/" +:+ "icons-vue" +:+ "@" +:+ "2.3.0")
  = Some ("@" +:+ "element-plus" +:+ "/" +:+ "icons-vue", "2.3.0")
  ∧ parsePackageString ("@" +:+ "element-plus" +:+ "/" +:+ "icons-vue")
    = Some ("@" +:+ "element-plus" +:+ "/" +:+ "icons-vue", "latest").
Proof.
  apply (parse_scoped_specifier "element-plus" "icons-vue" "2.3.0");
    try discriminate; try (cbn; not_in_list).
  intros c Hc. cbn in Hc.
  repeat (apply elem_of_cons in Hc as [->|Hc]; [split; [apply Nat.ltb_lt; reflexivity|reflexivity]|]).
  by apply elem_of_nil in Hc.
Defined.

Lemma scoped_match_name (s name : string) (version : option string) :
  scoped_match s = Some (name, version) → name ≠ "".
Proof.
  unfold scoped_match. destruct (Str.chars s) as [|c r]; [done|].
  destruct c as [[] [] [] [] [] [] [] []]; try done.
  destruct (Str.cut "/" r) as [scope [r1|]]; [|done].
  destruct scope as [|s0 scope]; [done|].
  destruct (Str.cut "@" r1) as [[|p0 pkg] [[|v0 ver]|]]; try done.
  - destruct (forallb _ _); [|done]. intros [= <- _]. discriminate.
  - intros [= <- _]. discriminate.
Qed.

(** X4. Whenever [parsePackageString] returns, neither the name nor the
    version of its result is empty. *)
Theorem parse_result_nonempty (packageString name version : string) :
  parsePackageString packageString = Some (name, version) →
  name ≠ "" ∧ version ≠ "".
Proof.
  unfold parsePackageString.
  destruct (scoped_match packageString) as [[n v]|] eqn:Hm.
  - intros [= <- <-]. split; [by eapply scoped_match_name|].
    apply version_or_latest_nonempty.
  - destruct (split_at_first_two packageString) as [n v].
    destruct (String.eqb_spec n ""); [done|].
    intros [= <- <-]. split; [done|]. apply version_or_latest_nonempty.
Qed.

Lemma parse_result_nonempty_witness :
  ("lodash" : string) ≠ "" ∧ ("latest" : string) ≠ "".
Proof. apply (parse_result_nonempty "lodash@"). reflexivity. Defined.

(** X5. A specifier that starts with [@] but has no [/] after it, such as
    [@1.0.0] or [@scope], is rejected, and so are a scope without a package
    name ([@scope/]) and the empty string. *)
Theorem parse_rejects_unnamed (text : string) :
  "/"%char ∉ Str.chars text →
  parsePackageString ("@" +:+ text) = None
  ∧ parsePackageString ("@" +:+ text +:+ "/") = None
  ∧ parsePackageString "" = None.
Proof.
  intros Hslash. split; [|split]; [| |reflexivity].
  - unfold parsePackageString, scoped_match, split_at_first_two.
    change (Str.chars ("@" +:+ text)) with ("@"%char :: Str.chars text).
    cbv beta iota.
    rewrite (cut_absent "/" (Str.chars text)) by done. cbn [Str.cut]. by rewrite Ascii.eqb_refl.
  - unfold parsePackageString, scoped_match, split_at_first_two.
    change (Str.chars ("@" +:+ text +:+ "/")) with ("@"%char :: Str.chars (text +:+ "/")).
    rewrite chars_app. change (Str.chars "/") with ["/"%char].
    cbv beta iota. rewrite (cut_present "/" (Str.chars text) []) by done.
    destruct (Str.chars text); cbn [Str.cut]; by rewrite Ascii.eqb_refl.
Qed.

Lemma parse_rejects_unnamed_witness :
  parsePackageString ("@" +:+ "1.0.0") = None
  ∧ parsePackageString ("@" +:+ "1.0.0" +:+ "/") = None
  ∧ parsePackageString "" = None.
Proof. apply (parse_rejects_unnamed "1.0.0"). cbn. not_in_list. Defined.

(** ** The download directory *)

Lemma call_files n v parent s :
  files (downloadPackageAndDependencies n v parent s).1 = files s.
Proof. unfold downloadPackageAndDependencies. by case_decide. Qed.

Lemma call_all_files entries parent s : files (call_all entries parent s).1 = files s.
Proof.
  apply (call_all_invariant (fun s' => files s' = files s)); [done|].
  intros s' n v Hs' _. by rewrite call_files.
Qed.

Lemma after_download_files n v deps s : files (after_download n v deps s).1 = files s.
Proof. by rewrite after_download_state, call_all_files. Qed.

(** What a call, and the calls for a list of dependencies, add to the trace
    and to the pool. *)
Lemma call_delta n v parent s :
  ∃ es news,
    trace (downloadPackageAndDependencies n v parent s).1 = trace s ++ es
    ∧ promises (downloadPackageAndDependencies n v parent s).1 = promises s ++ news
    ∧ (∀ e, e ∈ es → ∃ n' v', e = EvMetadataRequest n' v')
    ∧ (∀ ph, ph ∈ news → ph = Resolved ∨ ∃ n' v', ph = AwaitMetadata n' v').
Proof.
  unfold downloadPackageAndDependencies. case_decide.
  - exists [], [Resolved]. cbn. rewrite app_nil_r. split_and!; [done..| |].
    + by intros e ?%elem_of_nil.
    + intros ph ->%list_elem_of_singleton. by left.
  - exists [EvMetadataRequest n v], [AwaitMetadata n v]. cbn. split_and!; [done..| |].
    + intros e ->%list_elem_of_singleton. eauto.
    + intros ph ->%list_elem_of_singleton. eauto.
Qed.

Lemma call_all_delta entries parent s :
  ∃ es news,
    trace (call_all entries parent s).1 = trace s ++ es
    ∧ promises (call_all entries parent s).1 = promises s ++ news
    ∧ (∀ e, e ∈ es → ∃ n' v', e = EvMetadataRequest n' v')
    ∧ (∀ ph, ph ∈ news → ph = Resolved ∨ ∃ n' v', ph = AwaitMetadata n' v').
Proof.
  apply (call_all_invariant (fun s' => ∃ es news,
    trace s' = trace s ++ es ∧ promises s' = promises s ++ news
    ∧ (∀ e, e ∈ es → ∃ n' v', e = EvMetadataRequest n' v')
    ∧ (∀ ph, ph ∈ news → ph = Resolved ∨ ∃ n' v', ph = AwaitMetadata n' v'))).
  - exists [], []. rewrite !app_nil_r. split_and!; [done..| |]; by intros ? ?%elem_of_nil.
  - intros s' n v (es & news & Ht & Hp & Hes & Hnews) _.
    destruct (call_delta n v (Some parent) s') as (es' & news' & Ht' & Hp' & Hes' & Hnews').
    exists (es ++ es'), (news ++ news').
    rewrite Ht', Hp', Ht, Hp, <- !app_assoc. split_and!; [done..| |].
    + intros e [?|?]%elem_of_app; auto.
    + intros ph [?|?]%elem_of_app; auto.
Qed.

Lemma after_download_delta n v deps s :
  ∃ es news,
    trace (after_download n v deps s).1 = trace s ++ es
    ∧ promises (after_download n v deps s).1 = promises s ++ news
    ∧ (∀ e, e ∈ es → (∃ n' r, e = EvInvalidRange n' r) ∨ ∃ n' v', e = EvMetadataRequest n' v')
    ∧ (∀ ph, ph ∈ news → ph = Resolved ∨ ∃ n' v', ph = AwaitMetadata n' v').
Proof.
  rewrite after_download_state.
  destruct (call_all_delta (getAllDependencies deps).1 (packageKey_of n v)
              (emit_all (getAllDependencies deps).2 s))
    as (es & news & Ht & Hp & Hes & Hnews).
  exists ((getAllDependencies deps).2 ++ es), news.
  rewrite Ht, Hp. cbn [trace promises emit_all]. rewrite <- app_assoc.
  split_and!; [done..| |done].
  intros e [He|He]%elem_of_app; [left|right; auto].
  by apply getAllDependencies_events in He.
Qed.

Lemma lookup_set_promise p ph' s q ph :
  promises (set_promise p ph' s) !! q = Some ph →
  (q = p ∧ ph = ph') ∨ (q ≠ p ∧ promises s !! q = Some ph).
Proof.
  cbn [promises set_promise]. intros Hq.
  destruct (decide (q = p)) as [->|Hne].
  - left. split; [done|].
    pose proof (lookup_lt_Some _ _ _ Hq) as Hlt. rewrite length_insert in Hlt.
    rewrite list_lookup_insert_eq in Hq by done. congruence.
  - right. by rewrite list_lookup_insert_ne in Hq.
Qed.

Lemma lookup_new_promise l news q (ph : phase) :
  (l ++ news) !! q = Some ph →
  (∀ ph0, ph0 ∈ news → ph0 = Resolved ∨ ∃ n v, ph0 = AwaitMetadata n v) →
  l !! q = Some ph ∨ ph = Resolved ∨ ∃ n v, ph = AwaitMetadata n v.
Proof.
  intros [Hq|[_ Hq]]%lookup_app_Some Hnews; [by left|right].
  apply Hnews. by eapply list_elem_of_lookup_2.
Qed.

(** The part of [directory] that does not concern the pool is kept by what
    adds neither files nor archive events. *)
Lemma directory_quiet files0 s s1 es news :
  directory files0 s →
  files s1 = files s → trace s1 = trace s ++ es → promises s1 = promises s ++ news →
  (∀ e, e ∈ es → (∀ n v url, e ≠ EvTarballRequest n v url) ∧ ∀ f, e ≠ EvSkipTarball f) →
  (∀ ph, ph ∈ news → ph = Resolved ∨ ∃ n v, ph = AwaitMetadata n v) →
  directory files0 s1.
Proof.
  intros [Hk Ho Hr Hs Ht Hst] Hf Htr Hp Hes Hnews.
  constructor; rewrite ?Hf, ?Htr, ?Hp.
  - done.
  - intros f [?|(n & v & url & ? & ?)]%Ho; [by left|right].
    exists n, v, url. split; [|done]. apply elem_of_app. by left.
  - intros n v url [?|He]%elem_of_app; [eauto|]. by destruct (proj1 (Hes _ He) n v url).
  - intros f [?|He]%elem_of_app; [eauto|]. by destruct (proj2 (Hes _ He) f).
  - intros p n v deps Hq.
    destruct (lookup_new_promise _ _ _ _ Hq Hnews) as [Hq'|[?|(? & ? & ?)]]; [|done..].
    destruct (Ht _ _ _ _ Hq') as [url ?]. exists url. apply elem_of_app. by left.
  - intros p n v deps Hq.
    destruct (lookup_new_promise _ _ _ _ Hq Hnews) as [Hq'|[?|(? & ? & ?)]]; [|done..].
    eauto.
Qed.

Lemma directory_set_promise files0 p ph' s :
  directory files0 s →
  (∀ n v deps, ph' = AwaitTarball n v deps → ∃ url, EvTarballRequest n v url ∈ trace s) →
  (∀ n v deps, ph' = AwaitStream n v deps → fileName_of n v ∈ files s) →
  directory files0 (set_promise p ph' s).
Proof.
  intros [Hk Ho Hr Hs Ht Hst] Htar Hstr. constructor; try done.
  - intros q n v deps [[_ Hq]|[_ Hq]]%lookup_set_promise; eauto.
  - intros q n v deps [[_ Hq]|[_ Hq]]%lookup_set_promise; eauto.
Qed.

Lemma directory_call files0 n v parent s :
  directory files0 s → directory files0 (downloadPackageAndDependencies n v parent s).1.
Proof.
  intros Hd. destruct (call_delta n v parent s) as (es & news & Ht & Hp & Hes & Hnews).
  apply (directory_quiet files0 s _ es news); try done; [apply call_files|].
  intros e (n' & v' & ->)%Hes. by split.
Qed.

Lemma directory_after_download files0 n v deps s :
  directory files0 s → directory files0 (after_download n v deps s).1.
Proof.
  intros Hd.
  destruct (after_download_delta n v deps s) as (es & news & Ht & Hp & Hes & Hnews).
  apply (directory_quiet files0 s _ es news); try done; [apply after_download_files|].
  intros e [(n' & r & ->)|(n' & v' & ->)]%Hes; by split.
Qed.

Lemma directory_error files0 k message s :
  directory files0 s → directory files0 (emit (EvError k message) s).
Proof.
  intros Hd. apply (directory_quiet files0 s _ [EvError k message] []); try done.
  - cbn. by rewrite app_nil_r.
  - intros e ->%list_elem_of_singleton. by split.
  - by intros ph ?%elem_of_nil.
Qed.

Lemma directory_audit files0 k l s :
  directory files0 s → directory files0 (audit_license k l s).
Proof.
  intros Hd. apply (directory_quiet files0 s _ (audit_events k l) []); try done.
  - apply files_audit_license.
  - apply trace_audit_license.
  - autorewrite with fields. by rewrite app_nil_r.
  - unfold audit_events. destruct (isCommercialFriendly l).
    + by intros e ?%elem_of_nil.
    + intros e ->%list_elem_of_singleton. by split.
  - by intros ph ?%elem_of_nil.
Qed.

Lemma next_batch_not_download k ps i :
  (∀ n v deps, next_batch k ps i ≠ AwaitTarball n v deps)
  ∧ (∀ n v deps, next_batch k ps i ≠ AwaitStream n v deps).
Proof. by destruct (next_batch_cases k ps i) as [-> | ->]. Qed.

Lemma directory_step env files0 s p s' :
  directory files0 s → step env s p = Some s' → directory files0 s'.
Proof.
  intros Hd (ph & s1 & ph' & Hp & Hr & ->)%step_resumes.
  destruct Hr as [n v message Hreg|n v m Hreg Hdist|n v m url Hreg Hdist Hf
                 |n v m url Hreg Hdist Hf|n v deps message Harch|n v deps Harch
                 |n v deps message Harch|n v deps Harch|n v deps
                 |k ps i message Hall|k ps i Hall].
  - apply directory_set_promise; [by apply directory_error|done..].
  - apply directory_set_promise; [by apply directory_error, directory_audit|done..].
  - apply directory_set_promise; [|done..].
    apply (directory_audit files0 (packageKey_of n v) (license m)) in Hd.
    rewrite <- (files_audit_license (packageKey_of n v) (license m)) in Hf.
    destruct Hd as [Hk Ho Hr Hs Ht Hst]. constructor; cbn [files trace promises emit]; try done.
    + intros f [?|(n' & v' & url' & ? & ?)]%Ho; [by left|right].
      exists n', v', url'. split; [|done]. apply elem_of_app. by left.
    + intros n' v' url' [?|?%list_elem_of_singleton]%elem_of_app; [eauto|done].
    + intros f [?|Hin%list_elem_of_singleton]%elem_of_app; [eauto|]. by simplify_eq.
    + intros q n' v' deps Hq. destruct (Ht _ _ _ _ Hq) as [url' ?].
      exists url'. apply elem_of_app. by left.
  - apply (directory_audit files0 (packageKey_of n v) (license m)) in Hd.
    rewrite <- (files_audit_license (packageKey_of n v) (license m)) in Hf.
    assert (directory files0
              (emit (EvTarballRequest n v url)
                 (audit_license (packageKey_of n v) (license m) s))) as Hd'.
    { destruct Hd as [Hk Ho Hr Hs Ht Hst].
      constructor; cbn [files trace promises emit]; try done.
      - intros f [?|(n' & v' & url' & ? & ?)]%Ho; [by left|right].
        exists n', v', url'. split; [|done]. apply elem_of_app. by left.
      - intros n' v' url' [?|Hin%list_elem_of_singleton]%elem_of_app; [eauto|].
        simplify_eq. intros Hin. apply Hf. by apply Hk.
      - intros f [?|?%list_elem_of_singleton]%elem_of_app; [eauto|done].
      - intros q n' v' deps Hq. destruct (Ht _ _ _ _ Hq) as [url' ?].
        exists url'. apply elem_of_app. by left. }
    apply directory_set_promise; [done| |done].
    intros n' v' deps [= <- <- _]. exists url. cbn. apply elem_of_app. right. left.
  - apply directory_set_promise; [by apply directory_error|done..].
  - destruct (directory_tarball _ _ Hd _ _ _ _ Hp) as [url Hurl].
    apply directory_set_promise.
    + destruct Hd as [Hk Ho Hr Hs Ht Hst].
      constructor; cbn [files trace promises add_file]; try done.
      * set_solver.
      * intros f [->%elem_of_singleton|Hin]%elem_of_union; [|auto].
        right. by exists n, v, url.
      * intros f Hin. apply elem_of_union. right. auto.
      * intros q n' v' deps' Hq. apply elem_of_union. right. eauto.
    + done.
    + intros n' v' deps' [= <- <- _]. cbn. set_solver.
  - apply directory_set_promise; [by apply directory_error|done..].
  - pose proof (next_batch_not_download (packageKey_of n v)
      (call_all (getAllDependencies deps).1 (packageKey_of n v)
         (emit_all (getAllDependencies deps).2 s)).2 0) as [H1 H2].
    apply directory_set_promise; [by apply directory_after_download|..].
    + intros n' v' deps' E. by destruct (H1 n' v' deps').
    + intros n' v' deps' E. by destruct (H2 n' v' deps').
  - pose proof (next_batch_not_download (packageKey_of n v)
      (call_all (getAllDependencies deps).1 (packageKey_of n v)
         (emit_all (getAllDependencies deps).2 s)).2 0) as [H1 H2].
    apply directory_set_promise; [by apply directory_after_download|..].
    + intros n' v' deps' E. by destruct (H1 n' v' deps').
    + intros n' v' deps' E. by destruct (H2 n' v' deps').
  - apply directory_set_promise; [by apply directory_error|done..].
  - pose proof (next_batch_not_download k ps (i + CONCURRENCY)) as [H1 H2].
    apply directory_set_promise; [done|..].
    + intros n' v' deps' E. by destruct (H1 n' v' deps').
    + intros n' v' deps' E. by destruct (H2 n' v' deps').
Qed.

Lemma directory_initial files0 : directory files0 (initial files0).
Proof.
  constructor; cbn; try done.
  - auto.
  - by intros n v url ?%elem_of_nil.
  - by intros f ?%elem_of_nil.
Qed.

Lemma reachable_directory env files0 roots s :
  reachable env files0 roots s → directory files0 s.
Proof.
  apply reachable_invariant.
  - apply launch_invariant; [apply directory_initial|].
    intros s' n v Hs'. by apply directory_call.
  - intros s1 p s2. apply directory_step.
Qed.

Lemma step_files env s p s' : step env s p = Some s' → files s ⊆ files s'.
Proof.
  intros (ph & s1 & ph' & Hp & Hr & ->)%step_resumes. cbn [files set_promise].
  destruct Hr; cbn [files emit add_file];
    rewrite ?files_audit_license, ?after_download_files; set_solver.
Qed.

Lemma run_files env schedule s s' : run env schedule s = Some s' → files s ⊆ files s'.
Proof.
  revert s. induction schedule as [|p rest IH]; intros s; cbn.
  - by intros [= ->].
  - destruct (step env s p) as [s1|] eqn:Hstep; [|done].
    intros Hrun. etrans; [by eapply step_files|by apply IH].
Qed.

(** X6. The name of an archive file never contains a [/], whatever the
    package name and the version are: the file is always created directly
    in the download directory. *)
Theorem file_name_has_no_slash (packageName version : string) :
  "/"%char ∉ Str.chars (fileName_of packageName version).
Proof.
  unfold fileName_of, Str.replace_all. rewrite chars_of_chars.
  intros (c & Hc & _)%list_elem_of_fmap.
  destruct (Ascii.eqb_spec c "/"); [done|]. by subst.
Qed.

(** X7. Two names that differ only by a [/] against a [-] share their
    archive file: [@scope/name] and [@scope-name] at the same version are
    written to, and looked up at, the same file name. *)
Theorem file_name_collision (scope name version : string) :
  fileName_of (scope +:+ "/" +:+ name) version
  = fileName_of (scope +:+ "-" +:+ name) version.
Proof.
  unfold fileName_of, Str.replace_all. f_equal.
  rewrite <- !string_app_assoc, !chars_app, !fmap_app. reflexivity.
Qed.

(** X8. An archive whose file is in the download directory when the run
    starts is never requested, in any state of any run. *)
Theorem existing_file_is_never_requested (env : environment) (files0 : gset string)
    (roots : list (string * string)) (s : state) (packageName version url : string) :
  reachable env files0 roots s →
  fileName_of packageName version ∈ files0 →
  EvTarballRequest packageName version url ∉ trace s.
Proof.
  intros Hs Hfile Hin. apply reachable_directory in Hs.
  by apply (directory_requested _ _ Hs packageName version url).
Qed.

Lemma existing_file_is_never_requested_witness :
  EvTarballRequest "lodash" "4.17.21" "http://registry/lodash-4.17.21.tgz"
  ∉ trace (default (initial {["lodash-4.17.21.tgz"]})
             (run lodash_env [0; 0]
                (launch [("lodash", "4.17.21")] (initial {["lodash-4.17.21.tgz"]})))).
Proof.
  apply (existing_file_is_never_requested lodash_env {["lodash-4.17.21.tgz"]}
           [("lodash", "4.17.21")]).
  - by exists [0; 0].
  - by apply elem_of_singleton.
Defined.

(** X9. A download is skipped only for a file that was in the directory
    when the run started or that belongs to an archive requested earlier in
    the same run; after [--clear], only the second case is left. *)
Theorem skipped_file_origin (env : environment) (files0 : gset string)
    (roots : list (string * string)) (s : state) (fileName : string) :
  reachable env files0 roots s →
  EvSkipTarball fileName ∈ trace s →
  fileName ∈ files0
  ∨ ∃ n v url, EvTarballRequest n v url ∈ trace s ∧ fileName_of n v = fileName.
Proof.
  intros Hs Hin. apply reachable_directory in Hs.
  apply (directory_origin _ _ Hs). by apply (directory_skipped _ _ Hs).
Qed.

Lemma skipped_file_origin_witness :
  ("lodash-4.17.21.tgz" : string) ∈ ({["lodash-4.17.21.tgz"]} : gset string)
  ∨ ∃ n v url,
      EvTarballRequest n v url
      ∈ trace (default (initial {["lodash-4.17.21.tgz"]})
                 (run lodash_env [0]
                    (launch [("lodash", "4.17.21")] (initial {["lodash-4.17.21.tgz"]}))))
      ∧ fileName_of n v = "lodash-4.17.21.tgz".
Proof.
  apply (skipped_file_origin lodash_env {["lodash-4.17.21.tgz"]} [("lodash", "4.17.21")]).
  - by exists [0].
  - vm_compute. apply elem_of_list_here || (right; left).
Defined.

(** X10. Once the response to an archive request has arrived, the file of
    the archive stays in the download directory for the rest of the run,
    whether the stream ends or fails: a partial file is not removed. *)
Theorem partial_file_is_kept (env : environment) (files0 : gset string)
    (roots : list (string * string)) (s s' : state) (p : nat)
    (packageName version : string) (deps : list (string * string))
    (schedule : list nat) :
  reachable env files0 roots s →
  promises s !! p = Some (AwaitStream packageName version deps) →
  run env schedule s = Some s' →
  fileName_of packageName version ∈ files s'.
Proof.
  intros Hs Hp Hrun. apply reachable_directory in Hs.
  apply (run_files _ _ _ _ Hrun). by apply (directory_stream _ _ Hs p _ _ deps).
Qed.

Lemma partial_file_is_kept_witness :
  fileName_of "lodash" "4.17.21"
  ∈ files (default (initial ∅)
             (run broken_stream_env [0; 0; 0] (launch [("lodash", "4.17.21")] (initial ∅)))).
Proof.
  apply (partial_file_is_kept broken_stream_env ∅ [("lodash", "4.17.21")]
           (default (initial ∅)
              (run broken_stream_env [0; 0] (launch [("lodash", "4.17.21")] (initial ∅))))
           _ 0 "lodash" "4.17.21" [] [0]).
  - by exists [0; 0].
  - reflexivity.
  - reflexivity.
Defined.

(** ** [getAllDependencies] on any object *)

Lemma assign_keys (o : list (string * string)) (k v : string) :
  (assign o k v).*1 = if decide (k ∈ o.*1) then o.*1 else o.*1 ++ [k].
Proof.
  induction o as [|[k' v'] o IH]; cbn [assign fmap list_fmap].
  - by rewrite decide_False by apply not_elem_of_nil.
  - destruct (decide (k' = k)) as [->|Hne].
    + rewrite decide_True by left. done.
    + cbn [fmap list_fmap]. change (list_fmap _ _ fst (assign o k v)) with (assign o k v).*1.
      rewrite IH. destruct (decide (k ∈ o.*1)) as [Hin|Hnin].
      * rewrite decide_True by (by right). done.
      * rewrite decide_False; [done|]. intros [?|?]%elem_of_cons; by simplify_eq.
Qed.

Lemma elem_of_assign (o : list (string * string)) (k v : string) (e : string * string) :
  e ∈ assign o k v → e ∈ o ∨ e = (k, v).
Proof.
  induction o as [|[k' v'] o IH]; cbn [assign].
  - intros ->%list_elem_of_singleton. by right.
  - destruct (decide (k' = k)) as [->|Hne].
    + intros [->|?]%elem_of_cons; [by right|left; by right].
    + intros [->|[?|?]%IH]%elem_of_cons; [left; left|left; by right|by right].
Qed.

Lemma assign_key_in (o : list (string * string)) (k v : string) : k ∈ (assign o k v).*1.
Proof.
  rewrite assign_keys. case_decide; [done|]. apply elem_of_app. right. left.
Qed.

Lemma assign_keys_mono (o : list (string * string)) (k v x : string) :
  x ∈ o.*1 → x ∈ (assign o k v).*1.
Proof.
  intros Hx. rewrite assign_keys. case_decide; [done|]. apply elem_of_app. by left.
Qed.

Lemma obj_set_proto (o : list (string * string)) (v : string) :
  obj_set o "__proto__" v = o.
Proof. reflexivity. Qed.

Lemma obj_set_other (o : list (string * string)) (k v : string) :
  k ≠ "__proto__" → obj_set o k v = assign o k v.
Proof. intros Hk. unfold obj_set. by rewrite decide_False. Qed.

(** The loop of [getAllDependencies], from any point on. *)
Lemma getAllDependencies_loop (all deps acc : list (string * string)) (out : list event) :
  deps ⊆ all →
  NoDup acc.*1 → "__proto__" ∉ acc.*1 →
  (∀ n v, (n, v) ∈ acc → ∃ r, (n, r) ∈ all ∧ Semver.normalize r = Some v) →
  let result :=
    fold_left
      (fun '(allDependencies, out) '(name, versionRange) =>
         match Semver.normalize versionRange with
         | Some normalizedVersion => (obj_set allDependencies name normalizedVersion, out)
         | None => (allDependencies, out ++ [EvInvalidRange name versionRange])
         end)
      deps (acc, out) in
  NoDup (result.1).*1 ∧ ("__proto__" ∉ (result.1).*1)
  ∧ (∀ n v, (n, v) ∈ result.1 → ∃ r, (n, r) ∈ all ∧ Semver.normalize r = Some v)
  ∧ (∀ n, n ∈ acc.*1 → n ∈ ((result.1).*1))
  ∧ (∀ n r, (n, r) ∈ deps → n ≠ "__proto__" → is_Some (Semver.normalize r) →
            n ∈ ((result.1).*1))
  ∧ result.2 = out ++ omap skipped_entry deps.
Proof.
  revert acc out. induction deps as [|[n r] deps IH]; intros acc out Hsub Hnd Hproto Hsrc.
  - cbn. rewrite app_nil_r. split_and!; try done. by intros n r ?%elem_of_nil.
  - cbn [fold_left]. cbn zeta.
    assert (deps ⊆ all) as Hsub'. { intros e He. apply Hsub. by right. }
    assert ((n, r) ∈ all) as Hnr. { apply Hsub. left. }
    destruct (Semver.normalize r) as [v|] eqn:Hnorm.
    + destruct (decide (n = "__proto__")) as [->|Hne].
      * rewrite (obj_set_proto acc v).
        destruct (IH acc out Hsub' Hnd Hproto Hsrc) as (H1 & H2 & H3 & H4 & H5 & H6).
        split_and!; try done.
        -- intros n' r' [E|Hin]%elem_of_cons Hn' Hsome; [by simplify_eq|eauto].
        -- rewrite H6. unfold skipped_entry at 2. cbn [omap list_omap snd]. by rewrite Hnorm.
      * rewrite (obj_set_other acc n v Hne).
        destruct (IH (assign acc n v) out Hsub') as (H1 & H2 & H3 & H4 & H5 & H6).
        { rewrite assign_keys. case_decide as Hin; [done|].
          apply NoDup_app. split_and!; [done| |apply NoDup_singleton].
          intros x Hx ->%list_elem_of_singleton. done. }
        { rewrite assign_keys. case_decide as Hin; [done|].
          intros [?|?%list_elem_of_singleton]%elem_of_app; done. }
        { intros n' v' [Hin|E]%elem_of_assign; [eauto|]. simplify_eq. eauto. }
        split_and!; try done.
        -- intros n' Hn'. by apply H4, assign_keys_mono.
        -- intros n' r' [E|Hin]%elem_of_cons Hn' Hsome; [|eauto].
           simplify_eq. apply H4, assign_key_in.
        -- rewrite H6. unfold skipped_entry at 2. cbn [omap list_omap snd]. by rewrite Hnorm.
    + destruct (IH acc (out ++ [EvInvalidRange n r]) Hsub' Hnd Hproto Hsrc)
        as (H1 & H2 & H3 & H4 & H5 & H6).
      split_and!; try done.
      * intros n' r' [E|Hin]%elem_of_cons Hn' Hsome; [|eauto].
        simplify_eq. rewrite Hnorm in Hsome. by destruct Hsome.
      * rewrite H6, <- app_assoc. unfold skipped_entry at 2.
        cbn [omap list_omap snd fst]. by rewrite Hnorm.
Qed.

(** X11. For every dependencies object, the names of the result of
    [getAllDependencies] are distinct, [__proto__] is never one of them, and
    a name is in the result exactly when it is not [__proto__] and one of
    its entries has a version range that can be coerced; the version kept
    for a name is the coerced range of one of its entries. *)
Theorem coerced_dependency_names (deps : list (string * string)) :
  NoDup ((getAllDependencies deps).1).*1
  ∧ ("__proto__" ∉ ((getAllDependencies deps).1).*1)
  ∧ (∀ n, n ∈ (((getAllDependencies deps).1).*1) ↔
          n ≠ "__proto__" ∧ ∃ r, (n, r) ∈ deps ∧ is_Some (Semver.normalize r))
  ∧ (∀ n v, (n, v) ∈ (getAllDependencies deps).1 →
            ∃ r, (n, r) ∈ deps ∧ Semver.normalize r = Some v).
Proof.
  destruct (getAllDependencies_loop deps deps [] []) as (H1 & H2 & H3 & H4 & H5 & H6).
  { done. } { constructor. } { apply not_elem_of_nil. } { by intros n v ?%elem_of_nil. }
  fold (getAllDependencies deps) in H1, H2, H3, H4, H5, H6.
  split_and!; try done.
  intros n. split.
  - intros Hn. split; [by intros ->|].
    apply list_elem_of_fmap in Hn as ([n' v] & -> & Hin).
    destruct (H3 _ _ Hin) as (r & Hr & Hnorm). exists r. by rewrite Hnorm.
  - intros (Hn & r & Hr & Hsome). eauto.
Qed.

Lemma skipped_entries_reported (deps : list (string * string)) :
  (getAllDependencies deps).2 = omap skipped_entry deps
  ∧ ∀ n r, EvInvalidRange n r ∈ (getAllDependencies deps).2 ↔
           (n, r) ∈ deps ∧ Semver.normalize r = None.
Proof.
  destruct (getAllDependencies_loop deps deps [] []) as (H1 & H2 & H3 & H4 & H5 & H6).
  { done. } { constructor. } { apply not_elem_of_nil. } { by intros n v ?%elem_of_nil. }
  fold (getAllDependencies deps) in H1, H2, H3, H4, H5, H6. cbn [app] in H6.
  split; [done|].
  intros n r. rewrite H6, list_elem_of_omap. unfold skipped_entry. split.
  - intros ([n' r'] & Hin & He). cbn [fst snd] in He.
    destruct (Semver.normalize r') eqn:Hnorm; [done|]. by simplify_eq.
  - intros [Hin Hnorm]. exists (n, r). cbn [fst snd]. by rewrite Hnorm.
Qed.

(** X12. [getAllDependencies] prints one warning for every entry whose
    version range cannot be coerced, in the order of the entries, and
    nothing else; an entry named [__proto__] with a valid range is dropped
    without a warning. *)
Theorem invalid_ranges_are_reported (deps : list (string * string)) :
  (getAllDependencies deps).2 = omap skipped_entry deps
  ∧ (∀ n r, EvInvalidRange n r ∈ (getAllDependencies deps).2 ↔
            (n, r) ∈ deps ∧ Semver.normalize r = None)
  ∧ (∀ r, is_Some (Semver.normalize r) →
          getAllDependencies (deps ++ [("__proto__", r)]) = getAllDependencies deps).
Proof.
  destruct (skipped_entries_reported deps) as [H1 H2].
  split_and!; [done..|].
  intros r [v Hv]. unfold getAllDependencies. rewrite fold_left_app.
  destruct (fold_left _ deps ([], [])) as [acc out]. cbn [fold_left].
  by rewrite Hv.
Qed.

(** ** Package keys *)

Lemma chars_inj (a b : string) : Str.chars a = Str.chars b → a = b.
Proof. intros H. by rewrite <- (of_chars_chars a), <- (of_chars_chars b), H. Qed.

Lemma last_separator (c : ascii) (a1 a2 b1 b2 : list ascii) :
  c ∉ b1 → c ∉ b2 → a1 ++ c :: b1 = a2 ++ c :: b2 → a1 = a2 ∧ b1 = b2.
Proof.
  revert a2. induction a1 as [|x a1 IH]; intros a2 H1 H2 E.
  - destruct a2 as [|y a2]; cbn in E; [by simplify_eq|].
    simplify_eq. destruct H1. apply elem_of_app. right. left.
  - destruct a2 as [|y a2]; cbn in E.
    + simplify_eq. destruct H2. apply elem_of_app. right. left.
    + simplify_eq. by destruct (IH a2 H1 H2) as [-> ->].
Qed.

(** X13. Two packages whose versions contain no [@] have the same package
    key only when they have the same name and the same version, so that the
    set of claimed keys never takes one such package for another. *)
Theorem package_key_injective (n1 v1 n2 v2 : string) :
  "@"%char ∉ Str.chars v1 → "@"%char ∉ Str.chars v2 →
  packageKey_of n1 v1 = packageKey_of n2 v2 → n1 = n2 ∧ v1 = v2.
Proof.
  intros H1 H2 E. apply (f_equal Str.chars) in E. unfold packageKey_of in E.
  rewrite !chars_app in E.
  change (Str.chars ("@" +:+ v1)) with ("@"%char :: Str.chars v1) in E.
  change (Str.chars ("@" +:+ v2)) with ("@"%char :: Str.chars v2) in E.
  destruct (last_separator _ _ _ _ _ H1 H2 E) as [En Ev].
  split; by apply chars_inj.
Qed.

Lemma package_key_injective_witness :
  ("lodash" : string) = "lodash" ∧ ("4.17.21" : string) = "4.17.21".
Proof.
  apply (package_key_injective "lodash" "4.17.21" "lodash" "4.17.21");
    [cbn; not_in_list..|reflexivity].
Defined.

(** ** The lists of the report as logs of the trace *)

Lemma call_licenseWarnings n v parent s :
  licenseWarnings (downloadPackageAndDependencies n v parent s).1 = licenseWarnings s.
Proof. unfold downloadPackageAndDependencies. by case_decide. Qed.

Lemma call_all_licenseWarnings entries parent s :
  licenseWarnings (call_all entries parent s).1 = licenseWarnings s.
Proof.
  apply (call_all_invariant (fun s' => licenseWarnings s' = licenseWarnings s)); [done|].
  intros s' n v Hs' _. by rewrite call_licenseWarnings.
Qed.

Lemma after_download_licenseWarnings n v deps s :
  licenseWarnings (after_download n v deps s).1 = licenseWarnings s.
Proof. by rewrite after_download_state, call_all_licenseWarnings. Qed.

Lemma licenseWarnings_audit_license k l s :
  licenseWarnings (audit_license k l s)
  = licenseWarnings s ++ omap printed_warning (audit_events k l).
Proof.
  unfold audit_license, audit_events.
  destruct (isCommercialFriendly l); cbn; by rewrite ?app_nil_r.
Qed.

Lemma audit_events_keys k l : omap requested_key (audit_events k l) = [].
Proof. unfold audit_events. by destruct (isCommercialFriendly l). Qed.

Lemma logs_call n v parent s :
  logs s → logs (downloadPackageAndDependencies n v parent s).1.
Proof.
  intros [Hl Hw]. unfold downloadPackageAndDependencies, logs.
  case_decide; cbn [fst new_promise packageList licenseWarnings trace]; [done|].
  rewrite !omap_app, Hl, Hw. cbn. by rewrite app_nil_r.
Qed.

Lemma omap_none {A B : Type} (f : A → option B) (l : list A) :
  (∀ x, x ∈ l → f x = None) → omap f l = [].
Proof.
  induction l as [|x l IH]; intros H; [done|].
  cbn [omap list_omap]. rewrite (H x) by left. apply IH. intros y Hy. apply H. by right.
Qed.

Lemma logs_invalid_ranges deps :
  omap requested_key (getAllDependencies deps).2 = []
  ∧ omap printed_warning (getAllDependencies deps).2 = [].
Proof.
  split; apply omap_none; intros e He;
    by destruct (getAllDependencies_events _ _ He) as (n & r & ->).
Qed.

Lemma logs_after_download n v deps s : logs s → logs (after_download n v deps s).1.
Proof.
  intros [Hl Hw]. rewrite after_download_state.
  apply (call_all_invariant logs).
  - unfold logs. cbn [packageList licenseWarnings trace emit_all].
    destruct (logs_invalid_ranges deps) as [E1 E2].
    by rewrite !omap_app, E1, E2, !app_nil_r.
  - intros s' n' v' Hs' _. by apply logs_call.
Qed.

Lemma logs_error k message s : logs s → logs (emit (EvError k message) s).
Proof.
  intros [Hl Hw]. unfold logs. cbn [packageList licenseWarnings trace emit].
  by rewrite !omap_app, Hl, Hw, !app_nil_r.
Qed.

Lemma logs_audit k l s : logs s → logs (audit_license k l s).
Proof.
  intros [Hl Hw]. unfold logs.
  rewrite licenseWarnings_audit_license, trace_audit_license, !omap_app.
  autorewrite with fields. by rewrite audit_events_keys, app_nil_r, Hl, Hw.
Qed.

Lemma logs_step env s p s' : logs s → step env s p = Some s' → logs s'.
Proof.
  intros Hl (ph & s1 & ph' & Hp & Hr & ->)%step_resumes.
  assert (logs s1 → logs (set_promise p ph' s1)) as Hset by done.
  apply Hset. clear Hset.
  destruct Hr; try done;
    try (by apply logs_error); try (by apply logs_after_download).
  - by apply logs_error, logs_audit.
  - apply (logs_audit (packageKey_of n v) (license m)) in Hl.
    destruct Hl as [Hl Hw]. unfold logs. cbn [packageList licenseWarnings trace emit].
    by rewrite !omap_app, Hl, Hw, !app_nil_r.
  - apply (logs_audit (packageKey_of n v) (license m)) in Hl.
    destruct Hl as [Hl Hw]. unfold logs. cbn [packageList licenseWarnings trace emit].
    by rewrite !omap_app, Hl, Hw, !app_nil_r.
Qed.

Lemma reachable_logs env files0 roots s : reachable env files0 roots s → logs s.
Proof.
  apply reachable_invariant.
  - apply launch_invariant; [done|]. intros s' n v Hs'. by apply logs_call.
  - intros s1 p s2. apply logs_step.
Qed.

(** ** The license audit of a run *)

Lemma audited_quiet env s s1 es :
  audited env s →
  licenseWarnings s1 = licenseWarnings s → trace s1 = trace s ++ es →
  promises s1 = promises s →
  (∀ e, e ∈ es → ∀ n v, e ≠ EvMetadataRequest n v) →
  audited env s1.
Proof.
  intros [Hs Hc Hp] Hw Ht Hpool Hes. constructor; rewrite ?Hw, ?Ht, ?Hpool.
  - intros w (n & v & m & Hin & ?)%Hs. exists n, v, m. split; [|done].
    apply elem_of_app. by left.
  - intros n v [Hin|Hin]%elem_of_app; [by apply Hc|]. by destruct (Hes _ Hin n v).
  - intros p n v Hq. apply elem_of_app. left. eauto.
Qed.

Lemma audited_call env n v parent s :
  audited env s → audited env (downloadPackageAndDependencies n v parent s).1.
Proof.
  intros [Hs Hc Hp]. unfold downloadPackageAndDependencies.
  case_decide; constructor;
    cbn [fst new_promise licenseWarnings trace promises].
  - done.
  - intros n' v' [[p Hq]|Hright]%Hc; [left|by right].
    exists p. by apply lookup_app_l_Some.
  - intros p n' v' [Hq|[_ Hq]]%lookup_app_Some; [eauto|].
    by apply list_lookup_singleton_Some in Hq as [_ ?].
  - intros w (n' & v' & m & Hin & ?)%Hs. exists n', v', m. split; [|done].
    apply elem_of_app. by left.
  - intros n' v' [Hin|Hin%list_elem_of_singleton]%elem_of_app.
    + destruct (Hc _ _ Hin) as [[p Hq]|Hright]; [left|by right].
      exists p. by apply lookup_app_l_Some.
    + simplify_eq. left. exists (length (promises s)).
      by rewrite lookup_app_r, Nat.sub_diag.
  - intros p n' v' [Hq|[_ Hq]]%lookup_app_Some.
    + apply elem_of_app. left. eauto.
    + apply list_lookup_singleton_Some in Hq as [_ E]. simplify_eq.
      apply elem_of_app. right. left.
Qed.

Lemma audited_after_download env n v deps s :
  audited env s → audited env (after_download n v deps s).1.
Proof.
  intros Ha. rewrite after_download_state.
  apply (call_all_invariant (audited env)).
  - apply (audited_quiet env s _ (getAllDependencies deps).2); try done.
    intros e He n' v'. by destruct (getAllDependencies_events _ _ He) as (? & ? & ->).
  - intros s' n' v' Hs' _. by apply audited_call.
Qed.

Lemma audited_set_promise env p ph ph' s :
  audited env s → promises s !! p = Some ph →
  (∀ n v, ph' ≠ AwaitMetadata n v) →
  (∀ n v m, ph = AwaitMetadata n v → registry env n v = MetadataOk m →
            isCommercialFriendly (license m) = false →
            license_warning (packageKey_of n v) (license m) ∈ licenseWarnings s) →
  audited env (set_promise p ph' s).
Proof.
  intros [Hs Hc Hp] Hq Hph' Hdone. constructor; cbn [licenseWarnings trace set_promise].
  - done.
  - intros n v [[q Hq']|Hright]%Hc; [|by right].
    destruct (decide (q = p)) as [->|Hne].
    + right. intros m Hreg Hlic. apply (Hdone n v m); [congruence|done..].
    + left. exists q. cbn. by rewrite list_lookup_insert_ne.
  - intros q n v [[_ E]|[_ Hq']]%lookup_set_promise; [by destruct (Hph' n v)|eauto].
Qed.

Lemma audited_audit env p n v m s :
  audited env s → promises s !! p = Some (AwaitMetadata n v) →
  registry env n v = MetadataOk m →
  audited env (audit_license (packageKey_of n v) (license m) s)
  ∧ (isCommercialFriendly (license m) = false →
     license_warning (packageKey_of n v) (license m)
     ∈ licenseWarnings (audit_license (packageKey_of n v) (license m) s)).
Proof.
  intros Ha Hq Hreg. pose proof Ha as [Hs Hc Hp]. unfold audit_license.
  destruct (isCommercialFriendly (license m)) eqn:Hlic; [done|].
  split.
  - constructor; cbn [licenseWarnings trace promises emit].
    + intros w [Hin|Hin%list_elem_of_singleton]%elem_of_app.
      * destruct (Hs _ Hin) as (n' & v' & m' & Hin' & ?). exists n', v', m'.
        split; [|done]. apply elem_of_app. by left.
      * subst w. exists n, v, m. split_and!; try done. apply elem_of_app. left. eauto.
    + intros n' v' [Hin|Hin%list_elem_of_singleton]%elem_of_app; [|done].
      destruct (Hc _ _ Hin) as [?|Hright]; [by left|right].
      intros m' Hreg' Hlic'. apply elem_of_app. left. by apply Hright.
    + intros q n' v' Hq'. apply elem_of_app. left. eauto.
  - intros _. cbn. apply elem_of_app. right. left.
Qed.

Lemma next_batch_not_metadata k ps i n v : next_batch k ps i ≠ AwaitMetadata n v.
Proof. by destruct (next_batch_cases k ps i) as [-> | ->]. Qed.

Lemma audited_step env s p s' : audited env s → step env s p = Some s' → audited env s'.
Proof.
  intros Ha (ph & s1 & ph' & Hp & Hr & ->)%step_resumes.
  destruct Hr as [n v message Hreg|n v m Hreg Hdist|n v m url Hreg Hdist Hf
                 |n v m url Hreg Hdist Hf|n v deps message Harch|n v deps Harch
                 |n v deps message Harch|n v deps Harch|n v deps
                 |k ps i message Hall|k ps i Hall].
  - apply (audited_set_promise env p (AwaitMetadata n v)); [|done|done|].
    + by apply (audited_quiet env s _ [EvError (packageKey_of n v) message]);
        [..|intros e ->%list_elem_of_singleton].
    + intros n' v' m [= <- <-]. congruence.
  - destruct (audited_audit env p n v m s Ha Hp Hreg) as [Ha' Hw].
    apply (audited_set_promise env p (AwaitMetadata n v));
      [|by cbn; autorewrite with fields|done|].
    + by apply (audited_quiet env (audit_license (packageKey_of n v) (license m) s) _
                  [EvError (packageKey_of n v) tarball_error]);
        [..|intros e ->%list_elem_of_singleton].
    + intros n' v' m' [= <- <-] Hreg' Hlic. assert (m' = m) as -> by congruence. auto.
  - destruct (audited_audit env p n v m s Ha Hp Hreg) as [Ha' Hw].
    apply (audited_set_promise env p (AwaitMetadata n v));
      [|by cbn; autorewrite with fields|done|].
    + by apply (audited_quiet env (audit_license (packageKey_of n v) (license m) s) _
                  [EvSkipTarball (fileName_of n v)]);
        [..|intros e ->%list_elem_of_singleton].
    + intros n' v' m' [= <- <-] Hreg' Hlic. assert (m' = m) as -> by congruence. auto.
  - destruct (audited_audit env p n v m s Ha Hp Hreg) as [Ha' Hw].
    apply (audited_set_promise env p (AwaitMetadata n v));
      [|by cbn; autorewrite with fields|done|].
    + by apply (audited_quiet env (audit_license (packageKey_of n v) (license m) s) _
                  [EvTarballRequest n v url]);
        [..|intros e ->%list_elem_of_singleton].
    + intros n' v' m' [= <- <-] Hreg' Hlic. assert (m' = m) as -> by congruence. auto.
  - apply (audited_set_promise env p (AwaitTarball n v deps)); [|done..].
    by apply (audited_quiet env s _ [EvError (packageKey_of n v) message]);
      [..|intros e ->%list_elem_of_singleton].
  - apply (audited_set_promise env p (AwaitTarball n v deps)); [|done..].
    apply (audited_quiet env s _ []); try done.
    + cbn. by rewrite app_nil_r.
    + by intros e ?%elem_of_nil.
  - apply (audited_set_promise env p (AwaitStream n v deps)); [|done..].
    by apply (audited_quiet env s _ [EvError (packageKey_of n v) message]);
      [..|intros e ->%list_elem_of_singleton].
  - apply (audited_set_promise env p (AwaitStream n v deps));
      [by apply audited_after_download| |apply next_batch_not_metadata|done].
    destruct (after_download_promises n v deps s) as (_ & _ & [new ->]).
    by apply lookup_app_l_Some.
  - apply (audited_set_promise env p (AwaitSkip n v deps));
      [by apply audited_after_download| |apply next_batch_not_metadata|done].
    destruct (after_download_promises n v deps s) as (_ & _ & [new ->]).
    by apply lookup_app_l_Some.
  - apply (audited_set_promise env p (AwaitBatch k ps i)); [|done..].
    by apply (audited_quiet env s _ [EvError k message]);
      [..|intros e ->%list_elem_of_singleton].
  - apply (audited_set_promise env p (AwaitBatch k ps i));
      [done|done|apply next_batch_not_metadata|done].
Qed.

Lemma audited_initial env files0 : audited env (initial files0).
Proof.
  constructor; cbn.
  - by intros w ?%elem_of_nil.
  - by intros n v ?%elem_of_nil.
  - done.
Qed.

Lemma reachable_audited env files0 roots s :
  reachable env files0 roots s → audited env s.
Proof.
  apply reachable_invariant.
  - apply launch_invariant; [apply audited_initial|].
    intros s' n v Hs'. by apply audited_call.
  - intros s1 p s2. apply audited_step.
Qed.

(** X14. In every state of a run the package list is the log of the
    metadata requests: it holds the keys of the requests sent so far, in the
    order in which they were sent, so that a package is listed exactly when
    its metadata has been requested, and it has no duplicates. *)
Theorem package_list_is_request_log (env : environment) (files0 : gset string)
    (roots : list (string * string)) (s : state) :
  reachable env files0 roots s →
  packageList s = omap requested_key (trace s)
  ∧ NoDup (packageList s)
  ∧ ∀ k, k ∈ packageList s ↔ k ∈ downloadedPackages s.
Proof.
  intros Hs. split; [by apply (reachable_logs env files0 roots)|].
  apply reachable_wf in Hs as [[Hnd Hlist _ _ _] _ _ _]. by split.
Qed.

Lemma package_list_is_request_log_witness :
  packageList cycle_state = omap requested_key (trace cycle_state)
  ∧ NoDup (packageList cycle_state)
  ∧ ∀ k, k ∈ packageList cycle_state ↔ k ∈ downloadedPackages cycle_state.
Proof.
  apply (package_list_is_request_log cycle_env ∅ [("a", "1.0.0")]).
  exists [0; 0; 0; 1; 1; 1; 1; 0]. by vm_compute.
Defined.

(** X15. The license warnings collected for the report are the license
    warnings printed during the run, in the same order. *)
Theorem collected_warnings_are_printed (env : environment) (files0 : gset string)
    (roots : list (string * string)) (s : state) :
  reachable env files0 roots s →
  licenseWarnings s = omap printed_warning (trace s).
Proof. intros Hs. by apply (reachable_logs env files0 roots). Qed.

Lemma collected_warnings_are_printed_witness :
  licenseWarnings cycle_state = omap printed_warning (trace cycle_state).
Proof.
  apply (collected_warnings_are_printed cycle_env ∅ [("a", "1.0.0")]).
  exists [0; 0; 0; 1; 1; 1; 1; 0]. by vm_compute.
Defined.

(** X16. Every license warning of a run is about a package whose metadata
    was requested and arrived, and whose license, as the registry gives it,
    is not on the list of commercial-friendly licenses. *)
Theorem license_warning_is_justified (env : environment) (files0 : gset string)
    (roots : list (string * string)) (s : state) (warning : string) :
  reachable env files0 roots s →
  warning ∈ licenseWarnings s →
  ∃ n v m, EvMetadataRequest n v ∈ trace s ∧ registry env n v = MetadataOk m
           ∧ isCommercialFriendly (license m) = false
           ∧ warning = license_warning (packageKey_of n v) (license m).
Proof. intros Hs. by apply (audited_sound env s), (reachable_audited env files0 roots). Qed.

(** X17. When the run is over, every package whose metadata was requested
    and arrived with a license that is not on the list has its warning in
    the report. *)
Theorem license_audit_is_complete (env : environment) (files0 : gset string)
    (roots : list (string * string)) (s : state) (n v : string) (m : metadata) :
  reachable env files0 roots s → quiescent s →
  EvMetadataRequest n v ∈ trace s →
  registry env n v = MetadataOk m →
  isCommercialFriendly (license m) = false →
  license_warning (packageKey_of n v) (license m) ∈ licenseWarnings s.
Proof.
  intros Hs Hq Hin Hreg Hlic. apply (reachable_audited env files0 roots) in Hs.
  destruct (audited_complete env s Hs n v Hin) as [[p Hp]|Hright]; [|by apply Hright].
  unfold quiescent in Hq. rewrite Forall_forall in Hq.
  by specialize (Hq _ (list_elem_of_lookup_2 _ _ _ Hp)).
Qed.

Lemma license_warning_is_justified_witness :
  ∃ n v m, EvMetadataRequest n v ∈ trace gpl_state ∧ registry gpl_env n v = MetadataOk m
           ∧ isCommercialFriendly (license m) = false
           ∧ license_warning "x@1.0.0" (Some "GPL-3.0")
             = license_warning (packageKey_of n v) (license m).
Proof.
  apply (license_warning_is_justified gpl_env ∅ [("x", "1.0.0")] gpl_state).
  - exists [0; 0; 0]. by vm_compute.
  - vm_compute. left.
Defined.

Lemma license_audit_is_complete_witness :
  license_warning (packageKey_of "x" "1.0.0") (Some "GPL-3.0") ∈ licenseWarnings gpl_state.
Proof.
  apply (license_audit_is_complete gpl_env ∅ [("x", "1.0.0")] gpl_state "x" "1.0.0"
           (Metadata None (Some "GPL-3.0") (Some "http://registry/x.tgz"))).
  - exists [0; 0; 0]. by vm_compute.
  - unfold quiescent. vm_compute. repeat constructor.
  - vm_compute. left.
  - reflexivity.
  - reflexivity.
Defined.

(** ** What a run only adds to *)

Lemma tree_extends_refl t : tree_extends t t.
Proof. intros k l Hl. by exists l. Qed.

Lemma tree_extends_trans t1 t2 t3 :
  tree_extends t1 t2 → tree_extends t2 t3 → tree_extends t1 t3.
Proof.
  intros H12 H23 k l Hl. destruct (H12 _ _ Hl) as (l2 & Hl2 & Hp2).
  destruct (H23 _ _ Hl2) as (l3 & Hl3 & Hp3). exists l3. split; [done|by etrans].
Qed.

Lemma record_edge_extends parent k tree : tree_extends tree (record_edge parent k tree).
Proof.
  unfold record_edge. destruct parent as [p|]; [|apply tree_extends_refl].
  destruct (String.eqb p ""); [apply tree_extends_refl|].
  intros q l Hl. destruct (decide (q = p)) as [->|Hne].
  - rewrite lookup_insert_eq, Hl. eexists. split; [done|]. by apply prefix_app_r.
  - rewrite lookup_insert_ne by done. by exists l.
Qed.

Lemma claim_grows parent g k :
  g.1.2 `prefix_of` (claim parent g k).1.2 ∧ tree_extends g.2 (claim parent g k).2.
Proof.
  unfold claim. case_decide; cbn.
  - split; [done|apply tree_extends_refl].
  - split; [by apply prefix_app_r|apply record_edge_extends].
Qed.

Lemma claim_all_grows parent keys g :
  g.1.2 `prefix_of` (claim_all parent keys g).1.2
  ∧ tree_extends g.2 (claim_all parent keys g).2.
Proof.
  revert g. induction keys as [|k keys IH]; intros g; cbn.
  - split; [done|apply tree_extends_refl].
  - destruct (claim_grows parent g k) as [H1 H2].
    destruct (IH (claim parent g k)) as [H3 H4].
    split; [by etrans|by eapply tree_extends_trans].
Qed.

Lemma resumes_licenseWarnings env s ph s1 ph' :
  resumes env s ph s1 ph' → licenseWarnings s `prefix_of` licenseWarnings s1.
Proof.
  intros Hr. destruct Hr; cbn [licenseWarnings emit add_file];
    rewrite ?licenseWarnings_audit_license, ?after_download_licenseWarnings;
    try done; by apply prefix_app_r.
Qed.

Lemma step_grows env s p s' : step env s p = Some s' → grows s s'.
Proof.
  intros Hstep. pose proof (step_mono _ _ _ _ Hstep) as [HD Ht].
  pose proof (step_files _ _ _ _ Hstep) as Hf.
  destruct (step_graph _ _ _ _ Hstep) as (ph0 & keys & _ & Hg).
  destruct (claim_all_grows (phase_key ph0) keys (graph_of s)) as [Hpl Htree].
  rewrite <- Hg in Hpl, Htree. cbn in Hpl, Htree.
  pose proof Hstep as (ph & s1 & ph' & Hp & Hr & ->)%step_resumes.
  constructor; try done.
  - by apply (resumes_licenseWarnings _ _ _ _ _ Hr).
  - cbn [promises set_promise]. rewrite length_insert.
    by apply prefix_length, (resumes_prefix _ _ _ _ _ Hr).
  - intros q Hq. destruct (decide (q = p)) as [->|Hne].
    { rewrite Hp in Hq. simplify_eq. inversion Hr. }
    rewrite (step_other_promises _ _ _ _ q Hstep Hne); [done|].
    by eapply lookup_lt_Some.
Qed.

Lemma grows_refl s : grows s s.
Proof. constructor; try done. apply tree_extends_refl. Qed.

Lemma grows_trans s1 s2 s3 : grows s1 s2 → grows s2 s3 → grows s1 s3.
Proof.
  intros [] []. constructor; try (by etrans); [by eapply tree_extends_trans|auto].
Qed.

Lemma run_grows env schedule s s' : run env schedule s = Some s' → grows s s'.
Proof.
  revert s. induction schedule as [|p rest IH]; intros s; cbn.
  - intros [= ->]. apply grows_refl.
  - destruct (step env s p) as [s1|] eqn:Hstep; [|done].
    intros Hrun. eapply grows_trans; [by eapply step_grows|by apply IH].
Qed.

(** X18. A run only adds: from any state on, whatever is resumed, the
    package list, the license warnings and the trace are extended at their
    end, no claimed key and no file is removed, every list of children is
    extended at its end, and a resolved promise stays resolved and is not
    resumed again. *)
Theorem run_only_adds (env : environment) (schedule : list nat) (s s' : state) :
  run env schedule s = Some s' →
  packageList s `prefix_of` packageList s'
  ∧ licenseWarnings s `prefix_of` licenseWarnings s'
  ∧ trace s `prefix_of` trace s'
  ∧ downloadedPackages s ⊆ downloadedPackages s'
  ∧ files s ⊆ files s'
  ∧ (∀ k l, dependencyTree s !! k = Some l →
            ∃ l', dependencyTree s' !! k = Some l' ∧ l `prefix_of` l')
  ∧ (∀ q, promises s !! q = Some Resolved →
          promises s' !! q = Some Resolved ∧ q ∉ schedule).
Proof.
  intros Hrun. destruct (run_grows _ _ _ _ Hrun) as [H1 H2 H3 H4 H5 H6 H7 H8].
  split_and!; try done.
  intros q Hq. split; [auto|].
  clear H1 H2 H3 H4 H5 H6 H7 H8. revert s Hrun Hq.
  induction schedule as [|p rest IH]; intros s Hrun Hq; [apply not_elem_of_nil|].
  cbn in Hrun. destruct (step env s p) as [s1|] eqn:Hstep; [|done].
  intros [->|Hin]%elem_of_cons.
  - unfold step in Hstep. by rewrite Hq in Hstep.
  - apply (IH s1 Hrun); [|done]. by apply (grows_resolved _ _ (step_grows _ _ _ _ Hstep)).
Qed.

Lemma run_only_adds_witness :
  packageList (launch [("a", "1.0.0")] (initial ∅)) `prefix_of` packageList cycle_state
  ∧ licenseWarnings (launch [("a", "1.0.0")] (initial ∅))
    `prefix_of` licenseWarnings cycle_state
  ∧ trace (launch [("a", "1.0.0")] (initial ∅)) `prefix_of` trace cycle_state
  ∧ downloadedPackages (launch [("a", "1.0.0")] (initial ∅))
    ⊆ downloadedPackages cycle_state
  ∧ files (launch [("a", "1.0.0")] (initial ∅)) ⊆ files cycle_state
  ∧ (∀ k l, dependencyTree (launch [("a", "1.0.0")] (initial ∅)) !! k = Some l →
            ∃ l', dependencyTree cycle_state !! k = Some l' ∧ l `prefix_of` l')
  ∧ (∀ q, promises (launch [("a", "1.0.0")] (initial ∅)) !! q = Some Resolved →
          promises cycle_state !! q = Some Resolved
          ∧ q ∉ [0; 0; 0; 1; 1; 1; 1; 0]).
Proof.
  apply (run_only_adds cycle_env [0; 0; 0; 1; 1; 1; 1; 0]). by vm_compute.
Defined.

(** ** The recorded tree covers the package list *)

Lemma packageKey_nonempty n v : packageKey_of n v ≠ "".
Proof. unfold packageKey_of. by destruct n. Qed.

Lemma resumes_graph_cases env s ph s1 ph' :
  resumes env s ph s1 ph' →
  graph_of s1 = graph_of s
  ∨ ∃ n v deps, phase_package ph = Some (n, v)
      ∧ graph_of s1 = claim_all (Some (packageKey_of n v))
                        (entry_key <$> (getAllDependencies deps).1) (graph_of s).
Proof.
  intros Hr. destruct Hr;
    try (left; unfold graph_of; cbn; by autorewrite with fields);
    right; exists n, v, deps; by rewrite graph_of_after_download.
Qed.

Lemma rooted_claim roots parent g k :
  rooted roots g → parent ∈ g.1.1 → parent ≠ "" →
  rooted roots (claim (Some parent) g k).
Proof.
  intros Hg Hparent Hne. unfold claim. case_decide as Hk; [done|].
  intros x Hx. cbn [fst snd] in Hx |- *.
  assert (∀ a b, edge g.2 a b → edge (record_edge (Some parent) k g.2) a b) as Hsub.
  { intros a b Hab. apply edge_record; [done|]. by left. }
  apply elem_of_union in Hx as [->%elem_of_singleton|Hx].
  - destruct (Hg _ Hparent) as (e & He & Hrtc). exists e. split; [done|].
    eapply rtc_r; [by eapply rtc_subrel|]. apply edge_record; [done|]. by right.
  - destruct (Hg _ Hx) as (e & He & Hrtc). exists e. split; [done|].
    by eapply rtc_subrel.
Qed.

Lemma rooted_claim_all roots parent keys g :
  rooted roots g → parent ∈ g.1.1 → parent ≠ "" →
  rooted roots (claim_all (Some parent) keys g).
Proof.
  revert g. induction keys as [|k keys IH]; intros g Hg Hparent Hne; [done|].
  cbn. apply IH; [by apply rooted_claim| |done].
  rewrite claim_downloaded. set_solver.
Qed.

Lemma reachable_rooted env files0 roots s :
  reachable env files0 roots s → rooted roots (graph_of s).
Proof.
  intros Hs.
  assert (wf s ∧ rooted roots (graph_of s)) as [_ ?]; [|done].
  revert s Hs. apply reachable_invariant.
  - split; [apply wf_launch|].
    intros k Hk. cbn [graph_of fst snd] in Hk |- *.
    rewrite launch_downloaded in Hk. cbn in Hk.
    apply elem_of_union in Hk as [Hk|Hk]; [|set_solver].
    apply elem_of_list_to_set, list_elem_of_fmap in Hk as (e & -> & He).
    by exists e.
  - intros s p s' [Hwf Hrooted] Hstep. split; [by eapply wf_step|].
    pose proof Hstep as (ph & s1 & ph' & Hp & Hr & ->)%step_resumes.
    change (graph_of (set_promise p ph' s1)) with (graph_of s1).
    destruct (resumes_graph_cases _ _ _ _ _ Hr) as [->|(n & v & deps & Hpk & ->)]; [done|].
    apply rooted_claim_all; [done| |apply packageKey_nonempty].
    apply (wf_active _ Hwf p ph); [done|]. unfold phase_key. by rewrite Hpk.
Qed.

Lemma listed_package_under_root env files0 roots s k :
  reachable env files0 roots s → k ∈ packageList s →
  ∃ e, e ∈ roots ∧ rtc (edge (dependencyTree s)) (entry_key e) k.
Proof.
  intros Hs Hk. apply (reachable_rooted _ _ _ _ Hs). cbn.
  apply reachable_wf in Hs as [[_ Hlist _ _ _] _ _ _]. by apply Hlist.
Qed.

(** X19. Every package of the package list hangs under a root in the
    recorded tree: it is the key of a root, or a chain of recorded edges
    leads to it from the key of a root. *)
Theorem listed_package_is_under_a_root (env : environment) (files0 : gset string)
    (roots : list (string * string)) (s : state) (k : string) :
  reachable env files0 roots s →
  k ∈ packageList s →
  ∃ e, e ∈ roots ∧ rtc (edge (dependencyTree s)) (entry_key e) k.
Proof. apply listed_package_under_root. Qed.

Lemma listed_package_is_under_a_root_witness :
  ∃ e, e ∈ [("a", "1.0.0")]
       ∧ rtc (edge (dependencyTree cycle_state)) (entry_key e) "b@1.0.0".
Proof.
  apply (listed_package_is_under_a_root cycle_env ∅ [("a", "1.0.0")] cycle_state).
  - exists [0; 0; 0; 1; 1; 1; 1; 0]. by vm_compute.
  - vm_compute. right. left.
Defined.

Section Walks.
Context (D : gset string) (pl : list string) (tree : gmap string (list string)).
Context (roots : list (string * string)) (fuel : nat).
Hypothesis Hforest : forest (D, pl, tree).
Hypothesis Hno_parent : ∀ e p, e ∈ roots → ¬ edge tree p (entry_key e).
Hypothesis Hfuel : length pl < fuel.

Lemma walks_of_roots (rs : list (string * string)) :
  rs ⊆ roots → NoDup (entry_key <$> rs) →
  ∃ walks,
    Forall2 (fun e w => preorder fuel tree (entry_key e) 0 = Some w) rs walks
    ∧ NoDup (concat walks).*2
    ∧ ∀ x, x ∈ (concat walks).*2 ↔ ∃ e, e ∈ rs ∧ rtc (edge tree) (entry_key e) x.
Proof.
  induction rs as [|e rs IH]; intros Hsub Hnd.
  - exists []. split_and!; [constructor|constructor|].
    intros x. split; [by intros ?%elem_of_nil|]. by intros (e & ?%elem_of_nil & _).
  - apply NoDup_cons in Hnd as [He Hnd].
    destruct IH as (walks & Hwalks & Hnd' & Hmem); [set_solver|done|].
    destruct (preorder_total D pl tree Hforest fuel (entry_key e) 0) as (w & Hw & Hndw & Hmemw);
      [lia|].
    exists (w :: walks). cbn [concat]. rewrite fmap_app. split_and!.
    + by constructor.
    + apply NoDup_app. split_and!; [done| |done].
      intros x Hx Hx'. apply Hmemw in Hx. apply Hmem in Hx' as (e' & He' & Hx').
      assert (entry_key e ≠ entry_key e') as Hne.
      { intros E. apply He. rewrite E. by apply list_elem_of_fmap_2. }
      destruct (common_descendant D pl tree Hforest _ _ _ Hx Hx') as [H|H];
        apply rtc_inv_r in H as [E|(y & _ & Hedge)]; try done.
      * apply (Hno_parent e' y); [|done]. apply Hsub. by right.
      * apply (Hno_parent e y); [|done]. apply Hsub. left.
    + intros x. rewrite elem_of_app, Hmemw, Hmem. split.
      * intros [H|(e' & He' & H)]; [exists e; split; [left|done]|].
        exists e'. split; [by right|done].
      * intros (e' & [->|He']%elem_of_cons & H); [by left|right; eauto].
Qed.

End Walks.

(** X20. When the roots have distinct keys, the trees of the report hold
    the packages of the package list, each of them once: the walks of
    [buildDependencyTree] from the roots visit, together, a permutation of
    the package list. *)
Theorem trees_list_every_package_once (env : environment) (files0 : gset string)
    (roots : list (string * string)) (s : state) (fuel : nat) :
  reachable env files0 roots s →
  NoDup (entry_key <$> roots) →
  length (packageList s) < fuel →
  ∃ walks,
    mapM (fun '(name, version) =>
            buildDependencyTree fuel (dependencyTree s) (packageKey_of name version) 0)
      roots = Some (render <$> walks)
    ∧ (concat walks).*2 ≡ₚ packageList s.
Proof.
  intros Hs Hnd Hfuel. pose proof (reachable_wf _ _ _ _ Hs) as [Hforest _ _ _].
  destruct (walks_of_roots (downloadedPackages s) (packageList s) (dependencyTree s)
              roots fuel Hforest) with (rs := roots)
    as (walks & Hwalks & Hndw & Hmem); try done.
  { intros e p He. by apply (reachable_no_edge_to_root env files0 roots). }
  exists walks. split.
  - apply mapM_Some, Forall2_fmap_r.
    eapply Forall2_impl; [exact Hwalks|]. intros [n v] w Hw. cbn beta.
    rewrite buildDependencyTree_preorder.
    change (packageKey_of n v) with (entry_key (n, v)). by rewrite Hw.
  - apply NoDup_Permutation; [done|apply (forest_nodup _ Hforest)|].
    intros x. rewrite Hmem. split.
    + intros (e & He & Hrtc).
      assert (entry_key e ∈ packageList s) as Hroot.
      { apply (forest_list _ Hforest).
        by apply (reachable_root_claimed env files0 roots). }
      apply rtc_inv_r in Hrtc as [<-|(y & _ & Hedge)]; [done|].
      by destruct (forest_rank _ Hforest _ _ Hedge) as (_ & ? & _).
    + intros Hx. by apply (listed_package_under_root env files0).
Qed.

Lemma trees_list_every_package_once_witness :
  ∃ walks,
    mapM (fun '(name, version) =>
            buildDependencyTree 3 (dependencyTree cycle_state) (packageKey_of name version) 0)
      [("a", "1.0.0")] = Some (render <$> walks)
    ∧ (concat walks).*2 ≡ₚ packageList cycle_state.
Proof.
  apply (trees_list_every_package_once cycle_env ∅ [("a", "1.0.0")] cycle_state 3).
  - exists [0; 0; 0; 1; 1; 1; 1; 0]. by vm_compute.
  - cbn. apply NoDup_singleton.
  - vm_compute. lia.
Defined.

(** ** Batches *)

Lemma promise_all_AllResolved (pool : list phase) (batch : list nat) :
  promise_all pool batch = AllResolved →
  ∀ q, q ∈ batch → pool !! q = Some Resolved.
Proof.
  induction batch as [|p rest IH]; cbn; [by intros _ q ?%elem_of_nil|].
  destruct (pool !! p) as [[]|] eqn:Hp; try (by destruct (promise_all pool rest)).
  intros Hall q [->|Hq]%elem_of_cons; auto.
Qed.

Lemma promise_all_AllRejected (pool : list phase) (batch : list nat) message :
  promise_all pool batch = AllRejected message →
  ∃ q message', pool !! q = Some (Rejected message').
Proof.
  induction batch as [|p rest IH]; cbn; [done|].
  destruct (pool !! p) as [[]|] eqn:Hp; eauto;
    destruct (promise_all pool rest); eauto; done.
Qed.

Lemma take_add_slice (i n : nat) (l : list nat) :
  take (i + n) l = take i l ++ slice i n l.
Proof.
  unfold slice. revert l. induction i as [|i IH]; intros l; [done|].
  destruct l as [|x l]; cbn; [by rewrite take_nil|]. by rewrite IH.
Qed.

Lemma batches_call n v parent s :
  batches s → batches (downloadPackageAndDependencies n v parent s).1.
Proof.
  intros Hb p k ps i. destruct (call_promises n v parent s) as [-> _].
  intros [Hp|[_ Hp]]%lookup_app_Some.
  - destruct (Hb _ _ _ _ Hp) as (H1 & H2 & H3). split_and!; [done..|].
    intros q Hq. by apply lookup_app_l_Some, H3.
  - apply list_lookup_singleton_Some in Hp as [_ Hp]. by case_decide.
Qed.

Lemma batches_step env s p s' :
  wf s → batches s → step env s p = Some s' → batches s'.
Proof.
  intros Hwf Hb Hstep. pose proof (step_grows _ _ _ _ Hstep) as Hgrows.
  pose proof Hstep as (ph & s1 & ph' & Hp & Hr & ->)%step_resumes.
  intros q k ps i [[-> E]|[Hne Hq]]%lookup_set_promise.
  - destruct Hr as [| | | | | | |n v deps Harch|n v deps|k0 ps0 i0 message Hall|k0 ps0 i0 Hall];
      try done.
    + unfold next_batch in E. case_match eqn:Hlt; [|done]. simplify_eq.
      apply Nat.ltb_lt in Hlt. split_and!; [done|by exists 0|by intros q ?%elem_of_nil].
    + unfold next_batch in E. case_match eqn:Hlt; [|done]. simplify_eq.
      apply Nat.ltb_lt in Hlt. split_and!; [done|by exists 0|by intros q ?%elem_of_nil].
    + unfold next_batch in E. case_match eqn:Hlt; [|done]. simplify_eq.
      apply Nat.ltb_lt in Hlt. destruct (Hb _ _ _ _ Hp) as (H1 & [j ->] & H3).
      split_and!; [done|by exists (S j); lia|].
      intros q. rewrite take_add_slice. intros [Hq|Hq]%elem_of_app.
      * by apply (grows_resolved _ _ Hgrows), H3.
      * by apply (grows_resolved _ _ Hgrows), (promise_all_AllResolved _ _ Hall).
  - assert (promises s !! q = Some (AwaitBatch k ps i)) as Hq'.
    { destruct (resumes_prefix _ _ _ _ _ Hr) as [news Hnews]. rewrite Hnews in Hq.
      apply lookup_app_Some in Hq as [Hq|[Hge Hq]]; [done|].
      assert (∀ ph0, ph0 ∈ news → ph0 = Resolved ∨ ∃ n v, ph0 = AwaitMetadata n v) as Hn.
      { destruct Hr; cbn [promises emit add_file] in Hnews;
          autorewrite with fields in Hnews;
          try (assert (news = []) as -> by (by eapply app_inv_head; rewrite app_nil_r);
               by intros ? ?%elem_of_nil);
          destruct (after_download_delta n v deps s) as (? & news' & _ & Hp' & _ & Hn');
          rewrite Hp' in Hnews; by apply app_inv_head in Hnews as <-. }
      apply list_elem_of_lookup_2, Hn in Hq as [?|(? & ? & ?)]; done. }
    destruct (Hb _ _ _ _ Hq') as (H1 & H2 & H3). split_and!; [done..|].
    intros q0 Hq0. by apply (grows_resolved _ _ Hgrows), H3.
Qed.

Lemma reachable_batches env files0 roots s : reachable env files0 roots s → batches s.
Proof.
  intros Hs. assert (wf s ∧ batches s) as [_ ?]; [|done].
  revert s Hs. apply reachable_invariant.
  - split; [apply wf_launch|].
    apply launch_invariant; [by intros p k ps i ?|].
    intros s' n v Hs'. by apply batches_call.
  - intros s p s' [Hwf Hb] Hstep. split; [by eapply wf_step|by eapply batches_step].
Qed.

(** X21. The batches of a list of dependency promises are its consecutive
    slices of [CONCURRENCY]: a promise that waits for a batch is at a
    multiple of [CONCURRENCY] inside its list, every promise of the earlier
    slices has resolved, and when the promise itself resolves, every promise
    of its list has. *)
Theorem parent_resolves_after_children (env : environment) (files0 : gset string)
    (roots : list (string * string)) (s : state) (p : nat)
    (packageKey : string) (downloadPromises : list nat) (i : nat) :
  reachable env files0 roots s →
  promises s !! p = Some (AwaitBatch packageKey downloadPromises i) →
  i < length downloadPromises
  ∧ (∃ j, i = j * CONCURRENCY)
  ∧ (∀ q, q ∈ take i downloadPromises → promises s !! q = Some Resolved)
  ∧ (∀ s', step env s p = Some s' → promises s' !! p = Some Resolved →
           ∀ q, q ∈ downloadPromises → promises s' !! q = Some Resolved).
Proof.
  intros Hs Hp. pose proof (reachable_wf _ _ _ _ Hs) as Hwf.
  destruct (reachable_batches _ _ _ _ Hs _ _ _ _ Hp) as (H1 & H2 & H3).
  split_and!; [done..|].
  intros s' Hstep Hres q Hq. pose proof (step_grows _ _ _ _ Hstep) as Hgrows.
  apply (grows_resolved _ _ Hgrows).
  pose proof Hstep as (ph & s1 & ph' & Hp' & Hr & ->)%step_resumes.
  rewrite Hp in Hp'. simplify_eq.
  inversion Hr as [| | | | | | | | |k ps i0 message Hall|k ps i0 Hall]; subst.
  - destruct (promise_all_AllRejected _ _ _ Hall) as (q' & message' & Hq').
    by destruct (wf_no_rejected _ Hwf _ _ Hq' message').
  - assert (promises (set_promise p (next_batch packageKey downloadPromises (i + CONCURRENCY)) s1)
            !! p = Some (next_batch packageKey downloadPromises (i + CONCURRENCY))) as E.
    { cbn. apply list_lookup_insert_eq. by eapply lookup_lt_Some. }
    rewrite E in Hres. unfold next_batch in Hres. case_match eqn:Hlt; [done|].
    apply Nat.ltb_ge in Hlt.
    rewrite <- (take_ge downloadPromises (i + CONCURRENCY)) in Hq by done.
    rewrite take_add_slice in Hq. apply elem_of_app in Hq as [Hq|Hq]; [auto|].
    by apply (promise_all_AllResolved _ _ Hall).
Qed.

Lemma parent_resolves_after_children_witness :
  0 < length [1]
  ∧ (∃ j, 0 = j * CONCURRENCY)
  ∧ (∀ q, q ∈ take 0 [1] →
          promises (default (initial ∅)
                      (run cycle_env [0; 0; 0; 1; 1; 1; 1] (launch [("a", "1.0.0")] (initial ∅))))
          !! q = Some Resolved)
  ∧ (∀ s', step cycle_env
             (default (initial ∅)
                (run cycle_env [0; 0; 0; 1; 1; 1; 1] (launch [("a", "1.0.0")] (initial ∅))))
             0 = Some s' →
           promises s' !! 0 = Some Resolved →
           ∀ q, q ∈ [1] → promises s' !! q = Some Resolved).
Proof.
  apply (parent_resolves_after_children cycle_env ∅ [("a", "1.0.0")] _ 0 "a@1.0.0" [1] 0).
  - exists [0; 0; 0; 1; 1; 1; 1]. by vm_compute.
  - by vm_compute.
Defined.

(** ** The calls for the dependencies *)

Lemma size_difference_claim (K D : gset string) (k : string) :
  size (({[k]} ∪ K) ∖ D)
  = (if decide (k ∈ D) then 0 else 1) + size (K ∖ ({[k]} ∪ D)).
Proof.
  case_decide as Hk.
  - rewrite Nat.add_0_l. f_equal. apply set_eq. intros x.
    rewrite !elem_of_difference, !elem_of_union, elem_of_singleton.
    destruct (decide (x = k)) as [->|Hne]; naive_solver.
  - assert (({[k]} ∪ K) ∖ D = {[k]} ∪ (K ∖ ({[k]} ∪ D))) as ->.
    { apply set_eq. intros x.
      rewrite !elem_of_union, !elem_of_difference, !elem_of_union, elem_of_singleton.
      destruct (decide (x = k)) as [->|Hne]; naive_solver. }
    pose proof (size_union ({[k]} : gset string) (K ∖ ({[k]} ∪ D))) as Hsize.
    rewrite Hsize by set_solver.
    pose proof (size_singleton (C := gset string) k) as Hone. lia.
Qed.

Lemma call_all_pending entries parent s :
  ∃ news,
    promises (call_all entries parent s).1 = promises s ++ news
    ∧ length news = length entries
    ∧ count_if pending news
      = size (list_to_set (entry_key <$> entries) ∖ downloadedPackages s : gset string).
Proof.
  revert s. induction entries as [|[n v] entries IH]; intros s.
  - exists []. cbn. rewrite app_nil_r. split_and!; [done..|].
    symmetry. apply size_empty_iff. set_solver.
  - rewrite call_all_cons. cbn [fst].
    destruct (IH (downloadPackageAndDependencies n v (Some parent) s).1)
      as (news & Hnews & Hlen & Hcount).
    rewrite call_downloaded in Hcount.
    destruct (call_promises n v (Some parent) s) as [Hp _]. rewrite Hp in Hnews.
    eexists (_ :: news). rewrite Hnews, <- app_assoc. split_and!; [done|by cbn; rewrite Hlen|].
    rewrite count_if_cons, Hcount, fmap_cons, list_to_set_cons, size_difference_claim.
    change (entry_key (n, v)) with (packageKey_of n v).
    by case_decide.
Qed.

Lemma count_pending_at (pool news : list phase) (a : nat) :
  (∀ j, j < length news → pool !! (a + j) = news !! j) →
  count_if (fun p => match pool !! p with
                     | Some ph => negb (settled ph)
                     | None => false
                     end) (seq a (length news))
  = count_if pending news.
Proof.
  revert a. induction news as [|x news IH]; intros a Hpool; [done|].
  cbn [length seq]. rewrite !count_if_cons.
  rewrite <- (IH (S a)).
  - f_equal. specialize (Hpool 0 ltac:(cbn; lia)). rewrite Nat.add_0_r in Hpool.
    by rewrite Hpool.
  - intros j Hj. specialize (Hpool (S j) ltac:(cbn; lia)).
    by rewrite <- Nat.add_succ_comm in Hpool.
Qed.

(** X22. The resumption that follows the download of an archive calls
    [downloadPackageAndDependencies] for every coerced dependency at once:
    one promise per dependency is created, every dependency key is claimed,
    and the number of these promises that are pending is the number of keys
    that had not been claimed before, whatever [CONCURRENCY] is; only then
    does the promise wait for the first batch. *)
Theorem dependencies_are_called_at_once (env : environment) (s s' : state) (p : nat)
    (n v : string) (deps : list (string * string)) :
  promises s !! p = Some (AwaitSkip n v deps)
  ∨ (promises s !! p = Some (AwaitStream n v deps)
     ∧ ∀ message, archive env n v ≠ StreamError message) →
  step env s p = Some s' →
  promises s' !! p
  = Some (next_batch (packageKey_of n v)
            (seq (length (promises s)) (length (getAllDependencies deps).1)) 0)
  ∧ length (promises s') = length (promises s) + length (getAllDependencies deps).1
  ∧ (∀ e, e ∈ (getAllDependencies deps).1 → entry_key e ∈ downloadedPackages s')
  ∧ in_flight s' (seq (length (promises s)) (length (getAllDependencies deps).1))
    = size (list_to_set (entry_key <$> (getAllDependencies deps).1)
            ∖ downloadedPackages s : gset string).
Proof.
  intros Hp Hstep.
  assert (promises s !! p = Some (AwaitSkip n v deps)
          ∨ promises s !! p = Some (AwaitStream n v deps)) as Hp'.
  { destruct Hp as [?|[? _]]; auto. }
  assert (p < length (promises s)) as Hlt.
  { destruct Hp' as [?|?]; by eapply lookup_lt_Some. }
  assert (s' = set_promise p
            (next_batch (packageKey_of n v)
               (call_all (getAllDependencies deps).1 (packageKey_of n v)
                  (emit_all (getAllDependencies deps).2 s)).2 0)
            (after_download n v deps s).1) as ->.
  { apply step_resumes in Hstep as (ph & s1 & ph' & Hq & Hr & ->).
    destruct Hp as [Hp|[Hp Harch]]; rewrite Hp in Hq; simplify_eq;
      inversion Hr; subst; try done. by destruct (Harch message). }
  destruct (after_download_promises n v deps s) as (Hlen & Hseq & Hpre).
  rewrite Hseq. cbn [promises downloadedPackages set_promise].
  rewrite length_insert. split_and!.
  - apply list_lookup_insert_eq. rewrite Hlen. lia.
  - done.
  - intros e He. rewrite after_download_state, call_all_downloaded.
    apply elem_of_union. left. apply elem_of_list_to_set.
    by apply (list_elem_of_fmap_2 (fun e => packageKey_of e.1 e.2)).
  - destruct (call_all_pending (getAllDependencies deps).1 (packageKey_of n v)
                (emit_all (getAllDependencies deps).2 s)) as (news & Hnews & Hl & Hcount).
    cbn [promises downloadedPackages emit_all] in Hnews, Hcount.
    rewrite <- Hcount, <- Hl. unfold in_flight. cbn [promises set_promise].
    apply count_pending_at. intros j Hj.
    rewrite list_lookup_insert_ne by lia.
    rewrite after_download_state, Hnews, lookup_app_r by lia.
    f_equal. lia.
Qed.

Lemma dependencies_are_called_at_once_witness :
  promises six_dependencies_called !! 0
  = Some (next_batch (packageKey_of "app" "1.0.0")
            (seq (length (promises six_dependencies_downloaded))
               (length (getAllDependencies six_dependencies).1)) 0)
  ∧ length (promises six_dependencies_called)
    = length (promises six_dependencies_downloaded)
      + length (getAllDependencies six_dependencies).1
  ∧ (∀ e, e ∈ (getAllDependencies six_dependencies).1 →
          entry_key e ∈ downloadedPackages six_dependencies_called)
  ∧ in_flight six_dependencies_called
      (seq (length (promises six_dependencies_downloaded))
         (length (getAllDependencies six_dependencies).1))
    = size (list_to_set (entry_key <$> (getAllDependencies six_dependencies).1)
            ∖ downloadedPackages six_dependencies_downloaded : gset string).
Proof.
  apply (dependencies_are_called_at_once six_dependencies_env
           six_dependencies_downloaded six_dependencies_called 0 "app" "1.0.0"
           six_dependencies).
  - right. split; [by vm_compute|]. intros message. by vm_compute.
  - by vm_compute.
Defined.

(** ** [buildDependencyTree] on an object with a cycle *)

Lemma fold_left_child_none (g : string → option string) (children : list string)
    (acc : option string) (c : string) :
  c ∈ children → g c = None →
  fold_left (fun acc child =>
               match acc, g child with
               | Some t, Some sub => Some (t +:+ sub)
               | _, _ => None
               end) children acc = None.
Proof.
  revert acc. induction children as [|x children IH]; intros acc Hc Hg.
  - by apply elem_of_nil in Hc.
  - cbn [fold_left]. apply elem_of_cons in Hc as [<-|Hc].
    + rewrite Hg. destruct acc; apply fold_left_none; by intros [].
    + by apply IH.
Qed.

Lemma cycle_successor (tree : gmap string (list string)) (x y : string) :
  tc (edge tree) x x → rtc (edge tree) y x →
  ∃ c, edge tree y c ∧ rtc (edge tree) c x.
Proof.
  intros Hcycle [->|(c & Hedge & Hrtc)]%rtc_inv; [|eauto].
  inversion Hcycle as [? ? Hedge|? c ? Hedge Htc]; subst.
  - by exists x.
  - exists c. split; [done|]. by apply tc_rtc.
Qed.

(** X23. On an object in which some key is its own descendant, the
    recursion of [buildDependencyTree] does not end from any key that leads
    to it: no number of calls gives a result.  The recorded edges of a run
    never form such an object. *)
Theorem cyclic_tree_is_not_rendered (tree : gmap string (list string))
    (packageKey x : string) (fuel depth : nat) :
  rtc (edge tree) packageKey x → tc (edge tree) x x →
  buildDependencyTree fuel tree packageKey depth = None.
Proof.
  intros Hrtc Hcycle. revert packageKey depth Hrtc.
  induction fuel as [|fuel IH]; intros k d Hrtc; [done|].
  destruct (cycle_successor tree x k Hcycle Hrtc) as (c & (children & Hk & Hc) & Hcx).
  cbn [buildDependencyTree]. rewrite Hk.
  apply (fold_left_child_none
           (fun child => buildDependencyTree fuel tree child (S d)) children _ c Hc).
  by apply IH.
Qed.

Lemma cyclic_tree_is_not_rendered_witness :
  buildDependencyTree 1000 looping_tree "a@1.0.0" 0 = None.
Proof.
  apply (cyclic_tree_is_not_rendered looping_tree "a@1.0.0" "a@1.0.0").
  - apply rtc_refl.
  - apply tc_once. exists ["a@1.0.0"]. split; [reflexivity|left].
Defined.

(** ** The report *)

Lemma buildDependencyTree_total env files0 roots s fuel k d :
  reachable env files0 roots s → length (packageList s) < fuel →
  ∃ lines, preorder fuel (dependencyTree s) k d = Some lines
           ∧ buildDependencyTree fuel (dependencyTree s) k d = Some (render lines).
Proof.
  intros Hs Hfuel. pose proof (reachable_wf _ _ _ _ Hs) as [Hforest _ _ _].
  destruct (preorder_total _ _ _ Hforest fuel k d) as (lines & Hlines & _); [lia|].
  exists lines. split; [done|]. by rewrite buildDependencyTree_preorder, Hlines.
Qed.

Lemma trees_total env files0 roots s (entries : list (string * string)) :
  reachable env files0 roots s →
  ∃ trees, ∀ fuel, length (packageList s) < fuel →
    mapM (fun '(name, version) =>
            buildDependencyTree fuel (dependencyTree s) (packageKey_of name version) 0)
      entries = Some trees.
Proof.
  intros Hs. induction entries as [|[n v] entries [trees IH]].
  - by exists [].
  - destruct (buildDependencyTree_total env files0 roots s (S (length (packageList s)))
                (packageKey_of n v) 0 Hs) as (lines & Hlines & _); [lia|].
    exists (render lines :: trees). intros fuel Hfuel.
    cbn [mapM]. rewrite (IH fuel Hfuel), buildDependencyTree_preorder.
    by rewrite (preorder_mono _ _ _ _ _ Hlines fuel) by lia.
Qed.

(** X24. In every state of a run the report can be written: the trees of
    all roots are built, and the text does not depend on the number of
    calls allowed to [buildDependencyTree] once it exceeds the length of the
    package list. *)
Theorem report_is_always_built (env : environment) (files0 : gset string)
    (roots : list (string * string)) (s : state) :
  reachable env files0 roots s →
  ∃ text, ∀ fuel, length (packageList s) < fuel → logContent fuel roots s = Some text.
Proof.
  intros Hs. destruct (trees_total env files0 roots s roots Hs) as [trees Htrees].
  eexists. intros fuel Hfuel. unfold logContent. by rewrite (Htrees fuel Hfuel).
Qed.

Lemma report_is_always_built_witness :
  ∃ text, ∀ fuel, length (packageList cycle_state) < fuel →
                  logContent fuel [("a", "1.0.0")] cycle_state = Some text.
Proof.
  apply (report_is_always_built cycle_env ∅ [("a", "1.0.0")] cycle_state).
  exists [0; 0; 0; 1; 1; 1; 1; 0]. by vm_compute.
Defined.

(** ** [main] *)

Lemma launch_delta roots s0 :
  ∃ es news,
    trace (launch roots s0) = trace s0 ++ es
    ∧ promises (launch roots s0) = promises s0 ++ news
    ∧ length news = length roots
    ∧ (∀ e, e ∈ es → ∃ n v, e = EvMetadataRequest n v)
    ∧ (∀ ph, ph ∈ news → ph = Resolved ∨ ∃ n v, ph = AwaitMetadata n v)
    ∧ files (launch roots s0) = files s0
    ∧ licenseWarnings (launch roots s0) = licenseWarnings s0.
Proof.
  revert s0. induction roots as [|[n v] roots IH]; intros s0.
  - exists [], []. cbn. rewrite !app_nil_r.
    split_and!; try done; by intros ? ?%elem_of_nil.
  - change (launch ((n, v) :: roots) s0)
      with (launch roots (downloadPackageAndDependencies n v None s0).1).
    destruct (IH (downloadPackageAndDependencies n v None s0).1)
      as (es & news & Ht & Hp & Hlen & Hes & Hnews & Hf & Hw).
    destruct (call_delta n v None s0) as (es0 & news0 & Ht0 & Hp0 & Hes0 & Hnews0).
    destruct (call_promises n v None s0) as [Hp1 _].
    assert (length news0 = 1) as Hone.
    { rewrite Hp0 in Hp1. by apply app_inv_head in Hp1 as ->. }
    exists (es0 ++ es), (news0 ++ news).
    rewrite Ht, Hp, Ht0, Hp0, Hf, Hw, call_files, call_licenseWarnings, <- !app_assoc.
    split_and!; try done.
    + rewrite length_app. cbn. lia.
    + intros e [?|?]%elem_of_app; auto.
    + intros ph [?|?]%elem_of_app; auto.
Qed.

(** X25. When every package string is accepted, [main] calls
    [downloadPackageAndDependencies] for every package before it awaits
    anything: there is one promise per package, whatever [CONCURRENCY] is,
    only metadata requests have been sent, and neither the directory nor
    the tree nor the warnings have changed. *)
Theorem main_calls_every_root (files0 : gset string) (packages : list string) (s : state) :
  main files0 packages = Some s →
  length (promises s) = length packages
  ∧ (∀ ph, ph ∈ promises s → ph = Resolved ∨ ∃ n v, ph = AwaitMetadata n v)
  ∧ (∀ e, e ∈ trace s → ∃ n v, e = EvMetadataRequest n v)
  ∧ files s = files0
  ∧ dependencyTree s = ∅
  ∧ licenseWarnings s = [].
Proof.
  unfold main, parse_all.
  destruct (mapM parsePackageString packages) as [roots|] eqn:Hparse; [|done].
  cbn. intros [= <-].
  destruct (launch_delta roots (initial files0))
    as (es & news & Ht & Hp & Hlen & Hes & Hnews & Hf & Hw).
  cbn in Ht, Hp, Hf, Hw. rewrite Ht, Hp, Hf, Hw, launch_tree, Hlen.
  split_and!; try done.
  symmetry. by eapply length_mapM.
Qed.

Lemma main_calls_every_root_witness :
  length (promises (launch [("lodash", "4.17.21"); ("@element-plus/icons-vue", "latest")]
                      (initial ∅)))
  = length ["lodash@4.17.21"; "@element-plus/icons-vue"]
  ∧ (∀ ph, ph ∈ promises (launch [("lodash", "4.17.21");
                                   ("@element-plus/icons-vue", "latest")] (initial ∅)) →
           ph = Resolved ∨ ∃ n v, ph = AwaitMetadata n v)
  ∧ (∀ e, e ∈ trace (launch [("lodash", "4.17.21");
                              ("@element-plus/icons-vue", "latest")] (initial ∅)) →
          ∃ n v, e = EvMetadataRequest n v)
  ∧ files (launch [("lodash", "4.17.21"); ("@element-plus/icons-vue", "latest")]
             (initial ∅)) = ∅
  ∧ dependencyTree (launch [("lodash", "4.17.21"); ("@element-plus/icons-vue", "latest")]
                      (initial ∅)) = ∅
  ∧ licenseWarnings (launch [("lodash", "4.17.21"); ("@element-plus/icons-vue", "latest")]
                       (initial ∅)) = [].
Proof.
  apply (main_calls_every_root ∅ ["lodash@4.17.21"; "@element-plus/icons-vue"]).
  reflexivity.
Defined.

(** ** The directory before the run *)

(** X26. The directory is prepared before the package strings are parsed:
    when a package string is rejected, nothing is started, but with
    [--clear] the directory has already been emptied; without [--clear] its
    files are kept. *)
Theorem directory_is_prepared_first (dir : option (gset string))
    (packages : list string) (packageString : string) :
  packageString ∈ packages → parsePackageString packageString = None →
  (action true dir packages).1.1 = Some ∅
  ∧ (action true dir packages).2 = None
  ∧ (action false dir packages).1.1 = Some (default ∅ dir)
  ∧ (action false dir packages).2 = None.
Proof.
  intros Hin Hnone.
  assert (∀ files0, main files0 packages = None) as Hmain.
  { intros files0. unfold main, parse_all.
    assert (mapM parsePackageString packages = None) as ->; [|done].
    apply mapM_None, Exists_exists. eauto. }
  destruct dir as [existing|]; cbn; by rewrite ?Hmain.
Qed.

Lemma directory_is_prepared_first_witness :
  (action true (Some {["lodash-4.17.21.tgz"]}) ["lodash@4.17.21"; "@1.0.0"]).1.1 = Some ∅
  ∧ (action true (Some {["lodash-4.17.21.tgz"]}) ["lodash@4.17.21"; "@1.0.0"]).2 = None
  ∧ (action false (Some {["lodash-4.17.21.tgz"]}) ["lodash@4.17.21"; "@1.0.0"]).1.1
    = Some (default ∅ (Some {["lodash-4.17.21.tgz"]}))
  ∧ (action false (Some {["lodash-4.17.21.tgz"]}) ["lodash@4.17.21"; "@1.0.0"]).2 = None.
Proof.
  apply (directory_is_prepared_first (Some {["lodash-4.17.21.tgz"]})
           ["lodash@4.17.21"; "@1.0.0"] "@1.0.0").
  - right. left.
  - reflexivity.
Defined.

(** ** Archive requests and failures *)

Lemma resumes_archive_requests env s ph s1 ph' :
  resumes env s ph s1 ph' →
  ∃ es, trace s1 = trace s ++ es
        ∧ ∀ n v url, EvTarballRequest n v url ∈ es →
            ph = AwaitMetadata n v
            ∧ ∃ m, registry env n v = MetadataOk m ∧ dist m = Some url.
Proof.
  intros Hr.
  destruct Hr as [n v message Hreg|n v m Hreg Hdist|n v m url Hreg Hdist Hf
                 |n v m url Hreg Hdist Hf|n v deps message Harch|n v deps Harch
                 |n v deps message Harch|n v deps Harch|n v deps
                 |k ps i message Hall|k ps i Hall];
    cbn [trace emit add_file]; rewrite ?trace_audit_license, <- ?app_assoc.
  - eexists. split; [done|]. by intros n' v' url' ?%list_elem_of_singleton.
  - eexists. split; [done|]. unfold audit_events.
    intros n' v' url' [Hin|Hin%list_elem_of_singleton]%elem_of_app; [|done].
    destruct (isCommercialFriendly (license m)); [by apply elem_of_nil in Hin|].
    by apply list_elem_of_singleton in Hin.
  - eexists. split; [done|]. unfold audit_events.
    intros n' v' url' [Hin|Hin%list_elem_of_singleton]%elem_of_app; [|done].
    destruct (isCommercialFriendly (license m)); [by apply elem_of_nil in Hin|].
    by apply list_elem_of_singleton in Hin.
  - eexists. split; [done|]. unfold audit_events.
    intros n' v' url' [Hin|Hin%list_elem_of_singleton]%elem_of_app.
    + destruct (isCommercialFriendly (license m)); [by apply elem_of_nil in Hin|].
      by apply list_elem_of_singleton in Hin.
    + simplify_eq. eauto.
  - eexists. split; [done|]. by intros n' v' url' ?%list_elem_of_singleton.
  - exists []. split; [by rewrite app_nil_r|]. by intros n' v' url' ?%elem_of_nil.
  - eexists. split; [done|]. by intros n' v' url' ?%list_elem_of_singleton.
  - destruct (after_download_delta n v deps s) as (es & news & Ht & _ & Hes & _).
    exists es. split; [done|].
    intros n' v' url' [(? & ? & ?)|(? & ? & ?)]%Hes; done.
  - destruct (after_download_delta n v deps s) as (es & news & Ht & _ & Hes & _).
    exists es. split; [done|].
    intros n' v' url' [(? & ? & ?)|(? & ? & ?)]%Hes; done.
  - eexists. split; [done|]. by intros n' v' url' ?%list_elem_of_singleton.
  - exists []. split; [by rewrite app_nil_r|]. by intros n' v' url' ?%elem_of_nil.
Qed.

(** X27. An archive is requested only for a package of the package list
    whose metadata has arrived, and at the url that the [dist] field of this
    metadata gives. *)
Theorem archive_request_follows_metadata (env : environment) (files0 : gset string)
    (roots : list (string * string)) (s : state) (n v url : string) :
  reachable env files0 roots s →
  EvTarballRequest n v url ∈ trace s →
  packageKey_of n v ∈ packageList s
  ∧ ∃ m, registry env n v = MetadataOk m ∧ dist m = Some url.
Proof.
  intros Hs.
  assert (wf s ∧ ∀ n v url, EvTarballRequest n v url ∈ trace s →
            packageKey_of n v ∈ downloadedPackages s
            ∧ ∃ m, registry env n v = MetadataOk m ∧ dist m = Some url) as [Hwf Hinv].
  { revert s Hs. apply reachable_invariant.
    - split; [apply wf_launch|]. intros n' v' url' Hin.
      destruct (launch_delta roots (initial files0)) as (es & _ & Ht & _ & _ & Hes & _).
      rewrite Ht in Hin. cbn in Hin.
      by destruct (Hes _ Hin) as (? & ? & ?).
    - intros s0 p s' [Hwf Hinv] Hstep. split; [by eapply wf_step|].
      pose proof (step_mono _ _ _ _ Hstep) as [HD _].
      pose proof Hstep as (ph & s1 & ph' & Hp & Hr & ->)%step_resumes.
      destruct (resumes_archive_requests _ _ _ _ _ Hr) as (es & Ht & Hes).
      intros n' v' url'. cbn [trace set_promise]. rewrite Ht.
      intros [Hin|Hin]%elem_of_app.
      + destruct (Hinv _ _ _ Hin) as [Hk Hm]. split; [by apply HD|done].
      + destruct (Hes _ _ _ Hin) as [-> Hm]. split; [|done].
        apply HD. by apply (wf_active _ Hwf p (AwaitMetadata n' v')). }
  intros Hin. destruct (Hinv _ _ _ Hin) as [Hk Hm]. split; [|done].
  by apply (forest_list _ (wf_forest _ Hwf)).
Qed.

Lemma archive_request_follows_metadata_witness :
  packageKey_of "a" "1.0.0" ∈ packageList cycle_state
  ∧ ∃ m, registry cycle_env "a" "1.0.0" = MetadataOk m
         ∧ dist m = Some "https://r/a-1.0.0.tgz".
Proof.
  apply (archive_request_follows_metadata cycle_env ∅ [("a", "1.0.0")] cycle_state).
  - exists [0; 0; 0; 1; 1; 1; 1; 0]. by vm_compute.
  - vm_compute. right. left.
Defined.

(** X28. A failure stops the node and nothing else: when what a promise
    awaits fails (metadata request rejected, metadata without [dist],
    archive request rejected, stream error), resuming it claims no key,
    records no edge, creates no promise and no file, and sends nothing; it
    prints the error, after the license warning when the metadata had
    arrived with a license that is not on the list. *)
Theorem failure_stops_the_node (env : environment) (s s' : state) (p : nat) :
  fails env s p = true → step env s p = Some s' →
  downloadedPackages s' = downloadedPackages s
  ∧ packageList s' = packageList s
  ∧ dependencyTree s' = dependencyTree s
  ∧ files s' = files s
  ∧ length (promises s') = length (promises s)
  ∧ ∃ warnings k message,
      trace s' = trace s ++ (EvLicenseWarning <$> warnings) ++ [EvError k message]
      ∧ licenseWarnings s' = licenseWarnings s ++ warnings.
Proof.
  intros Hfail (ph & s1 & ph' & Hp & Hr & ->)%step_resumes.
  unfold fails in Hfail. rewrite Hp in Hfail.
  destruct Hr as [n v message Hreg|n v m Hreg Hdist|n v m url Hreg Hdist Hf
                 |n v m url Hreg Hdist Hf|n v deps message Harch|n v deps Harch
                 |n v deps message Harch|n v deps Harch|n v deps
                 |k ps i message Hall|k ps i Hall];
    try (rewrite ?Hreg, ?Hdist in Hfail; done);
    cbn [downloadedPackages packageList dependencyTree files promises trace
           licenseWarnings set_promise emit];
    autorewrite with fields; rewrite ?files_audit_license, ?length_insert.
  - split_and!; try done. exists [], (packageKey_of n v), message.
    by rewrite app_nil_r.
  - split_and!; try done.
    rewrite trace_audit_license, licenseWarnings_audit_license. unfold audit_events.
    destruct (isCommercialFriendly (license m)).
    + exists [], (packageKey_of n v), tarball_error. by rewrite !app_nil_r.
    + exists [license_warning (packageKey_of n v) (license m)],
        (packageKey_of n v), tarball_error. by rewrite <- app_assoc.
  - split_and!; try done. exists [], (packageKey_of n v), message.
    by rewrite app_nil_r.
  - destruct (archive env n v) eqn:E; try done. by destruct (Harch message).
  - split_and!; try done. exists [], (packageKey_of n v), message.
    by rewrite app_nil_r.
  - destruct (archive env n v) eqn:E; try done. by destruct (Harch message).
Qed.

Lemma failure_stops_the_node_witness :
  downloadedPackages
    (default (initial ∅)
       (run foo_fails_env [0; 0; 0; 1] (launch [("bar", "2.0.0")] (initial ∅))))
  = downloadedPackages
      (default (initial ∅)
         (run foo_fails_env [0; 0; 0] (launch [("bar", "2.0.0")] (initial ∅))))
  ∧ packageList
      (default (initial ∅)
         (run foo_fails_env [0; 0; 0; 1] (launch [("bar", "2.0.0")] (initial ∅))))
    = packageList
        (default (initial ∅)
           (run foo_fails_env [0; 0; 0] (launch [("bar", "2.0.0")] (initial ∅))))
  ∧ dependencyTree
      (default (initial ∅)
         (run foo_fails_env [0; 0; 0; 1] (launch [("bar", "2.0.0")] (initial ∅))))
    = dependencyTree
        (default (initial ∅)
           (run foo_fails_env [0; 0; 0] (launch [("bar", "2.0.0")] (initial ∅))))
  ∧ files
      (default (initial ∅)
         (run foo_fails_env [0; 0; 0; 1] (launch [("bar", "2.0.0")] (initial ∅))))
    = files
        (default (initial ∅)
           (run foo_fails_env [0; 0; 0] (launch [("bar", "2.0.0")] (initial ∅))))
  ∧ length (promises
      (default (initial ∅)
         (run foo_fails_env [0; 0; 0; 1] (launch [("bar", "2.0.0")] (initial ∅)))))
    = length (promises
        (default (initial ∅)
           (run foo_fails_env [0; 0; 0] (launch [("bar", "2.0.0")] (initial ∅)))))
  ∧ ∃ warnings k message,
      trace
        (default (initial ∅)
           (run foo_fails_env [0; 0; 0; 1] (launch [("bar", "2.0.0")] (initial ∅))))
      = trace
          (default (initial ∅)
             (run foo_fails_env [0; 0; 0] (launch [("bar", "2.0.0")] (initial ∅))))
        ++ (EvLicenseWarning <$> warnings) ++ [EvError k message]
      ∧ licenseWarnings
          (default (initial ∅)
             (run foo_fails_env [0; 0; 0; 1] (launch [("bar", "2.0.0")] (initial ∅))))
        = licenseWarnings
            (default (initial ∅)
               (run foo_fails_env [0; 0; 0] (launch [("bar", "2.0.0")] (initial ∅))))
          ++ warnings.
Proof.
  apply (failure_stops_the_node foo_fails_env
           (default (initial ∅)
              (run foo_fails_env [0; 0; 0] (launch [("bar", "2.0.0")] (initial ∅))))
           (default (initial ∅)
              (run foo_fails_env [0; 0; 0; 1] (launch [("bar", "2.0.0")] (initial ∅))))
           1).
  - by vm_compute.
  - by vm_compute.
Defined.

(** ** The recorded edges are dependencies of the registry *)

Lemma resumes_graph_deps env s ph s1 ph' :
  resumes env s ph s1 ph' →
  graph_of s1 = graph_of s
  ∨ ∃ n v deps, (ph = AwaitStream n v deps ∨ ph = AwaitSkip n v deps)
      ∧ graph_of s1 = claim_all (Some (packageKey_of n v))
                        (entry_key <$> (getAllDependencies deps).1) (graph_of s).
Proof.
  intros Hr. destruct Hr;
    try (left; unfold graph_of; cbn; by autorewrite with fields);
    right; exists n, v, deps; rewrite graph_of_after_download; auto.
Qed.

Lemma claim_all_new_edge parent keys g p c :
  edge (claim_all (Some parent) keys g).2 p c →
  edge g.2 p c ∨ (p = parent ∧ c ∈ keys).
Proof.
  revert g. induction keys as [|k keys IH]; intros g; cbn; [by left|].
  intros [Hedge|[-> Hc]]%IH; [|right; split; [done|by right]].
  unfold claim in Hedge. case_decide; [by left|]. cbn [snd] in Hedge.
  apply edge_record_some in Hedge as [?|[[= ->] ->]]; [by left|].
  right. split; [done|left].
Qed.

(** X29. Every recorded edge is a dependency that the registry declares:
    the parent is the key of a package whose metadata has arrived, and the
    child is the key of one of the coerced dependencies of that metadata. *)
Theorem recorded_edge_is_declared (env : environment) (files0 : gset string)
    (roots : list (string * string)) (s : state) (parent child : string) :
  reachable env files0 roots s →
  edge (dependencyTree s) parent child →
  ∃ n v m, packageKey_of n v = parent ∧ registry env n v = MetadataOk m
           ∧ child ∈ entry_key <$> coerced_dependencies m.
Proof.
  intros Hs.
  assert (consistent env s ∧ ∀ p c, edge (dependencyTree s) p c →
            ∃ n v m, packageKey_of n v = p ∧ registry env n v = MetadataOk m
                     ∧ c ∈ entry_key <$> coerced_dependencies m) as [_ Hinv]; [|by apply Hinv].
  revert s Hs. apply reachable_invariant.
  - split.
    + apply launch_invariant; [apply consistent_initial|].
      intros s' n v Hs'. by apply consistent_call.
    + intros p c (l & Hl & _). rewrite launch_tree in Hl. cbn in Hl.
      by rewrite lookup_empty in Hl.
  - intros s p s' [Hcons Hinv] Hstep. split; [by eapply consistent_step|].
    pose proof Hstep as (ph & s1 & ph' & Hp & Hr & ->)%step_resumes.
    change (dependencyTree (set_promise p ph' s1)) with (graph_of s1).2.
    destruct (resumes_graph_deps _ _ _ _ _ Hr)
      as [->|(n & v & deps & Hph & ->)]; [done|].
    intros q c [Hedge|[-> Hc]]%claim_all_new_edge; [by apply Hinv|].
    destruct (consistent_deps env s Hcons p ph n v deps Hp) as (m & Hreg & ->);
      [by destruct Hph as [-> | ->]..|].
    by exists n, v, m.
Qed.

Lemma recorded_edge_is_declared_witness :
  ∃ n v m, packageKey_of n v = "a@1.0.0" ∧ registry cycle_env n v = MetadataOk m
           ∧ "b@1.0.0" ∈ entry_key <$> coerced_dependencies m.
Proof.
  apply (recorded_edge_is_declared cycle_env ∅ [("a", "1.0.0")] cycle_state).
  - exists [0; 0; 0; 1; 1; 1; 1; 0]. by vm_compute.
  - exists ["b@1.0.0"]. split; [by vm_compute|left].
Defined.

(** ** Children are recorded after the archive *)

Lemma resumes_pool env s ph s1 ph' :
  resumes env s ph s1 ph' →
  ∃ news, promises s1 = promises s ++ news
          ∧ ∀ ph0, ph0 ∈ news → ph0 = Resolved ∨ ∃ n v, ph0 = AwaitMetadata n v.
Proof.
  intros Hr. destruct Hr; cbn [promises emit add_file]; autorewrite with fields;
    try (exists []; split; [by rewrite app_nil_r|by intros ? ?%elem_of_nil]);
    destruct (after_download_delta n v deps s) as (? & news & _ & Hp & _ & Hn); eauto.
Qed.

Lemma claim_all_parent parent keys g k :
  is_Some ((claim_all (Some parent) keys g).2 !! k) → is_Some (g.2 !! k) ∨ k = parent.
Proof.
  revert g. induction keys as [|x keys IH]; intros g; cbn; [by left|].
  intros [Hk| ->]%IH; [|by right].
  unfold claim in Hk. case_decide; [by left|]. cbn [snd] in Hk.
  unfold record_edge in Hk. destruct (String.eqb parent ""); [by left|].
  destruct (decide (k = parent)) as [->|Hne]; [by right|].
  rewrite lookup_insert_ne in Hk by done. by left.
Qed.

(** X30. Children are recorded for a package only after its archive: in
    every state of a run, a key that has children in the dependency tree is
    the key of a package whose archive file is in the download directory,
    downloaded in this run or found there. *)
Theorem parent_has_its_archive (env : environment) (files0 : gset string)
    (roots : list (string * string)) (s : state) (packageKey : string) :
  reachable env files0 roots s →
  is_Some (dependencyTree s !! packageKey) →
  ∃ n v, packageKey_of n v = packageKey ∧ fileName_of n v ∈ files s.
Proof.
  intros Hs.
  assert (directory files0 s
          ∧ (∀ p n v deps, promises s !! p = Some (AwaitSkip n v deps) →
                           fileName_of n v ∈ files s)
          ∧ ∀ k, is_Some (dependencyTree s !! k) →
                 ∃ n v, packageKey_of n v = k ∧ fileName_of n v ∈ files s)
    as (_ & _ & Hinv); [|by apply Hinv].
  revert s Hs. apply reachable_invariant.
  - split_and!.
    + apply launch_invariant; [apply directory_initial|].
      intros s' n v Hs'. by apply directory_call.
    + intros p n v deps Hp.
      destruct (launch_delta roots (initial files0)) as (_ & news & _ & Hpool & _ & _ & Hn & _).
      rewrite Hpool in Hp. cbn in Hp.
      apply list_elem_of_lookup_2, Hn in Hp as [?|(? & ? & ?)]; done.
    + intros k Hk. rewrite launch_tree in Hk. cbn in Hk.
      rewrite lookup_empty in Hk. by destruct Hk.
  - intros s p s' (Hdir & Hskip & Hinv) Hstep.
    pose proof (step_files _ _ _ _ Hstep) as Hfiles.
    split_and!; [by eapply directory_step| |].
    + pose proof Hstep as (ph & s1 & ph' & Hp & Hr & ->)%step_resumes.
      intros q n v deps [[-> E]|[Hne Hq]]%lookup_set_promise.
      * destruct Hr; try done.
        -- simplify_eq. cbn [files set_promise emit]. by rewrite files_audit_license.
        -- by destruct (next_batch_cases (packageKey_of n0 v0)
             (call_all (getAllDependencies deps0).1 (packageKey_of n0 v0)
                (emit_all (getAllDependencies deps0).2 s)).2 0) as [E'|E'];
             rewrite E' in E.
        -- by destruct (next_batch_cases (packageKey_of n0 v0)
             (call_all (getAllDependencies deps0).1 (packageKey_of n0 v0)
                (emit_all (getAllDependencies deps0).2 s)).2 0) as [E'|E'];
             rewrite E' in E.
        -- by destruct (next_batch_cases k ps (i + CONCURRENCY)) as [E'|E'];
             rewrite E' in E.
      * destruct (resumes_pool _ _ _ _ _ Hr) as (news & Hpool & Hn).
        rewrite Hpool in Hq.
        destruct (lookup_new_promise _ _ _ _ Hq Hn) as [Hq'|[?|(? & ? & ?)]]; [|done..].
        apply Hfiles. eauto.
    + pose proof Hstep as (ph & s1 & ph' & Hp & Hr & ->)%step_resumes.
      change (dependencyTree (set_promise p ph' s1)) with (graph_of s1).2.
      destruct (resumes_graph_deps _ _ _ _ _ Hr)
        as [->|(n & v & deps & Hph & ->)].
      * intros k (n & v & <- & Hf)%Hinv. exists n, v. split; [done|by apply Hfiles].
      * intros k [(n' & v' & <- & Hf)%Hinv| ->]%claim_all_parent.
        { exists n', v'. split; [done|by apply Hfiles]. }
        exists n, v. split; [done|]. apply Hfiles.
        destruct Hph as [-> | ->].
        -- by apply (directory_stream _ _ Hdir p _ _ deps).
        -- by apply (Hskip p _ _ deps).
Qed.

Lemma parent_has_its_archive_witness :
  ∃ n v, packageKey_of n v = "a@1.0.0" ∧ fileName_of n v ∈ files cycle_state.
Proof.
  apply (parent_has_its_archive cycle_env ∅ [("a", "1.0.0")] cycle_state).
  - exists [0; 0; 0; 1; 1; 1; 1; 0]. by vm_compute.
  - exists ["b@1.0.0"]. by vm_compute.
Defined.
